(** * Retrieval core of the PDF chatbot: chunking, TF-IDF indexing, search

    A shallow embedding of [src/utils/textProcessing.ts] and
    [src/utils/vectorStore.ts], and the properties of the design document
    checked against it; then the answer of the chat
    ([src/components/ChatInterface.tsx], [handleSubmit]) as far as it
    depends on the search results, and further properties of the code.

    Conventions of the embedding.
    - A JavaScript string is the list of its code units.  The embedding
      covers the Latin-1 range (code units 0..255), so a code unit is an
      [ascii]; [length] is the JavaScript [length].
    - Integer-valued numbers (lengths, offsets, counts, scores) are [Z] or
      [nat].
    - TF-IDF weights are IEEE doubles in the program; they are embedded as
      real numbers extended with [NaN] (type [number]).  Rounding is not
      modelled; [NaN] is, because the program produces it on some inputs.
      A statement about a computed similarity is therefore kept to what
      rounding leaves as it is: that the value is a number or [NaN], that
      it is zero or above zero, and the order of the results.  The bound
      1 of the cosine is a fact of the real numbers only: the quotient the
      program computes can be 1.0000000000000002.
    - A [Map], a [Set] and the own properties of a plain object are lists
      in insertion order; a plain object also answers for the property
      names of [Object.prototype] (see [get_or_0]).
    - A method that can throw returns a sum, [inl] for the error.
    - [console.log] and [Date.now] calls have no effect on results and are
      left out.

    Layout: the JavaScript primitives, the two source files, the notions
    of the design document and of the statements, the remaining functions
    of the two files and the answer of the chat, then the facts. *)

From Stdlib Require Import Ascii String.
From Stdlib Require Import List ZArith Lia Bool Arith.
From Stdlib Require Import DecimalString Permutation Sorted.
From Stdlib Require Import Reals Lra.
Import ListNotations.

Set Implicit Arguments.

(* ================================================================== *)
(** * JavaScript strings and the string primitives the code uses *)
(* ================================================================== *)

Module JsString.

Definition str := list ascii.

(** String literal. *)
Definition lit (s : string) : str := list_ascii_of_string s.

(** [s.length] *)
Definition len (s : str) : Z := Z.of_nat (length s).

Fixpoint str_eqb (a b : str) : bool :=
  match a, b with
  | [], [] => true
  | x :: a', y :: b' => Ascii.eqb x y && str_eqb a' b'
  | _, _ => false
  end.

Definition between (lo n hi : nat) : bool := Nat.leb lo n && Nat.leb n hi.

(** [\s] of a regular expression, which is also the set [trim] strips:
    TAB, LF, VT, FF, CR, SPACE and NBSP are its members below U+0100. *)
Definition is_space (c : ascii) : bool :=
  let n := nat_of_ascii c in
  between 9 n 13 || Nat.eqb n 32 || Nat.eqb n 160.

(** [\w] of a regular expression: [A-Za-z0-9_]. *)
Definition is_word (c : ascii) : bool :=
  let n := nat_of_ascii c in
  between 48 n 57 || between 65 n 90 || Nat.eqb n 95 || between 97 n 122.

(** The class [[.!?]]. *)
Definition is_terminator (c : ascii) : bool :=
  let n := nat_of_ascii c in
  Nat.eqb n 46 || Nat.eqb n 33 || Nat.eqb n 63.

Definition is_newline (c : ascii) : bool := Nat.eqb (nat_of_ascii c) 10.

(** [toLowerCase] on one code unit: A-Z, and the Latin-1 capitals
    U+00C0..U+00DE except the multiplication sign U+00D7. *)
Definition lower_char (c : ascii) : ascii :=
  let n := nat_of_ascii c in
  if between 65 n 90 || (between 192 n 222 && negb (Nat.eqb n 215))
  then ascii_of_nat (n + 32) else c.

Definition toLowerCase (s : str) : str := map lower_char s.

Fixpoint trimStart (s : str) : str :=
  match s with
  | [] => []
  | c :: r => if is_space c then trimStart r else s
  end.

Definition trimEnd (s : str) : str := rev (trimStart (rev s)).

(** [s.trim()] *)
Definition trim (s : str) : str := trimEnd (trimStart s).

Definition clamp (n : Z) (s : str) : nat := Z.to_nat (Z.min (Z.max n 0) (len s)).

(** [s.substring(a, b)]: both indices are clamped to [0, s.length] and
    swapped when [a > b]. *)
Definition substring (s : str) (a b : Z) : str :=
  let a' := clamp a s in
  let b' := clamp b s in
  let lo := Nat.min a' b' in
  let hi := Nat.max a' b' in
  firstn (hi - lo) (skipn lo s).

(** [s.substring(a)] *)
Definition substring_from (s : str) (a : Z) : str := substring s a (len s).

Fixpoint prefix (p s : str) : bool :=
  match p, s with
  | [], _ => true
  | x :: p', y :: s' => Ascii.eqb x y && prefix p' s'
  | _ :: _, [] => false
  end.

(** [s.includes(t)] *)
Fixpoint includes (s t : str) : bool :=
  prefix t s ||
  match s with
  | [] => false
  | _ :: s' => includes s' t
  end.

Fixpoint find_char (p : ascii -> bool) (s : str) : option nat :=
  match s with
  | [] => None
  | c :: r => if p c then Some 0%nat else option_map S (find_char p r)
  end.

(** [s.indexOf(' ')], [-1] when there is none. *)
Definition indexOf_space (s : str) : Z :=
  match find_char (fun c => Nat.eqb (nat_of_ascii c) 32) s with
  | Some i => Z.of_nat i
  | None => (-1)%Z
  end.

(** ** Regular expressions

    The code uses four fixed patterns.  Each is embedded as a matcher that,
    given the text from some position on, returns the length of the match
    that starts exactly there, as the backtracking matcher finds it. *)

Fixpoint run_length (p : ascii -> bool) (s : str) : nat :=
  match s with
  | c :: r => if p c then S (run_length p r) else 0
  | [] => 0
  end.

Definition nonzero (n : nat) : option nat :=
  match n with 0%nat => None | _ => Some n end.

(** [/\s+/] *)
Definition match_spaces (s : str) : option nat := nonzero (run_length is_space s).

(** [/[.!?]+/] *)
Definition match_terminators (s : str) : option nat :=
  nonzero (run_length is_terminator s).

(** [/[.!?]+\s+/]: the longest run of terminators, which must be followed
    by white space (giving back terminators cannot help: what follows a
    shorter run is a terminator). *)
Definition match_sentence_end (s : str) : option nat :=
  let n := run_length is_terminator s in
  let m := run_length is_space (skipn n s) in
  match n, m with
  | 0%nat, _ => None
  | _, 0%nat => None
  | _, _ => Some (n + m)%nat
  end.

Fixpoint last_newline (w : str) : option nat :=
  match w with
  | [] => None
  | c :: r =>
      match last_newline r with
      | Some i => Some (S i)
      | None => if is_newline c then Some 0%nat else None
      end
  end.

(** [/\n\s*\n/]: a line feed, then the greedy [\s*] backs off to the last
    line feed of the white-space run that follows. *)
Definition match_paragraph (s : str) : option nat :=
  match s with
  | c :: r =>
      if is_newline c then
        match last_newline (firstn (run_length is_space r) r) with
        | Some i => Some (i + 2)%nat
        | None => None
        end
      else None
  | [] => None
  end.

(** [s.split(re)] for a pattern [re] that never matches the empty string:
    scan left to right, cut at every match, continue after it.  [skip]
    counts the code units of the current match still to be passed over and
    [cur] holds the piece being read, reversed. *)
Fixpoint split_by (m : str -> option nat) (skip : nat) (cur : str) (s : str)
  : list str :=
  match s with
  | [] => [rev cur]
  | c :: s' =>
      match skip with
      | S k => split_by m k cur s'
      | O =>
          match m s with
          | Some (S k) => rev cur :: split_by m k [] s'
          | _ => split_by m 0 (c :: cur) s'
          end
      end
  end.

Definition split (m : str -> option nat) (s : str) : list str := split_by m 0 [] s.

(** [s.replace(/\s+/g, ' ')] *)
Fixpoint collapse_spaces (in_run : bool) (s : str) : str :=
  match s with
  | [] => []
  | c :: r =>
      if is_space c then
        if in_run then collapse_spaces true r
        else " "%char :: collapse_spaces true r
      else c :: collapse_spaces false r
  end.

(** Number of matches of [new RegExp(term, 'g')] in [s], for a [term]
    without regular-expression metacharacters (which is what [extractTerms]
    produces, see [preprocessText]): the pattern is then the literal
    [term], matched left to right without overlap.  The empty pattern
    matches once at every position, the end included. *)
Fixpoint count_matches (term : str) (skip : nat) (s : str) : nat :=
  match s with
  | [] => match term with [] => 1 | _ => 0 end
  | _ :: s' =>
      match skip with
      | S k => count_matches term k s'
      | O =>
          if prefix term s
          then S (count_matches term (length term - 1) s')
          else count_matches term 0 s'
      end
  end.

(** The two-character string of two line feeds, ['\n\n']. *)
Definition two_newlines : str := ["010"%char; "010"%char].

(** Decimal representation of an integer, as a template literal prints it. *)
Definition decimal (z : Z) : str := lit (NilZero.string_of_int (Z.to_int z)).

End JsString.
Import JsString.

(* ================================================================== *)
(** * JavaScript arrays, [Set] and [Map] *)
(* ================================================================== *)

Module JsArray.

(** [Array.prototype.sort(compare)], which is a stable sort: [later a b]
    says that [compare(a, b) > 0], that is, that [a] must come after [b].
    An element moves right past exactly the elements it must come after.
    (When [compare] is not a consistent order, which here needs a [NaN]
    among the keys, ECMAScript leaves the resulting order to the engine;
    the embedding then still returns a permutation, the one straight
    insertion gives.) *)
Section Sort.
Variable A : Type.
Variable later : A -> A -> bool.

Fixpoint insert (x : A) (l : list A) : list A :=
  match l with
  | [] => [x]
  | y :: r => if later x y then y :: insert x r else x :: y :: r
  end.

Definition sort (l : list A) : list A := fold_right insert [] l.
End Sort.

(** [array.slice(0, end)] for an integer [end]: a negative [end] counts from
    the end of the array. *)
Definition slice0 (A : Type) (l : list A) (end_ : Z) : list A :=
  let n := Z.of_nat (length l) in
  let final := if (end_ <? 0)%Z then Z.max (n + end_) 0 else Z.min end_ n in
  firstn (Z.to_nat final) l.

(** A [Map] with string keys keeps its entries in insertion order; [set]
    on a present key replaces the value in place. *)
Definition Map (V : Type) := list (str * V).

Fixpoint Map_get (V : Type) (m : Map V) (k : str) : option V :=
  match m with
  | [] => None
  | (k', v) :: r => if str_eqb k' k then Some v else Map_get r k
  end.

Fixpoint Map_set (V : Type) (m : Map V) (k : str) (v : V) : Map V :=
  match m with
  | [] => [(k, v)]
  | (k', v') :: r =>
      if str_eqb k' k then (k', v) :: r else (k', v') :: Map_set r k v
  end.

Definition keys (V : Type) (m : Map V) : list str := map fst m.

(** A [Set] of strings, in insertion order. *)
Definition has (set : list str) (x : str) : bool := existsb (str_eqb x) set.

Definition Set_add (set : list str) (x : str) : list str :=
  if has set x then set else set ++ [x].

(** [new Set(array)] *)
Definition new_Set (array : list str) : list str := fold_left Set_add array [].

End JsArray.
Import JsArray.

(* ================================================================== *)
(** * [textProcessing.ts] *)
(* ================================================================== *)

Module TextProcessing.

Local Open Scope Z_scope.

Record DocumentChunk := {
  id : str;
  text : str;
  pageNumber : Z;
  chunkIndex : Z;
  startOffset : Z;
  endOffset : Z
}.

(** [CHUNK_CONFIG] *)
Module CHUNK_CONFIG.
Definition targetSize : Z := 800.
Definition maxSize : Z := 1200.
Definition minSize : Z := 200.
Definition overlapSize : Z := 100.
Definition sentenceEndPattern := match_sentence_end.
Definition paragraphPattern := match_paragraph.
End CHUNK_CONFIG.

(** [getPageNumber]; [i] is the loop index. *)
Fixpoint getPageNumber_from (i : Z) (offset : Z) (pageBreaks : list Z) : Z :=
  match pageBreaks with
  | [] => i + 1
  | b :: rest => if offset <? b then i + 1 else getPageNumber_from (i + 1) offset rest
  end.

Definition getPageNumber (offset : Z) (pageBreaks : list Z) : Z :=
  getPageNumber_from 0 offset pageBreaks.

Definition createChunk (text : str) (chunkIndex startOffset endOffset : Z)
    (pageBreaks : list Z) : DocumentChunk :=
  {| id := lit "chunk-" ++ decimal chunkIndex;
     text := text;
     pageNumber := getPageNumber startOffset pageBreaks;
     chunkIndex := chunkIndex;
     startOffset := startOffset;
     endOffset := endOffset |}.

(** The loop of [findGoodBreakPoint] over [sentences[0 .. length-2]]; the
    list passed is the sentences still to visit, the last one excluded by
    the two-element pattern. *)
Fixpoint findGoodBreakPoint_loop (sentences : list str) (position bestBreak : Z) : Z :=
  match sentences with
  | s :: ((_ :: _) as rest) =>
      let position := position + len s + 1 in
      if (CHUNK_CONFIG.minSize <=? position) && (position <=? CHUNK_CONFIG.targetSize)
      then findGoodBreakPoint_loop rest position position
      else if CHUNK_CONFIG.targetSize <? position
      then bestBreak
      else findGoodBreakPoint_loop rest position bestBreak
  | _ => bestBreak
  end.

Definition findGoodBreakPoint (text : str) : Z :=
  let sentences := split CHUNK_CONFIG.sentenceEndPattern text in
  findGoodBreakPoint_loop sentences 0 (len text).

Definition getOverlapText (text : str) (overlapSize : Z) : str :=
  if len text <=? overlapSize then text
  else
    let overlap := substring_from text (len text - overlapSize) in
    let spaceIndex := indexOf_space overlap in
    if 0 <? spaceIndex then substring_from overlap (spaceIndex + 1)
    else overlap.

(** The local variables of [chunkText] that its loop updates. *)
Record chunker := {
  chunks : list DocumentChunk;
  next_index : Z;             (* chunkIndex *)
  currentPosition : Z;
  currentChunk : str;
  chunkStartPosition : Z
}.

Definition truthy (s : str) : bool := match s with [] => false | _ => true end.

(** First half of the loop body: the paragraph is appended, or the buffer is
    finalised (and then the paragraph is not appended). *)
Definition add_paragraph (pageBreaks : list Z) (st : chunker) (paragraph : str) : chunker :=
  if truthy (currentChunk st)
     && (CHUNK_CONFIG.maxSize <? len (currentChunk st) + len paragraph)
  then
    if CHUNK_CONFIG.minSize <=? len (currentChunk st) then
      let c := createChunk (trim (currentChunk st)) (next_index st)
                 (chunkStartPosition st) (currentPosition st - 1) pageBreaks in
      let overlap := getOverlapText (currentChunk st) CHUNK_CONFIG.overlapSize in
      {| chunks := chunks st ++ [c];
         next_index := next_index st + 1;
         currentPosition := currentPosition st;
         currentChunk := overlap;
         chunkStartPosition := currentPosition st - len overlap |}
    else
      {| chunks := chunks st;
         next_index := next_index st;
         currentPosition := currentPosition st;
         currentChunk := currentChunk st ++ two_newlines ++ paragraph;
         chunkStartPosition := chunkStartPosition st |}
  else if truthy (currentChunk st) then
    {| chunks := chunks st;
       next_index := next_index st;
       currentPosition := currentPosition st;
       currentChunk := currentChunk st ++ two_newlines ++ paragraph;
       chunkStartPosition := chunkStartPosition st |}
  else
    {| chunks := chunks st;
       next_index := next_index st;
       currentPosition := currentPosition st;
       currentChunk := paragraph;
       chunkStartPosition := currentPosition st |}.

(** Second half of the loop body: the break at a sentence boundary once the
    buffer has reached the target size. *)
Definition break_at_sentence (pageBreaks : list Z) (st : chunker) : chunker :=
  if CHUNK_CONFIG.targetSize <=? len (currentChunk st) then
    let sentenceBreak := findGoodBreakPoint (currentChunk st) in
    if CHUNK_CONFIG.minSize <? sentenceBreak then
      let chunkText := trim (substring (currentChunk st) 0 sentenceBreak) in
      let c := createChunk chunkText (next_index st) (chunkStartPosition st)
                 (chunkStartPosition st + sentenceBreak) pageBreaks in
      let remainder :=
        trim (substring_from (currentChunk st)
                (sentenceBreak - CHUNK_CONFIG.overlapSize)) in
      {| chunks := chunks st ++ [c];
         next_index := next_index st + 1;
         currentPosition := currentPosition st;
         currentChunk := remainder;
         chunkStartPosition :=
           chunkStartPosition st + sentenceBreak - CHUNK_CONFIG.overlapSize |}
    else st
  else st.

Definition advance (st : chunker) (n : Z) : chunker :=
  {| chunks := chunks st;
     next_index := next_index st;
     currentPosition := currentPosition st + n;
     currentChunk := currentChunk st;
     chunkStartPosition := chunkStartPosition st |}.

(** One iteration of the [for] loop of [chunkText]. *)
Definition chunk_step (pageBreaks : list Z) (st : chunker) (raw : str) : chunker :=
  let paragraph := trim raw in
  if negb (truthy paragraph) then advance st (len paragraph + 2)
  else
    let st1 := add_paragraph pageBreaks st paragraph in
    let st2 := advance st1 (len paragraph + 2) in
    break_at_sentence pageBreaks st2.

Definition chunker_init : chunker :=
  {| chunks := []; next_index := 0; currentPosition := 0;
     currentChunk := []; chunkStartPosition := 0 |}.

(** The statement after the loop. *)
Definition final_chunk (pageBreaks : list Z) (st : chunker) : list DocumentChunk :=
  if truthy (trim (currentChunk st))
     && (CHUNK_CONFIG.minSize <=? len (currentChunk st))
  then chunks st ++
       [createChunk (trim (currentChunk st)) (next_index st)
          (chunkStartPosition st) (currentPosition st - 1) pageBreaks]
  else chunks st.

Definition chunkText (text : str) (pageBreaks : list Z) : list DocumentChunk :=
  let paragraphs := split CHUNK_CONFIG.paragraphPattern text in
  final_chunk pageBreaks (fold_left (chunk_step pageBreaks) paragraphs chunker_init).

(** [cleanText] is embedded in [TextCleaning] below. *)

(** ** Key sentences *)

Definition sum_Z (l : list Z) : Z := fold_left Z.add l 0.

Record scored := { sentence : str; score : Z }.

(** The score the loop body computes for one sentence. *)
Definition sentence_score (queryTermsLower : list str) (sentence : str) : Z :=
  let sentenceLower := toLowerCase sentence in
  let score :=
    fold_left
      (fun score term =>
         let occurrences := Z.of_nat (count_matches term 0 sentenceLower) in
         score + occurrences * len term)
      queryTermsLower 0 in
  let uniqueTermsFound :=
    Z.of_nat (length (filter (fun term => includes sentenceLower term) queryTermsLower)) in
  if 1 <? uniqueTermsFound then score + uniqueTermsFound * 50 else score.

Definition scoredSentences (text : str) (queryTerms : list str) : list scored :=
  let sentences :=
    filter (fun s => 0 <? len s) (map trim (split match_terminators text)) in
  let queryTermsLower := map toLowerCase queryTerms in
  flat_map
    (fun sentence =>
       let score := sentence_score queryTermsLower sentence in
       if 0 <? score then [{| sentence := sentence; score := score |}] else [])
    sentences.

Definition extractKeySentences (text : str) (queryTerms : list str) : list str :=
  map sentence
    (slice0 (sort (fun a b => 0 <? score b - score a)
               (scoredSentences text queryTerms)) 3).

(** ** Terms *)

Definition preprocessText (text : str) : str :=
  trim
    (collapse_spaces false
       (map (fun c => if is_word c || is_space c then c else " "%char)
          (toLowerCase text))).

Definition stopWords : list str :=
  map lit
    [ "the"; "a"; "an"; "and"; "or"; "but"; "in"; "on"; "at"; "to"; "for"; "of"; "with";
      "by"; "is"; "are"; "was"; "were"; "be"; "been"; "have"; "has"; "had"; "do"; "does";
      "did"; "will"; "would"; "could"; "should"; "may"; "might"; "must"; "can"; "this";
      "that"; "these"; "those"; "i"; "you"; "he"; "she"; "it"; "we"; "they"; "me"; "him";
      "her"; "us"; "them"; "my"; "your"; "his"; "its"; "our"; "their" ]%string.

(** [array.indexOf(x)], [-1] when absent. *)
Fixpoint indexOf_from (i : Z) (x : str) (array : list str) : Z :=
  match array with
  | [] => -1
  | y :: r => if str_eqb y x then i else indexOf_from (i + 1) x r
  end.

Definition indexOf (array : list str) (x : str) : Z := indexOf_from 0 x array.

(** [array.filter((x, index, array) => f x index)] on the suffix [l] of the
    array that starts at [index]. *)
Fixpoint filter_indexed (f : str -> Z -> bool) (index : Z) (l : list str) : list str :=
  match l with
  | [] => []
  | x :: r =>
      if f x index then x :: filter_indexed f (index + 1) r
      else filter_indexed f (index + 1) r
  end.

(** The tokens of a text that survive the length and stop-word filter,
    repeats included: the array the last [filter] of [extractTerms] is
    applied to. *)
Definition survivingTokens (text : str) : list str :=
  filter (fun term => (2 <? len term) && negb (has stopWords term))
    (split match_spaces (preprocessText text)).

Definition extractTerms (text : str) : list str :=
  let array := survivingTokens text in
  filter_indexed (fun term index => indexOf array term =? index) 0 array.

End TextProcessing.
Import TextProcessing.

(* ================================================================== *)
(** * JavaScript numbers *)
(* ================================================================== *)

Module JsNumber.

Local Open Scope R_scope.

(** A number is a real or [NaN].  (Infinities do not arise: the only
    division whose divisor can be zero is guarded, see
    [cosineSimilarity].) *)
Inductive number :=
| Num (r : R)
| NaN.

Definition add (a b : number) : number :=
  match a, b with Num x, Num y => Num (x + y) | _, _ => NaN end.

Definition sub (a b : number) : number :=
  match a, b with Num x, Num y => Num (x - y) | _, _ => NaN end.

Definition mul (a b : number) : number :=
  match a, b with Num x, Num y => Num (x * y) | _, _ => NaN end.

(** [a / b]; the quotient by zero, an infinity or [NaN] in JavaScript, is
    outside the embedding and is given as [NaN]. *)
Definition div (a b : number) : number :=
  match a, b with
  | Num x, Num y => if Req_dec_T y 0 then NaN else Num (x / y)
  | _, _ => NaN
  end.

(** [Math.sqrt] *)
Definition Math_sqrt (a : number) : number :=
  match a with
  | Num x => if Rlt_dec x 0 then NaN else Num (sqrt x)
  | NaN => NaN
  end.

(** [a === 0] *)
Definition is_zero (a : number) : bool :=
  match a with
  | Num x => if Req_dec_T x 0 then true else false
  | NaN => false
  end.

(** [a > 0], the test [sort] applies to the value of the comparison
    function; [NaN] counts as zero there. *)
Definition positive (a : number) : bool :=
  match a with
  | Num x => if Rlt_dec 0 x then true else false
  | NaN => false
  end.

(** [a >= b] *)
Definition geq (a b : number) : Prop :=
  match a, b with Num x, Num y => y <= x | _, _ => False end.

(** [Math.round(s / n)] for integers [s >= 0] and [n > 0]: the nearest
    integer, halves upwards. *)
Definition round_div (s n : Z) : Z := ((2 * s + n) / (2 * n))%Z.

End JsNumber.
Import JsNumber.

(* ================================================================== *)
(** * [vectorStore.ts] *)
(* ================================================================== *)

Module VectorStore.

Local Open Scope R_scope.

(** ** Plain objects used as vectors

    A [TFIDFVector] is created by the object literal [{}], so its prototype
    is [Object.prototype].  The embedding keeps its own properties, in
    insertion order (integer-like keys are enumerated first by
    [Object.keys]; the order is only the order of summation and is not
    modelled). *)
Definition TFIDFVector := Map R.

(** The property names of [Object.prototype]. *)
Definition Object_prototype : list str :=
  map lit
    [ "constructor"; "__defineGetter__"; "__defineSetter__"; "hasOwnProperty";
      "__lookupGetter__"; "__lookupSetter__"; "isPrototypeOf";
      "propertyIsEnumerable"; "toString"; "valueOf"; "__proto__";
      "toLocaleString" ]%string.

(** [vector[key] = value] for a number [value]: an own property is created
    or updated, except that [__proto__] is an accessor of
    [Object.prototype] whose setter ignores a number. *)
Definition assign (vector : TFIDFVector) (key : str) (value : R) : TFIDFVector :=
  if str_eqb key (lit "__proto__") then vector else Map_set vector key value.

(** [vector[key] || 0], as the arithmetic that follows sees it.  An own
    property gives its value.  Otherwise the lookup goes to
    [Object.prototype]: it finds nothing for most keys ([undefined || 0] is
    [0]), but a function or an object for the names in [Object_prototype];
    these are truthy, [||] keeps them, and they convert to [NaN]. *)
Definition get_or_0 (vector : TFIDFVector) (key : str) : number :=
  match Map_get vector key with
  | Some v => Num v
  | None => if has Object_prototype key then NaN else Num 0
  end.

(** ** The store *)

Record ProcessedChunk := {
  chunk : DocumentChunk;          (* the fields spread from the chunk *)
  tfidfVector : TFIDFVector;
  termCount : nat
}.

Record SearchResult := {
  result_chunk : ProcessedChunk;  (* chunk *)
  similarity : number;
  relevantSentences : list str
}.

Record VectorStore := {
  chunks : list ProcessedChunk;
  vocabulary : list str;
  idfScores : Map R;
  isInitialized : bool
}.

(** [map.get(k) || 0] on a [Map] of counts. *)
Definition count_or_0 (m : Map nat) (k : str) : nat :=
  match Map_get m k with Some c => c | None => 0%nat end.

(** The body of the two counting loops:
    [count = map.get(term) || 0; map.set(term, count + 1)]. *)
Definition increment (counts : Map nat) (term : str) : Map nat :=
  let count := count_or_0 counts term in
  Map_set counts term (count + 1)%nat.

(** First loop of [calculateIDF]: [termDocumentCounts]. *)
Definition termDocumentCounts (allTerms : list (list str)) : Map nat :=
  fold_left
    (fun counts terms =>
       let uniqueTerms := new_Set terms in
       fold_left increment uniqueTerms counts)
    allTerms [].

(** [calculateIDF], which updates the field [idfScores]. *)
Definition calculateIDF (idfScores : Map R) (allTerms : list (list str)) : Map R :=
  let documentCount := length allTerms in
  fold_left
    (fun idfScores entry =>
       let '(term, docCount) := entry in
       let idf := ln (INR documentCount / INR docCount) in
       Map_set idfScores term idf)
    (termDocumentCounts allTerms) idfScores.

(** First loop of [calculateTFIDF]: [termFreq]. *)
Definition termFreq (terms : list str) : Map nat := fold_left increment terms [].

(** [idfScores.get(term) || 0] *)
Definition idf_or_0 (idfScores : Map R) (term : str) : R :=
  match Map_get idfScores term with Some v => v | None => 0 end.

Definition calculateTFIDF (idfScores : Map R) (terms : list str) : TFIDFVector :=
  let totalTerms := length terms in
  fold_left
    (fun tfidfVector entry =>
       let '(term, freq) := entry in
       let tf := INR freq / INR totalTerms in
       let idf := idf_or_0 idfScores term in
       assign tfidfVector term (tf * idf))
    (termFreq terms) [].

(** The three accumulators of [cosineSimilarity]. *)
Record sums := { dotProduct : number; magnitudeA : number; magnitudeB : number }.

(** The body of the loop of [cosineSimilarity]. *)
Definition cosine_step (vectorA vectorB : TFIDFVector) (acc : sums) (key : str) : sums :=
  let valueA := get_or_0 vectorA key in
  let valueB := get_or_0 vectorB key in
  {| dotProduct := add (dotProduct acc) (mul valueA valueB);
     magnitudeA := add (magnitudeA acc) (mul valueA valueA);
     magnitudeB := add (magnitudeB acc) (mul valueB valueB) |}.

Definition cosine_sums (vectorA vectorB : TFIDFVector) (allKeys : list str) : sums :=
  fold_left (cosine_step vectorA vectorB) allKeys
    {| dotProduct := Num 0; magnitudeA := Num 0; magnitudeB := Num 0 |}.

Definition cosineSimilarity (vectorA vectorB : TFIDFVector) : number :=
  let keysA := keys vectorA in
  let keysB := keys vectorB in
  let allKeys := new_Set (keysA ++ keysB) in
  let acc := cosine_sums vectorA vectorB allKeys in
  let magnitude := mul (Math_sqrt (magnitudeA acc)) (Math_sqrt (magnitudeB acc)) in
  if is_zero magnitude then Num 0
  else div (dotProduct acc) magnitude.

(** [array.map((x, index) => f x index)] *)
Fixpoint map_indexed (A B : Type) (f : A -> nat -> B) (index : nat) (l : list A) : list B :=
  match l with
  | [] => []
  | x :: r => f x index :: map_indexed f (S index) r
  end.

(** [initializeStore], on the fields as they are when it is called. *)
Definition initializeStore (this : VectorStore) (documentChunks : list DocumentChunk)
  : VectorStore :=
  let allTerms := map (fun chunk => extractTerms (text chunk)) documentChunks in
  let vocabulary :=
    fold_left (fun vocabulary terms => fold_left Set_add terms vocabulary)
      allTerms (vocabulary this) in
  let idfScores := calculateIDF (idfScores this) allTerms in
  let chunks :=
    map_indexed
      (fun chunk index =>
         let terms := nth index allTerms [] in
         let tfidfVector := calculateTFIDF idfScores terms in
         {| chunk := chunk; tfidfVector := tfidfVector; termCount := length terms |})
      0 documentChunks in
  {| chunks := chunks; vocabulary := vocabulary; idfScores := idfScores;
     isInitialized := true |}.

(** The field initialisers of the class. *)
Definition fields_init : VectorStore :=
  {| chunks := []; vocabulary := []; idfScores := []; isInitialized := false |}.

(** [new VectorStore(documentChunks)] *)
Definition constructor (documentChunks : list DocumentChunk) : VectorStore :=
  initializeStore fields_init documentChunks.

Inductive error := Error (message : string).

Definition result (A : Type) : Type := (error + A)%type.

Record scoredChunk := { sc_chunk : ProcessedChunk; sc_similarity : number }.

(** The comparison function of [search]: [b.similarity - a.similarity]. *)
Definition by_similarity (a b : scoredChunk) : number :=
  sub (sc_similarity b) (sc_similarity a).

(** [search(query, topK = 5)]; a rejected promise is the [inl] case. *)
Definition search (this : VectorStore) (query : str) (topK : option Z)
  : result (list SearchResult) :=
  let topK := match topK with Some k => k | None => 5%Z end in
  if negb (isInitialized this) then inl (Error "Vector store not initialized")
  else
    let queryTerms := extractTerms query in
    let queryVector := calculateTFIDF (idfScores this) queryTerms in
    let similarities :=
      map (fun chunk =>
             {| sc_chunk := chunk;
                sc_similarity := cosineSimilarity queryVector (tfidfVector chunk) |})
        (chunks this) in
    let sorted := sort (fun a b => positive (by_similarity a b)) similarities in
    let topResults := slice0 sorted topK in
    inr (map (fun r =>
                {| result_chunk := sc_chunk r;
                   similarity := sc_similarity r;
                   relevantSentences :=
                     extractKeySentences (text (chunk (sc_chunk r))) queryTerms |})
           topResults).

Record Stats := {
  chunkCount : Z;
  vocabularySize : Z;
  averageChunkLength : Z;
  stats_isInitialized : bool
}.

Definition getStats (this : VectorStore) : Stats :=
  let averageChunkLength :=
    if (0 <? Z.of_nat (length (chunks this)))%Z
    then round_div
           (fold_left (fun sum c => (sum + len (text (chunk c)))%Z) (chunks this) 0%Z)
           (Z.of_nat (length (chunks this)))
    else 0%Z in
  {| chunkCount := Z.of_nat (length (chunks this));
     vocabularySize := Z.of_nat (length (vocabulary this));
     averageChunkLength := averageChunkLength;
     stats_isInitialized := isInitialized this |}.

(** [getStats] has no [throw] and calls nothing that throws: it is a total
    function.  [findChunksWithTerms] and [getTopTerms] are embedded in
    [Diagnostics] and [TopTerms] below. *)

End VectorStore.

(* ================================================================== *)
(** * The quantities the design document names *)
(* ================================================================== *)

(** Written from the words of the design document, to be compared with what
    the code computes. *)
Module Design.

Local Open Scope Z_scope.

Definition str_dec : forall a b : str, {a = b} + {a <> b} := list_eq_dec ascii_dec.

Definition sum (l : list Z) : Z := fold_right Z.add 0 l.

(** "occurrenceCountInSentence": matching ignores case. *)
Definition occurrenceCountInSentence (term sentence : str) : Z :=
  Z.of_nat (count_matches term 0 (toLowerCase sentence)).

Definition foundIn (sentence term : str) : bool :=
  includes (toLowerCase sentence) term.

(** "distinctQueryTermsFound" *)
Definition distinctQueryTermsFound (queryTerms : list str) (sentence : str) : Z :=
  Z.of_nat (length (nodup str_dec (filter (foundIn sentence) queryTerms))).

(** The entries of the query-term list found in the sentence, an entry that
    is repeated in the list counted each time. *)
Definition queryTermEntriesFound (queryTerms : list str) (sentence : str) : Z :=
  Z.of_nat (length (filter (foundIn sentence) queryTerms)).

Definition bonus (found : Z) : Z := if 1 <? found then 50 * found else 0.

(** "Σ over query terms (occurrenceCountInSentence × termLength), plus a
    +50×(distinctQueryTermsFound) bonus when more than one distinct query
    term appears in the sentence" *)
Definition keySentenceScore (queryTerms : list str) (sentence : str) : Z :=
  sum (map (fun term => occurrenceCountInSentence term sentence * len term) queryTerms)
  + bonus (distinctQueryTermsFound queryTerms sentence).

Definition descending (l : list Z) : Prop := StronglySorted (fun a b => b <= a) l.

(** "rawOccurrenceCount(term, chunk)": the occurrences of the term among
    the surviving tokens of the chunk, repeats counted. *)
Definition rawOccurrenceCount (term : str) (chunkText : str) : nat :=
  count_occ str_dec (survivingTokens chunkText) term.

(** "totalRawTermCountInChunk" *)
Definition totalRawTermCountInChunk (chunkText : str) : nat :=
  length (survivingTokens chunkText).

(** "tf = rawOccurrenceCount(term, chunk) / totalRawTermCountInChunk;
    tfidf = tf × idf[term]" *)
Definition designedWeight (idf : R) (term : str) (chunkText : str) : R :=
  (INR (rawOccurrenceCount term chunkText)
   / INR (totalRawTermCountInChunk chunkText) * idf)%R.

(** The number of chunks whose term list contains the term. *)
Definition documentFrequency (allTerms : list (list str)) (term : str) : nat :=
  length (filter (fun terms => has terms term) allTerms).

End Design.
Import Design.

(* ================================================================== *)
(** * Sample inputs *)
(* ================================================================== *)

Module Samples.

(** A chunk as the store receives it; only [text] matters to the store. *)
Definition doc (index : Z) (text : string) : DocumentChunk :=
  createChunk (lit text) index 0 (len (lit text)) [].

(** The text of a two-page document as [extractTextFromPDF] delivers it:
    a first page of 198 letters and a full stop, the paragraph break that
    follows a sentence end at a page boundary, and a second page that
    starts with the item number "1." and goes on for 600 letters. *)
Definition two_pages : str :=
  repeat "a"%char 198 ++ lit "." ++ two_newlines
  ++ lit "1. " ++ repeat "c"%char 600.

(** A one-chunk document that uses the word "constructor". *)
Definition patterns : list DocumentChunk := [doc 0 "The constructor pattern."].

Definition mixed : list DocumentChunk :=
  [doc 0 "Alpha beta."; doc 1 "Constructor gamma."; doc 2 "Delta."].

Definition pets : list DocumentChunk :=
  [doc 0 "The cat sat on the mat."; doc 1 "Dogs bark loudly at night.";
   doc 2 "Cats and dogs are pets."].

End Samples.
Import Samples.

Unset Implicit Arguments.

(* ================================================================== *)
(** * Notions used in the statements *)
(* ================================================================== *)

Module Notions.
Import VectorStore.

(** With respect to a comparison function, [x] may stand before [y]. *)
Definition may_precede (A : Type) (later : A -> A -> bool) (x y : A) : Prop :=
  later x y = false.

(** [x] and [y] compare equal. *)
Definition tie (A : Type) (later : A -> A -> bool) (x y : A) : bool :=
  negb (later x y) && negb (later y x).

(** A term made of word characters only: as a regular expression it is a
    literal, which is the case [count_matches] embeds. *)
Definition literal (term : str) : bool := forallb is_word term.

(** The comparison function of [extractKeySentences] is positive. *)
Definition by_score (a b : scored) : bool := (0 <? score b - score a)%Z.

(** A count as a [Map] holds it: no entry for zero. *)
Definition entry (n : nat) : option nat :=
  match n with 0%nat => None | _ => Some n end.

(** The term lists of the chunks, as [initializeStore] builds them. *)
Definition allTerms_of (documentChunks : list DocumentChunk) : list (list str) :=
  map (fun chunk => extractTerms (text chunk)) documentChunks.

Definition is_proto (t : str) : bool := str_eqb t (lit "__proto__").

(** What [initializeStore] stores for a chunk. *)
Definition process (idfScores : Map R) (chunk : DocumentChunk) : ProcessedChunk :=
  {| chunk := chunk;
     tfidfVector := calculateTFIDF idfScores (extractTerms (text chunk));
     termCount := length (extractTerms (text chunk)) |}.

Local Open Scope R_scope.

(** The weight of a key in a vector as the design document reads it:
    "absent terms are implicitly zero". *)
Definition weight (vector : TFIDFVector) (key : str) : R :=
  match Map_get vector key with Some v => v | None => 0 end.

Definition sigma (f : str -> R) (keys : list str) : R :=
  fold_right (fun key acc => f key + acc) 0 keys.

(** The keys [cosineSimilarity] iterates over. *)
Definition allKeys (vectorA vectorB : TFIDFVector) : list str :=
  new_Set (keys vectorA ++ keys vectorB).

Definition dot (vectorA vectorB : TFIDFVector) : R :=
  sigma (fun key => weight vectorA key * weight vectorB key) (allKeys vectorA vectorB).

(** The square of the norm of [vectorA], summed over the keys of the pair. *)
Definition norm2 (vectorA vectorB : TFIDFVector) : R :=
  sigma (fun key => weight vectorA key * weight vectorA key) (allKeys vectorA vectorB).

(** The square of the norm of [vectorB]. *)
Definition norm2' (vectorA vectorB : TFIDFVector) : R :=
  sigma (fun key => weight vectorB key * weight vectorB key) (allKeys vectorA vectorB).

(** The similarity of two vectors as the design document defines it:
    "dot(q,c) / (||q|| * ||c||) ...; if either norm is zero, similarity is
    defined as 0". *)
Definition cosine (vectorA vectorB : TFIDFVector) : R :=
  let magnitude := sqrt (norm2 vectorA vectorB) * sqrt (norm2' vectorA vectorB) in
  if Req_dec_T magnitude 0 then 0 else dot vectorA vectorB / magnitude.

(** The read [vector[key] || 0] gives the weight: the key is an own
    property, or it is not a property name of [Object.prototype]. *)
Definition reads_weight (vector : TFIDFVector) (key : str) : Prop :=
  get_or_0 vector key = Num (weight vector key).

(** The accumulators have been spoilt by a [NaN]. *)
Definition spoilt (acc : sums) : Prop :=
  dotProduct acc = NaN /\ (magnitudeA acc = NaN \/ magnitudeB acc = NaN).

(** The entry of [similarities] that [search] pushes for a chunk. *)
Definition score_chunk (queryVector : TFIDFVector) (c : ProcessedChunk) : scoredChunk :=
  {| sc_chunk := c;
     sc_similarity := cosineSimilarity queryVector (tfidfVector c) |}.

(** The comparison function of [search] is positive. *)
Definition later_similarity (a b : scoredChunk) : bool := positive (by_similarity a b).

(** The result [search] builds from an entry of [topResults]. *)
Definition to_result (queryTerms : list str) (r : scoredChunk) : SearchResult :=
  {| result_chunk := sc_chunk r;
     similarity := sc_similarity r;
     relevantSentences := extractKeySentences (text (chunk (sc_chunk r))) queryTerms |}.

(** The local [queryVector] of [search]. *)
Definition queryVector (this : VectorStore) (query : str) : TFIDFVector :=
  calculateTFIDF (idfScores this) (extractTerms query).

(** The array [similarities] of [search]. *)
Definition similarities (this : VectorStore) (query : str) : list scoredChunk :=
  map (score_chunk (queryVector this query)) (chunks this).

Definition topK_or_5 (topK : option Z) : Z :=
  match topK with Some k => k | None => 5%Z end.

(** No term is a property name of [Object.prototype]. *)
Definition plain (terms : list str) : Prop :=
  forall t, In t terms -> has Object_prototype t = false.

(** The similarity is a number. *)
Definition numeric (s : scoredChunk) : Prop := exists x, sc_similarity s = Num x.

(** The two weights in the store of [mixed], where every term is in one of
    the three chunks. *)
Definition whole : R := INR 1 / INR 1 * ln (INR 3 / INR 1).
Definition half : R := INR 1 / INR 2 * ln (INR 3 / INR 1).

End Notions.
Import Notions.

(* ================================================================== *)
(** * [textProcessing.ts]: [cleanText] *)
(* ================================================================== *)

Module TextCleaning.

Definition is_cr (c : ascii) : bool := Nat.eqb (nat_of_ascii c) 13.

Definition is_tab (c : ascii) : bool := Nat.eqb (nat_of_ascii c) 9.

(** The class [[ ]]. *)
Definition is_blank (c : ascii) : bool := Nat.eqb (nat_of_ascii c) 32.

Definition LF : ascii := "010"%char.

(** [s.replace(/\r\n/g, '\n')] *)
Fixpoint replace_crlf (s : str) : str :=
  match s with
  | [] => []
  | c :: r =>
      match r with
      | d :: r' =>
          if is_cr c && is_newline d then LF :: replace_crlf r'
          else c :: replace_crlf r
      | [] => [c]
      end
  end.

(** [s.replace(/x/g, y)] for a pattern that matches the single characters
    of a class. *)
Definition replace_char (p : ascii -> bool) (by_ : ascii) (s : str) : str :=
  map (fun c => if p c then by_ else c) s.

(** [s.replace(/[p]{least,}/g, by_)] for [least >= 1]: at a position where
    a run of at least [least] characters of the class starts, the whole run
    (the quantifier is greedy) is replaced; elsewhere the character is
    kept.  [skip] counts the characters of the current match still to be
    passed over. *)
Fixpoint replace_runs (p : ascii -> bool) (least : nat) (by_ : str) (skip : nat)
    (s : str) : str :=
  match s with
  | [] => []
  | c :: r =>
      match skip with
      | S k => replace_runs p least by_ k r
      | O =>
          let n := run_length p s in
          if Nat.leb least n then by_ ++ replace_runs p least by_ (n - 1) r
          else c :: replace_runs p least by_ 0 r
      end
  end.

Definition cleanText (text : str) : str :=
  trim
    (replace_runs is_newline 3 two_newlines 0
       (replace_runs is_blank 2 [" "%char] 0
          (replace_char is_tab " "%char
             (replace_char is_cr LF
                (replace_crlf text))))).

End TextCleaning.
Import TextCleaning.

(* ================================================================== *)
(** * [vectorStore.ts]: [findChunksWithTerms] *)
(* ================================================================== *)

Module Diagnostics.
Import VectorStore.

Definition findChunksWithTerms (this : VectorStore) (terms : list str)
  : list ProcessedChunk :=
  let lowerTerms := map toLowerCase terms in
  filter
    (fun chunk =>
       let chunkText := toLowerCase (text (VectorStore.chunk chunk)) in
       existsb (fun term => includes chunkText term) lowerTerms)
    (chunks this).

End Diagnostics.
Import Diagnostics.

(* ================================================================== *)
(** * [vectorStore.ts]: [getTopTerms] *)
(* ================================================================== *)

Module TopTerms.
Import VectorStore.
Local Open Scope R_scope.

Definition is_digit (c : ascii) : bool := between 48 (nat_of_ascii c) 57.

(** The number a string of digits denotes. *)
Definition number_of (key : str) : N :=
  fold_left (fun n c => (10 * n + N.of_nat (nat_of_ascii c - 48))%N) key 0%N.

(** The property key is an array index: the canonical decimal form of an
    integer below 2^32 - 1. *)
Definition is_index (key : str) : bool :=
  match key with
  | [] => false
  | c :: r =>
      forallb is_digit key
      && (negb (Ascii.eqb c "0"%char) || match r with [] => true | _ => false end)
      && (number_of key <? 4294967295)%N
  end.

(** [Object.entries(vector)]: the own properties, those whose key is an
    array index first, in ascending order of the index, then the others in
    the order of their creation. *)
Definition Object_entries (vector : TFIDFVector) : list (str * R) :=
  sort (fun a b => (number_of (fst b) <? number_of (fst a))%N)
    (filter (fun e => is_index (fst e)) vector)
  ++ filter (fun e => negb (is_index (fst e))) vector.

(** [termScores.get(term) || 0] *)
Definition score_or_0 (termScores : Map R) (term : str) : R :=
  match Map_get termScores term with Some v => v | None => 0 end.

(** The body of the inner loop. *)
Definition accumulate (termScores : Map R) (entry : str * R) : Map R :=
  let '(term, score) := entry in
  let currentScore := score_or_0 termScores term in
  Map_set termScores term (currentScore + score).

(** The map [termScores] after the loops. *)
Definition termScores (this : VectorStore) : Map R :=
  fold_left
    (fun termScores chunk =>
       fold_left accumulate (Object_entries (tfidfVector chunk)) termScores)
    (chunks this) [].

Record termScore := { term : str; score : R }.

(** The comparison function [b.score - a.score] is positive. *)
Definition by_score (a b : termScore) : bool :=
  if Rlt_dec 0 (score b - score a) then true else false.

(** [getTopTerms(limit = 20)] *)
Definition getTopTerms (this : VectorStore) (limit : option Z) : list termScore :=
  let limit := match limit with Some l => l | None => 20%Z end in
  let sortedTerms :=
    slice0
      (sort by_score
         (map (fun e : str * R => let '(term, score) := e in
                                  {| term := term; score := score |})
            (termScores this)))
      limit in
  sortedTerms.

End TopTerms.

(* ================================================================== *)
(** * [ChatInterface.tsx]: the answer to a question *)
(* ================================================================== *)

(** The part of [handleSubmit] that turns the search results into the
    assistant's message, for a component without [llmGenerateResponse]
    and with a store, not busy.  The state updates of the component, the
    message ids, the time stamps and [processingTime] are left out. *)
Module ChatInterface.
Import VectorStore.
Local Open Scope R_scope.

(** [a < b] for a numeric literal [b]; false when [a] is [NaN]. *)
Definition less (a : number) (b : R) : bool :=
  match a with
  | Num x => if Rlt_dec x b then true else false
  | NaN => false
  end.

(** [a > b] for a numeric literal [b]; false when [a] is [NaN]. *)
Definition greater (a : number) (b : R) : bool :=
  match a with
  | Num x => if Rlt_dec b x then true else false
  | NaN => false
  end.

(** [array.join(sep)] *)
Fixpoint join (sep : str) (array : list str) : str :=
  match array with
  | [] => []
  | x :: r => match r with [] => x | _ => x ++ sep ++ join sep r end
  end.

Definition notFound : str :=
  lit "I couldn't find information about that topic in the document. Please try rephrasing your question or ask about something else that might be covered in the PDF.".

Definition notRelevant : str :=
  lit "I found some potentially related content, but it doesn't seem directly relevant to your question. Could you try asking more specifically about topics covered in the document?".

Definition searchError : str :=
  lit "I encountered an error while searching the document. Please try your question again.".

(** The fields [content] and [sources] of the assistant's message;
    [sources] is [undefined] in the [None] case. *)
Record answer := { content : str; sources : option (list SearchResult) }.

Definition respond (searchResults : list SearchResult) : answer :=
  if match searchResults with
     | [] => true
     | first :: _ => less (similarity first) (5 / 100)
     end
  then {| content := notFound; sources := None |}
  else
    let relevantResults :=
      filter (fun result => greater (similarity result) (1 / 10)) searchResults in
    match relevantResults with
    | [] => {| content := notRelevant; sources := None |}
    | topResult :: others =>
        let responseContent :=
          match relevantSentences topResult with
          | _ :: _ => join (lit " ") (relevantSentences topResult)
          | [] => text (chunk (result_chunk topResult))
          end in
        let responseContent :=
          match others with
          | second :: _ =>
              if greater (similarity second) (2 / 10)
              then responseContent
                   ++ two_newlines ++ lit "Additional context:" ++ [LF]
                   ++ text (chunk (result_chunk second))
              else responseContent
          | [] => responseContent
          end in
        {| content := responseContent; sources := Some relevantResults |}
    end.

(** [handleSubmit]: nothing happens for a blank input ([None]); a failed
    search is answered by the error message. *)
Definition handleSubmit (vectorStore : VectorStore) (inputValue : str) : option answer :=
  if negb (truthy (trim inputValue)) then None
  else
    match search vectorStore (trim inputValue) (Some 3%Z) with
    | inr searchResults => Some (respond searchResults)
    | inl _ => Some {| content := searchError; sources := None |}
    end.

End ChatInterface.

(* ================================================================== *)
(** * Notions of the further properties *)
(* ================================================================== *)

Module Coverage.

(** [t] occurs in [s] as a run of consecutive code units. *)
Definition occurs_in (t s : str) : Prop := exists pre post, s = pre ++ t ++ post.

(** No two neighbours in [s] both satisfy [p]. *)
Definition no_two (p : ascii -> bool) (s : str) : Prop :=
  forall pre c d post, s = pre ++ c :: d :: post -> p c && p d = false.

(** [s] neither starts nor ends with white space. *)
Definition trimmed (s : str) : Prop :=
  match s with [] => True | c :: _ => is_space c = false end
  /\ match rev s with [] => True | c :: _ => is_space c = false end.

(** The chunk is the record [createChunk] builds from its own fields. *)
Definition created (pageBreaks : list Z) (c : DocumentChunk) : Prop :=
  c = createChunk (text c) (chunkIndex c) (startOffset c) (endOffset c) pageBreaks.

(** The indices [0, 1, ..., n - 1]. *)
Definition indices (n : nat) : list Z := map Z.of_nat (seq 0 n).

(** The raw size of a list of pieces: each piece and the two characters of
    the shortest separator. *)
Definition raw_size (pieces : list str) : Z :=
  fold_right (fun p acc => (len p + 2 + acc)%Z) 0%Z pieces.

(** The numbering of the chunker is consistent: the next index is the
    number of chunks, the chunks are numbered from 0 in order, and each is
    as [createChunk] built it. *)
Definition numbered (pageBreaks : list Z) (st : chunker) : Prop :=
  next_index st = Z.of_nat (length (chunks st))
  /\ map chunkIndex (chunks st) = indices (length (chunks st))
  /\ Forall (created pageBreaks) (chunks st).

(** Every match of the pattern has at least two characters and lies within
    the text. *)
Definition wide (m : str -> option nat) : Prop :=
  forall s k, m s = Some (S k) -> (1 <= k <= length s - 1)%nat.

(** The chunker has emitted nothing, and its buffer is covered by the
    paragraphs read so far. *)
Definition quiet (processed : list str) (st : chunker) : Prop :=
  chunks st = []
  /\ (currentChunk st = [] \/ (len (currentChunk st) + 2 <= raw_size processed)%Z).

(** The text in which only the first [keep] characters of every run of the
    class are kept; [seen] characters of the class stand before [s]. *)
Fixpoint limit_run (p : ascii -> bool) (keep seen : nat) (s : str) : str :=
  match s with
  | [] => []
  | c :: r =>
      if p c then
        if Nat.ltb seen keep then c :: limit_run p keep (S seen) r
        else limit_run p keep (S seen) r
      else c :: limit_run p keep 0 r
  end.

(** No run of the class reaches beyond [k] characters, [seen] characters of
    the class standing before [s]. *)
Fixpoint runs_ok (p : ascii -> bool) (k seen : nat) (s : str) : bool :=
  match s with
  | [] => true
  | c :: r =>
      if p c then Nat.leb (S seen) k && runs_ok p k (S seen) r
      else runs_ok p k 0 r
  end.

(** The sum over the chunks of the weight of a term. *)
Definition total_weight (chunks : list VectorStore.ProcessedChunk) (term : str) : R :=
  fold_right (fun c acc => (weight (VectorStore.tfidfVector c) term + acc)%R) 0%R chunks.

(** No [n] consecutive characters of [s] are all of the class. *)
Definition no_run (p : ascii -> bool) (n : nat) (s : str) : Prop :=
  forall pre w post, s = pre ++ w ++ post -> length w = n -> forallb p w = false.

(** The span of offsets of the chunk is at least as long as its text, and
    longer than [minSize]. *)
Definition spanned (c : DocumentChunk) : Prop :=
  (len (text c) <= endOffset c - startOffset c)%Z
  /\ (CHUNK_CONFIG.minSize < endOffset c - startOffset c)%Z.

(** The buffer, when it is not empty, ends at least the two characters of a
    paragraph break before the current position. *)
Definition measured (st : chunker) : Prop :=
  currentChunk st = []
  \/ (chunkStartPosition st + len (currentChunk st) + 2 <= currentPosition st)%Z.

(** [s] has a character that is not white space after at most [n]
    characters. *)
Definition inked (n : Z) (s : str) : Prop :=
  exists pre c post, s = pre ++ c :: post /\ is_space c = false /\ (len pre <= n)%Z.

(** A buffer longer than an overlap has a character that is not white
    space within the overlap and the paragraph break after it. *)
Definition anchored (st : chunker) : Prop :=
  (len (currentChunk st) <= CHUNK_CONFIG.overlapSize)%Z
  \/ inked (CHUNK_CONFIG.overlapSize + 2) (currentChunk st).

(** What holds of every chunk emitted. *)
Definition sound (c : DocumentChunk) : Prop :=
  trimmed (text c) /\ text c <> [] /\ spanned c.

(** The chunk has the term list [terms]. *)
Definition has_terms (terms : list str) (d : DocumentChunk) : bool :=
  if list_eq_dec str_dec (extractTerms (text d)) terms then true else false.

(** The three notions hold of the state of the chunker. *)
Definition kept (st : chunker) : Prop :=
  measured st /\ anchored st /\ Forall sound (chunks st).

End Coverage.
Import Coverage.

(* ================================================================== *)
(** * Facts about the array primitives *)
(* ================================================================== *)

Section SortFacts.
Variable A : Type.
Variable later : A -> A -> bool.

Lemma insert_perm (x : A) (l : list A) : Permutation (insert later x l) (x :: l).
Proof.
  induction l as [|y r IH]; simpl.
  - apply Permutation_refl.
  - destruct (later x y).
    + eapply perm_trans; [apply perm_skip, IH | apply perm_swap].
    + apply Permutation_refl.
Qed.

Lemma sort_perm (l : list A) : Permutation (sort later l) l.
Proof.
  induction l as [|x r IH]; simpl.
  - constructor.
  - eapply perm_trans; [apply insert_perm | apply perm_skip, IH].
Qed.

Lemma sort_length (l : list A) : length (sort later l) = length l.
Proof. apply Permutation_length, sort_perm. Qed.

(** The comparison function has to be a consistent order only on the
    elements that are sorted, those that satisfy [P]. *)
Variable P : A -> Prop.
Hypothesis later_asym :
  forall x y, P x -> P y -> later x y = true -> later y x = false.
Hypothesis not_later_trans :
  forall x y z, P x -> P y -> P z ->
  later x y = false -> later y z = false -> later x z = false.

Lemma insert_sorted (x : A) (l : list A) :
  P x -> Forall P l ->
  StronglySorted (may_precede A later) l ->
  StronglySorted (may_precede A later) (insert later x l).
Proof.
  intros Px Pl Hs. induction Hs as [|y r Hr IH Hy]; simpl.
  - repeat constructor.
  - inversion Pl as [|? ? Py Pr]; subst.
    destruct (later x y) eqn:E.
    + constructor; [exact (IH Pr)|].
      eapply Permutation_Forall; [apply Permutation_sym, insert_perm|].
      constructor; [apply later_asym; assumption | exact Hy].
    + constructor; [constructor; assumption|].
      constructor; [exact E|].
      rewrite Forall_forall in *. intros z Hz.
      apply not_later_trans with (y := y);
        [exact Px | exact Py | apply Pr, Hz | exact E | apply Hy, Hz].
Qed.

Lemma sort_Forall (l : list A) : Forall P l -> Forall P (sort later l).
Proof. apply Permutation_Forall, Permutation_sym, sort_perm. Qed.

Lemma sort_sorted (l : list A) :
  Forall P l -> StronglySorted (may_precede A later) (sort later l).
Proof.
  induction 1 as [|x r Px Pr IH]; simpl; [constructor|].
  apply insert_sorted; [exact Px | apply sort_Forall, Pr | exact IH].
Qed.

Lemma tie_not_later (z x y : A) :
  P z -> P x -> P y ->
  (tie A later) z x = true -> (tie A later) z y = true -> later x y = false.
Proof.
  unfold tie. rewrite !andb_true_iff, !negb_true_iff.
  intros Pz Px Py [Hzx Hxz] [Hzy Hyz].
  apply not_later_trans with (y := z); assumption.
Qed.

Lemma insert_stable (z x : A) (l : list A) :
  P z -> P x -> Forall P l ->
  filter ((tie A later) z) (insert later x l) = filter ((tie A later) z) (x :: l).
Proof.
  intros Pz Px. induction 1 as [|y r Py Pr IH]; [reflexivity|].
  simpl insert. destruct (later x y) eqn:E; [|reflexivity].
  cbn [filter] in *. rewrite IH.
  destruct ((tie A later) z y) eqn:Ey, ((tie A later) z x) eqn:Ex; try reflexivity.
  rewrite (tie_not_later z x y Pz Px Py Ex Ey) in E. discriminate.
Qed.

(** Stability: the elements that compare equal to any given [z] keep their
    relative order. *)
Lemma sort_stable (z : A) (l : list A) :
  P z -> Forall P l ->
  filter ((tie A later) z) (sort later l) = filter ((tie A later) z) l.
Proof.
  intros Pz. induction 1 as [|x r Px Pr IH]; [reflexivity|].
  simpl sort. rewrite insert_stable by (auto using sort_Forall).
  cbn [filter]. now rewrite IH.
Qed.
End SortFacts.

Lemma slice0_length (A : Type) (l : list A) (k : Z) :
  (0 <= k)%Z -> length (slice0 l k) = Nat.min (Z.to_nat k) (length l).
Proof.
  intros Hk. unfold slice0.
  destruct (Z.ltb_spec k 0); [lia|].
  rewrite length_firstn. lia.
Qed.

Lemma firstn_In (A : Type) (n : nat) (l : list A) (x : A) :
  In x (firstn n l) -> In x l.
Proof.
  intros H. rewrite <- (firstn_skipn n l). apply in_or_app. now left.
Qed.

Lemma slice0_In (A : Type) (l : list A) (k : Z) (x : A) :
  In x (slice0 l k) -> In x l.
Proof. unfold slice0. apply firstn_In. Qed.

Lemma firstn_StronglySorted (A : Type) (R : A -> A -> Prop) (n : nat) (l : list A) :
  StronglySorted R l -> StronglySorted R (firstn n l).
Proof.
  intros H. revert n. induction H as [|x l Hl IH Hx]; intros [|n]; simpl;
    try constructor.
  - apply IH.
  - rewrite Forall_forall in *. intros y Hy. apply Hx. eapply firstn_In, Hy.
Qed.

Lemma slice0_StronglySorted (A : Type) (R : A -> A -> Prop) (l : list A) (k : Z) :
  StronglySorted R l -> StronglySorted R (slice0 l k).
Proof. unfold slice0. apply firstn_StronglySorted. Qed.

Lemma StronglySorted_weaken (A : Type) (R R' : A -> A -> Prop) (l : list A) :
  StronglySorted R l ->
  (forall x y, In x l -> In y l -> R x y -> R' x y) ->
  StronglySorted R' l.
Proof.
  induction 1 as [|x l Hl IH Hx]; intros HR; constructor.
  - apply IH. intros a b Ha Hb. apply HR; now right.
  - rewrite Forall_forall in *. intros y Hy.
    apply HR; [now left | now right | auto].
Qed.

Lemma map_StronglySorted (A B : Type) (f : A -> B) (R : B -> B -> Prop) (l : list A) :
  StronglySorted (fun a b => R (f a) (f b)) l -> StronglySorted R (map f l).
Proof.
  induction 1 as [|x l Hl IH Hx]; simpl; constructor; auto.
  rewrite Forall_forall in *. intros y Hy.
  apply in_map_iff in Hy. destruct Hy as [z [<- Hz]]. auto.
Qed.

(* ================================================================== *)
(** * Key-sentence extraction *)
(* ================================================================== *)

Section KeySentences.
Local Open Scope Z_scope.

Lemma by_score_asym a b : by_score a b = true -> by_score b a = false.
Proof. unfold by_score. rewrite Z.ltb_lt, Z.ltb_ge. lia. Qed.

Lemma by_score_trans a b c :
  by_score a b = false -> by_score b c = false -> by_score a c = false.
Proof. unfold by_score. rewrite !Z.ltb_ge. lia. Qed.

Lemma scoredSentences_score text queryTerms x :
  In x (scoredSentences text queryTerms) ->
  score x = sentence_score (map toLowerCase queryTerms) (sentence x) /\ 0 < score x.
Proof.
  unfold scoredSentences. rewrite in_flat_map. intros [s [_ Hx]].
  destruct (Z.ltb_spec 0 (sentence_score (map toLowerCase queryTerms) s)) as [Hpos|];
    [|contradiction].
  destruct Hx as [<-|[]]. simpl. split; [reflexivity | exact Hpos].
Qed.

Lemma fold_score (f : str -> Z) (l : list str) (a : Z) :
  fold_left (fun score term => score + f term) l a = a + sum (map f l).
Proof.
  revert a. induction l as [|t l IH]; intros a; simpl; [lia|].
  rewrite IH. lia.
Qed.

(** What the code computes as the score of a sentence. *)
Lemma sentence_score_eq (q : list str) (s : str) :
  sentence_score q s =
  sum (map (fun term => occurrenceCountInSentence term s * len term) q)
  + bonus (queryTermEntriesFound q s).
Proof.
  unfold sentence_score, bonus, queryTermEntriesFound, foundIn.
  rewrite (fold_score (fun term =>
    Z.of_nat (count_matches term 0 (toLowerCase s)) * len term)).
  unfold occurrenceCountInSentence.
  destruct (1 <? _); lia.
Qed.

Lemma NoDup_filter (A : Type) (f : A -> bool) (l : list A) :
  NoDup l -> NoDup (filter f l).
Proof.
  induction 1 as [|x l Hx Hl IH]; simpl; [constructor|].
  destruct (f x); [constructor|]; auto.
  rewrite filter_In. tauto.
Qed.

Lemma entries_distinct (q : list str) (s : str) :
  NoDup q -> queryTermEntriesFound q s = distinctQueryTermsFound q s.
Proof.
  intros H. unfold queryTermEntriesFound, distinctQueryTermsFound.
  rewrite nodup_fixed_point; [reflexivity|]. now apply NoDup_filter.
Qed.
End KeySentences.

(** What [extractKeySentences] does for query terms made of word
    characters: it returns at most 3 sentences, each with a score above 0,
    in descending order of the score the code computes.  That score has
    the bonus for the number of entries of the list found in the sentence;
    for a list without repeats, which is what [search] passes, it is the
    score of the design document. *)
Lemma extractKeySentences_scores (text : str) (queryTerms : list str) :
  Forall (fun term => literal term = true) queryTerms ->
  let q := map toLowerCase queryTerms in
  let result := extractKeySentences text queryTerms in
  (length result <= 3)%nat
  /\ Forall (fun s => (0 < sentence_score q s)%Z) result
  /\ descending (map (sentence_score q) result)
  /\ (forall s, sentence_score q s =
        (sum (map (fun term => occurrenceCountInSentence term s * len term) q)
         + bonus (queryTermEntriesFound q s))%Z)
  /\ (NoDup q -> forall s, sentence_score q s = keySentenceScore q s).
Proof.
  intros _ q result. subst result. unfold extractKeySentences.
  fold by_score.
  set (sorted := sort by_score (scoredSentences text queryTerms)).
  assert (Hin : forall x, In x (slice0 sorted 3) ->
            score x = sentence_score q (sentence x) /\ (0 < score x)%Z).
  { intros x Hx. apply (scoredSentences_score text queryTerms).
    eapply Permutation_in; [apply sort_perm|]. eapply slice0_In, Hx. }
  repeat split.
  - rewrite length_map, slice0_length by lia. lia.
  - rewrite Forall_forall. intros s Hs.
    apply in_map_iff in Hs. destruct Hs as [x [<- Hx]].
    destruct (Hin x Hx) as [<- Hpos]. exact Hpos.
  - rewrite map_map. apply map_StronglySorted.
    apply StronglySorted_weaken with (R := may_precede scored by_score).
    + apply slice0_StronglySorted.
      apply sort_sorted with (P := fun _ => True).
      * intros a b _ _. apply by_score_asym.
      * intros a b c _ _ _. apply by_score_trans.
      * apply Forall_forall. trivial.
    + intros x y Hx Hy Hxy.
      destruct (Hin x Hx) as [<- _]. destruct (Hin y Hy) as [<- _].
      unfold may_precede, by_score in Hxy. apply Z.ltb_ge in Hxy. lia.
  - apply sentence_score_eq.
  - intros Hq s. rewrite sentence_score_eq. unfold keySentenceScore.
    now rewrite entries_distinct.
Qed.

Lemma extractKeySentences_scores_witness :
  NoDup (map toLowerCase [lit "Paris"; lit "population"])
  /\ sentence_score (map toLowerCase [lit "Paris"; lit "population"])
       (lit "Paris has a population of over two million")
     = keySentenceScore (map toLowerCase [lit "Paris"; lit "population"])
         (lit "Paris has a population of over two million").
Proof.
  assert (H : NoDup (map toLowerCase [lit "Paris"; lit "population"]))
    by (repeat constructor; simpl; intuition discriminate).
  split; [exact H|].
  apply (extractKeySentences_scores
           (lit "Paris has a population of over two million. It is in France.")
           [lit "Paris"; lit "population"]).
  - repeat constructor.
  - exact H.
Defined.


(* ================================================================== *)
(** * Chunking *)
(* ================================================================== *)

(** C2 (the code departs from it), at an input.  For the text [two_pages]
    the buffer holds both paragraphs (804 characters) when the target size
    is reached; the break point is 201, which is past the two line feeds
    that join the paragraphs; the size test passes on 201, the chunk is
    trimmed afterwards, and [chunkText] emits a first chunk of 199
    characters, below [minSize]. *)
Theorem chunkText_emits_short_chunk :
  len two_pages = 804%Z
  /\ findGoodBreakPoint two_pages = 201%Z
  /\ map (fun c => len (text c)) (chunkText two_pages []) = [199; 703]%Z
  /\ (199 < CHUNK_CONFIG.minSize)%Z.
Proof. repeat split; vm_compute; reflexivity. Qed.

(* ================================================================== *)
(** * The terms [search] passes to [extractKeySentences] *)
(* ================================================================== *)

Section Tokens.

Lemma trimStart_In (s : str) (c : ascii) : In c (trimStart s) -> In c s.
Proof.
  induction s as [|x s IH]; simpl; [tauto|].
  destruct (is_space x); [intros H; right; auto | tauto].
Qed.

Lemma trim_In (s : str) (c : ascii) : In c (trim s) -> In c s.
Proof.
  unfold trim, trimEnd. intros H.
  apply in_rev, trimStart_In, in_rev in H. now apply trimStart_In.
Qed.

Lemma collapse_spaces_In (s : str) (in_run : bool) (c : ascii) :
  In c (collapse_spaces in_run s) -> c = " "%char \/ (In c s /\ is_space c = false).
Proof.
  revert in_run. induction s as [|x s IH]; intros in_run; simpl; [tauto|].
  destruct (is_space x) eqn:E.
  - destruct in_run; simpl; intros H.
    + destruct (IH _ H) as [|[? ?]]; auto.
    + destruct H as [<-|H]; [now left|]. destruct (IH _ H) as [|[? ?]]; auto.
  - simpl. intros [<-|H]; [now right; split; [left|]|].
    destruct (IH _ H) as [|[? ?]]; auto.
Qed.

Lemma split_spaces_pieces (P : ascii -> Prop) (s : str) :
  (forall c, In c s -> is_space c = false -> P c) ->
  forall (skip : nat) (cur piece : str),
  (forall c, In c cur -> P c) ->
  In piece (split_by match_spaces skip cur s) ->
  forall c, In c piece -> P c.
Proof.
  induction s as [|x s IH]; intros Hs skip cur piece Hcur Hin c Hc.
  - simpl in Hin. destruct Hin as [<-|[]]. apply Hcur. now apply in_rev.
  - assert (Hs' : forall c, In c s -> is_space c = false -> P c)
      by (intros; apply Hs; [now right | assumption]).
    simpl in Hin. destruct skip as [|k].
    + unfold match_spaces in Hin. simpl in Hin.
      destruct (is_space x) eqn:E; simpl in Hin.
      * destruct Hin as [<-|Hin].
        -- apply Hcur. now apply in_rev.
        -- eapply (IH Hs' _ [] piece); [intros ? [] | exact Hin | exact Hc].
      * eapply (IH Hs' _ (x :: cur) piece); [|exact Hin | exact Hc].
        intros c' [<-|H]; [apply Hs; [now left | exact E] | now apply Hcur].
    + eapply (IH Hs' _ cur piece); eassumption.
Qed.

Lemma filter_indexed_incl (f : str -> Z -> bool) (l : list str) (i : Z) (y : str) :
  In y (filter_indexed f i l) -> In y l.
Proof.
  revert i. induction l as [|x l IH]; intros i; simpl; [tauto|].
  destruct (f x i); simpl; intros H; [destruct H; [now left|]|]; right; eauto.
Qed.

(** Every term of [extractTerms] is made of word characters: the regular
    expression [search] builds from it in [extractKeySentences] is a
    literal, and its construction does not throw. *)
Lemma extractTerms_literal (text : str) :
  Forall (fun term => literal term = true) (extractTerms text).
Proof.
  apply Forall_forall. intros term Hterm.
  unfold extractTerms in Hterm. apply filter_indexed_incl in Hterm.
  unfold survivingTokens in Hterm. apply filter_In in Hterm.
  destruct Hterm as [Hterm _].
  unfold literal. apply forallb_forall.
  apply (split_spaces_pieces (fun c => is_word c = true) (preprocessText text))
    with (skip := 0%nat) (cur := []) (piece := term);
    [|intros ? []|exact Hterm].
  intros c Hc Hns. unfold preprocessText in Hc.
  apply trim_In, collapse_spaces_In in Hc.
  destruct Hc as [->|[Hc _]]; [discriminate|].
  apply in_map_iff in Hc. destruct Hc as [c0 [<- _]].
  destruct (is_word c0) eqn:Ew; simpl in *; [exact Ew|].
  destruct (is_space c0) eqn:Es; simpl in *; [congruence | discriminate].
Qed.
End Tokens.

(* ================================================================== *)
(** * Readiness, errors and result counts *)
(* ================================================================== *)

Section Search.
Import VectorStore.

Lemma search_initialized (this : VectorStore) (query : str) (topK : option Z) :
  isInitialized this = true ->
  exists results, search this query topK = inr results
    /\ length results =
       length (slice0 (chunks this) (match topK with Some k => k | None => 5%Z end)).
Proof.
  intros H. unfold search. rewrite H. simpl negb. cbv iota.
  eexists. split; [reflexivity|].
  rewrite length_map. unfold slice0.
  rewrite !length_firstn, sort_length, length_map. reflexivity.
Qed.

Lemma search_uninitialized (this : VectorStore) (query : str) (topK : option Z) :
  isInitialized this = false ->
  search this query topK = inl (Error "Vector store not initialized").
Proof. intros H. unfold search. now rewrite H. Qed.
End Search.

(** C7.  On an initialized store with [totalChunks] chunks, [search(q, k)]
    with [k >= 0] returns exactly [min(k, totalChunks)] results; without
    [k] it is [search(q, 5)]. *)
Theorem search_returns_min_topK
    (this : VectorStore.VectorStore) (query : str) (k : Z) :
  VectorStore.isInitialized this = true ->
  (0 <= k)%Z ->
  (exists results,
      VectorStore.search this query (Some k) = inr results
      /\ Z.of_nat (length results)
         = Z.min k (Z.of_nat (length (VectorStore.chunks this))))
  /\ VectorStore.search this query None = VectorStore.search this query (Some 5%Z).
Proof.
  intros Hinit Hk. split; [|reflexivity].
  destruct (search_initialized this query (Some k) Hinit) as [results [Hs Hl]].
  exists results. split; [exact Hs|].
  rewrite Hl, slice0_length by exact Hk. lia.
Qed.

Lemma search_returns_min_topK_witness :
  (exists results,
      VectorStore.search (VectorStore.constructor pets) (lit "cat") (Some 2%Z)
        = inr results
      /\ Z.of_nat (length results)
         = Z.min 2 (Z.of_nat (length (VectorStore.chunks (VectorStore.constructor pets)))))
  /\ VectorStore.search (VectorStore.constructor pets) (lit "cat") None
     = VectorStore.search (VectorStore.constructor pets) (lit "cat") (Some 5%Z).
Proof.
  apply (search_returns_min_topK (VectorStore.constructor pets) (lit "cat") 2).
  - reflexivity.
  - lia.
Defined.

(** C10.  For every chunk list, the empty one included, the constructor
    leaves [isInitialized] true, and [search] on the constructed store does
    not throw: it returns its results.  (The "not initialized" branch is not
    taken, and the one call in the body of [search] that can throw, the
    construction of a regular expression from a query term, is given terms
    made of word characters.) *)
Theorem constructor_initializes (documentChunks : list DocumentChunk) :
  VectorStore.isInitialized (VectorStore.constructor documentChunks) = true
  /\ forall query topK,
       Forall (fun term => literal term = true) (extractTerms query)
       /\ exists results,
            VectorStore.search (VectorStore.constructor documentChunks) query topK
            = inr results.
Proof.
  split; [reflexivity|].
  intros query topK. split; [apply extractTerms_literal|].
  destruct (search_initialized (VectorStore.constructor documentChunks) query topK
              eq_refl) as [results [H _]].
  now exists results.
Qed.

(** C3 (as stated) fails for [getStats]: on the store as the field
    initialisers leave it, before [initializeStore] has run, [getStats]
    returns its record, with [isInitialized] false in it. *)
Lemma getStats_before_initialization :
  VectorStore.isInitialized VectorStore.fields_init = false
  /\ VectorStore.getStats VectorStore.fields_init
     = {| VectorStore.chunkCount := 0;
          VectorStore.vocabularySize := 0;
          VectorStore.averageChunkLength := 0;
          VectorStore.stats_isInitialized := false |}.
Proof. split; reflexivity. Qed.

(** C3 (amended).  [search] fails if and only if the store is not
    initialized, and the failure is then the error "Vector store not
    initialized"; [getStats] never fails: in every state it returns its
    record, which reports the readiness flag and the chunk and vocabulary
    counts. *)
Theorem search_fails_iff_not_initialized
    (this : VectorStore.VectorStore) (query : str) (topK : option Z) :
  ((exists e, VectorStore.search this query topK = inl e)
     <-> VectorStore.isInitialized this = false)
  /\ (forall e, VectorStore.search this query topK = inl e ->
        e = VectorStore.Error "Vector store not initialized")
  /\ VectorStore.stats_isInitialized (VectorStore.getStats this)
     = VectorStore.isInitialized this
  /\ VectorStore.chunkCount (VectorStore.getStats this)
     = Z.of_nat (length (VectorStore.chunks this))
  /\ VectorStore.vocabularySize (VectorStore.getStats this)
     = Z.of_nat (length (VectorStore.vocabulary this)).
Proof.
  split; [|split; [|repeat split]].
  - split.
    + intros [e He]. destruct (VectorStore.isInitialized this) eqn:Hinit; [|reflexivity].
      destruct (search_initialized this query topK Hinit) as [results [Hs _]].
      rewrite Hs in He. discriminate.
    + intros Hinit. rewrite (search_uninitialized this query topK Hinit).
      eexists; reflexivity.
  - intros e He. destruct (VectorStore.isInitialized this) eqn:Hinit.
    + destruct (search_initialized this query topK Hinit) as [results [Hs _]].
      rewrite Hs in He. discriminate.
    + rewrite (search_uninitialized this query topK Hinit) in He. now inversion He.
Qed.

Lemma search_fails_iff_not_initialized_witness :
  exists e, VectorStore.search VectorStore.fields_init (lit "cat") None = inl e.
Proof.
  apply (search_fails_iff_not_initialized VectorStore.fields_init (lit "cat") None).
  reflexivity.
Defined.

(* ================================================================== *)
(** * Facts about [Map] and [Set] *)
(* ================================================================== *)

Lemma str_eqb_eq (a b : str) : str_eqb a b = true <-> a = b.
Proof.
  revert b. induction a as [|x a IH]; intros [|y b]; simpl; try easy.
  rewrite andb_true_iff, Ascii.eqb_eq, IH. split.
  - intros [-> ->]. reflexivity.
  - intros H. inversion H. auto.
Qed.

Lemma str_eqb_refl (a : str) : str_eqb a a = true.
Proof. now apply str_eqb_eq. Qed.

Lemma str_eqb_neq (a b : str) : str_eqb a b = false <-> a <> b.
Proof.
  rewrite <- str_eqb_eq. destruct (str_eqb a b); split; congruence.
Qed.

Lemma str_eqb_sym (a b : str) : str_eqb a b = str_eqb b a.
Proof.
  destruct (str_eqb b a) eqn:E.
  - apply str_eqb_eq. symmetry. now apply str_eqb_eq.
  - apply str_eqb_neq. intros ->. now rewrite str_eqb_refl in E.
Qed.

Lemma has_In (set : list str) (x : str) : has set x = true <-> In x set.
Proof.
  unfold has. rewrite existsb_exists. split.
  - intros [y [Hy E]]. apply str_eqb_eq in E. now subst.
  - intros H. exists x. split; [exact H | apply str_eqb_refl].
Qed.

Lemma has_not_In (set : list str) (x : str) : has set x = false <-> ~ In x set.
Proof. rewrite <- has_In. destruct (has set x); split; congruence. Qed.

Section MapFacts.
Variable V : Type.
Implicit Types (m : Map V) (k : str) (v : V).

Lemma Map_get_set m k v k' :
  Map_get (Map_set m k v) k' = if str_eqb k k' then Some v else Map_get m k'.
Proof.
  induction m as [|[k0 v0] m IH]; simpl.
  - reflexivity.
  - destruct (str_eqb k0 k) eqn:E0; simpl.
    + apply str_eqb_eq in E0. subst k0. now destruct (str_eqb k k').
    + rewrite IH. destruct (str_eqb k0 k') eqn:E1; [|reflexivity].
      apply str_eqb_eq in E1. subst k0. now rewrite str_eqb_sym, E0.
Qed.

Lemma Map_get_None m k : Map_get m k = None <-> ~ In k (keys m).
Proof.
  induction m as [|[k0 v0] m IH]; simpl.
  - tauto.
  - destruct (str_eqb k0 k) eqn:E.
    + apply str_eqb_eq in E. split; [discriminate | tauto].
    + apply str_eqb_neq in E. rewrite IH. tauto.
Qed.

Lemma keys_Map_set m k v :
  keys (Map_set m k v) = if has (keys m) k then keys m else keys m ++ [k].
Proof.
  induction m as [|[k0 v0] m IH]; simpl; [reflexivity|].
  unfold has in *. simpl. rewrite (str_eqb_sym k k0).
  destruct (str_eqb k0 k); simpl; [reflexivity|].
  rewrite IH. now destruct (existsb (str_eqb k) (keys m)).
Qed.

Lemma NoDup_snoc (A : Type) (l : list A) (x : A) :
  NoDup l -> ~ In x l -> NoDup (l ++ [x]).
Proof.
  intros Hl Hx. apply NoDup_rev in Hl.
  rewrite <- (rev_involutive (l ++ [x])). apply NoDup_rev.
  rewrite rev_app_distr. simpl. constructor; [|exact Hl].
  now rewrite <- in_rev.
Qed.

Lemma NoDup_keys_Map_set m k v : NoDup (keys m) -> NoDup (keys (Map_set m k v)).
Proof.
  intros H. rewrite keys_Map_set. destruct (has (keys m) k) eqn:E; [exact H|].
  apply NoDup_snoc; [exact H | now apply has_not_In].
Qed.
End MapFacts.

Lemma Set_add_NoDup (set : list str) (x : str) : NoDup set -> NoDup (Set_add set x).
Proof.
  intros H. unfold Set_add. destruct (has set x) eqn:E; [exact H|].
  apply NoDup_snoc; [exact H | now apply has_not_In].
Qed.

Lemma Set_add_In (set : list str) (x y : str) :
  In y (Set_add set x) <-> In y set \/ y = x.
Proof.
  unfold Set_add. destruct (has set x) eqn:E.
  - apply has_In in E. split; [tauto | intros [H | ->]; assumption].
  - rewrite in_app_iff. simpl. intuition.
Qed.

Lemma fold_Set_add (array set : list str) :
  NoDup set ->
  NoDup (fold_left Set_add array set)
  /\ forall y, In y (fold_left Set_add array set) <-> In y set \/ In y array.
Proof.
  revert set. induction array as [|x array IH]; intros set H; simpl.
  - split; [exact H | tauto].
  - destruct (IH (Set_add set x) (Set_add_NoDup set x H)) as [Hn Hi].
    split; [exact Hn|]. intros y. rewrite Hi, Set_add_In. intuition.
Qed.

Lemma new_Set_NoDup (array : list str) : NoDup (new_Set array).
Proof. apply fold_Set_add. constructor. Qed.

Lemma new_Set_In (array : list str) (y : str) : In y (new_Set array) <-> In y array.
Proof.
  unfold new_Set. destruct (fold_Set_add array [] (NoDup_nil _)) as [_ H].
  rewrite H. simpl. tauto.
Qed.

(* ================================================================== *)
(** * The IDF table *)
(* ================================================================== *)

Section IDF.
Import VectorStore.

Lemma count_or_0_entry (counts : Map nat) (t : str) (n : nat) :
  Map_get counts t = entry n -> count_or_0 counts t = n.
Proof. unfold count_or_0. intros ->. now destruct n. Qed.

Lemma increment_all (s : list str) :
  NoDup s ->
  forall (counts : Map nat) (g : str -> nat),
  (forall t, Map_get counts t = entry (g t)) ->
  forall t, Map_get (fold_left increment s counts) t
            = entry (g t + if has s t then 1 else 0)%nat.
Proof.
  induction 1 as [|x s Hx Hs IH]; intros counts g Hg t.
  - simpl. now rewrite Hg, Nat.add_0_r.
  - simpl fold_left.
    rewrite (IH (increment counts x)
               (fun t => (g t + if str_eqb x t then 1 else 0)%nat)).
    + unfold has. simpl existsb. fold (has s t).
      rewrite (str_eqb_sym t x).
      destruct (str_eqb x t) eqn:E; simpl orb.
      * apply str_eqb_eq in E. subst t.
        apply has_not_In in Hx. rewrite Hx. f_equal. lia.
      * f_equal. lia.
    + intros u. unfold increment. rewrite Map_get_set.
      rewrite (count_or_0_entry counts x (g x) (Hg x)).
      destruct (str_eqb x u) eqn:E.
      * apply str_eqb_eq in E. subst u. now rewrite Nat.add_1_r.
      * now rewrite Hg, Nat.add_0_r.
Qed.

Lemma has_new_Set (terms : list str) (t : str) : has (new_Set terms) t = has terms t.
Proof.
  destruct (has terms t) eqn:E.
  - apply has_In, new_Set_In, has_In, E.
  - apply has_not_In. rewrite new_Set_In. now apply has_not_In.
Qed.

Lemma count_documents (allTerms : list (list str)) :
  forall (counts : Map nat) (g : str -> nat),
  (forall t, Map_get counts t = entry (g t)) ->
  forall t,
    Map_get
      (fold_left (fun counts terms => fold_left increment (new_Set terms) counts)
         allTerms counts) t
    = entry (g t + documentFrequency allTerms t)%nat.
Proof.
  induction allTerms as [|terms allTerms IH]; intros counts g Hg t.
  - simpl. now rewrite Hg, Nat.add_0_r.
  - simpl fold_left.
    rewrite (IH _ (fun t => (g t + if has (new_Set terms) t then 1 else 0)%nat)).
    + f_equal. unfold documentFrequency. simpl filter.
      rewrite has_new_Set. destruct (has terms t); simpl; lia.
    + apply increment_all; [apply new_Set_NoDup | exact Hg].
Qed.

(** [termDocumentCounts] holds, for each term, the number of chunks that
    contain it, and no entry for a term that no chunk contains. *)
Lemma termDocumentCounts_get (allTerms : list (list str)) (t : str) :
  Map_get (termDocumentCounts allTerms) t = entry (documentFrequency allTerms t).
Proof.
  exact (count_documents allTerms [] (fun _ => 0%nat) (fun _ => eq_refl) t).
Qed.

Lemma fold_increment_NoDup (s : list str) (counts : Map nat) :
  NoDup (keys counts) -> NoDup (keys (fold_left increment s counts)).
Proof.
  revert counts. induction s as [|x s IH]; intros counts H; simpl; [exact H|].
  apply IH. now apply NoDup_keys_Map_set.
Qed.

Lemma termDocumentCounts_NoDup (allTerms : list (list str)) :
  NoDup (keys (termDocumentCounts allTerms)).
Proof.
  unfold termDocumentCounts.
  assert (H : NoDup (keys (@nil (str * nat)))) by constructor.
  revert H. generalize (@nil (str * nat)).
  induction allTerms as [|terms allTerms IH]; intros counts H; simpl; [exact H|].
  apply IH. now apply fold_increment_NoDup.
Qed.

Lemma set_all (F : nat -> R) (entries : Map nat) :
  NoDup (keys entries) ->
  forall (m0 : Map R) (t : str),
  Map_get
    (fold_left (fun m (e : str * nat) => let '(term, c) := e in Map_set m term (F c))
       entries m0) t
  = match Map_get entries t with
    | Some c => Some (F c)
    | None => Map_get m0 t
    end.
Proof.
  induction entries as [|[k c] entries IH]; intros Hnd m0 t; [reflexivity|].
  simpl in Hnd. inversion Hnd as [|? ? Hk Hrest]; subst.
  simpl fold_left. rewrite (IH Hrest). simpl Map_get.
  rewrite Map_get_set.
  destruct (str_eqb k t) eqn:E; [|reflexivity].
  apply str_eqb_eq in E. subst t.
  apply Map_get_None in Hk. now rewrite Hk.
Qed.

(** The IDF table: [ln(N / df)] for a term in [df >= 1] of the [N] chunks,
    no entry for any other term. *)
Lemma calculateIDF_get (allTerms : list (list str)) (t : str) :
  Map_get (calculateIDF [] allTerms) t
  = match documentFrequency allTerms t with
    | 0%nat => None
    | df => Some (ln (INR (length allTerms) / INR df))
    end.
Proof.
  unfold calculateIDF.
  rewrite (set_all (fun c => ln (INR (length allTerms) / INR c)))
    by apply termDocumentCounts_NoDup.
  rewrite termDocumentCounts_get.
  now destruct (documentFrequency allTerms t).
Qed.

Lemma documentFrequency_le (allTerms : list (list str)) (t : str) :
  (documentFrequency allTerms t <= length allTerms)%nat.
Proof. apply filter_length_le. Qed.
End IDF.

Lemma constructor_idfScores (documentChunks : list DocumentChunk) :
  VectorStore.idfScores (VectorStore.constructor documentChunks)
  = VectorStore.calculateIDF [] (allTerms_of documentChunks).
Proof. reflexivity. Qed.

(** C8 (as stated) fails for [N = 1]: in a store of one chunk a term of that
    chunk is in exactly 1 of the N chunks and in all N chunks, and its IDF,
    0, is not strictly higher than the IDF, 0, of a term in all chunks. *)
Lemma idf_single_chunk :
  let documentChunks := [doc 0 "Cats purr."] in
  let N := length documentChunks in
  let df := documentFrequency (allTerms_of documentChunks) in
  let idf := VectorStore.idfScores (VectorStore.constructor documentChunks) in
  N = 1%nat
  /\ df (lit "cats") = 1%nat
  /\ df (lit "purr") = N
  /\ Map_get idf (lit "cats") = Some 0%R
  /\ Map_get idf (lit "purr") = Some 0%R
  /\ ~ (VectorStore.idf_or_0 idf (lit "purr") < VectorStore.idf_or_0 idf (lit "cats"))%R.
Proof.
  cbv zeta. rewrite constructor_idfScores.
  assert (Hidf : forall t,
            documentFrequency (allTerms_of [doc 0 "Cats purr."]) t = 1%nat ->
            Map_get (VectorStore.calculateIDF [] (allTerms_of [doc 0 "Cats purr."])) t
            = Some 0%R).
  { intros t Ht. rewrite calculateIDF_get, Ht. simpl.
    f_equal. rewrite <- ln_1. f_equal. field. }
  assert (Hc : documentFrequency (allTerms_of [doc 0 "Cats purr."]) (lit "cats") = 1%nat)
    by (vm_compute; reflexivity).
  assert (Hp : documentFrequency (allTerms_of [doc 0 "Cats purr."]) (lit "purr") = 1%nat)
    by (vm_compute; reflexivity).
  repeat split; try assumption; try (apply Hidf; assumption).
  unfold VectorStore.idf_or_0. rewrite (Hidf _ Hc), (Hidf _ Hp). apply Rlt_irrefl.
Qed.

(** C8 (amended).  In the IDF table over [N] chunks, a term contained in all
    [N] chunks has IDF exactly 0; when [N >= 2], a term contained in exactly
    1 of the [N] chunks has strictly higher IDF than a term contained in all
    [N] chunks; and IDF is assigned only to terms with document frequency at
    least 1, as [ln(N / df)]. *)
Theorem idf_table (documentChunks : list DocumentChunk) :
  let N := length documentChunks in
  let df := documentFrequency (allTerms_of documentChunks) in
  let idf := Map_get (VectorStore.idfScores (VectorStore.constructor documentChunks)) in
  (forall u, (1 <= N)%nat -> df u = N -> idf u = Some 0%R)
  /\ (forall t u, (2 <= N)%nat -> df t = 1%nat -> df u = N ->
        exists x y, idf t = Some x /\ idf u = Some y /\ (y < x)%R)
  /\ (forall t v, idf t = Some v ->
        (1 <= df t)%nat /\ v = ln (INR N / INR (df t))).
Proof.
  intros N df idf.
  assert (HN : length (allTerms_of documentChunks) = N)
    by apply length_map.
  assert (Hall : forall u, (1 <= N)%nat -> df u = N -> idf u = Some 0%R).
  { intros u H1 Hu. unfold idf. rewrite constructor_idfScores, calculateIDF_get.
    fold (df u). rewrite Hu, HN. destruct N as [|n]; [lia|].
    f_equal. rewrite <- ln_1. f_equal.
    apply Rinv_r. apply not_0_INR. discriminate. }
  split; [exact Hall|]. split.
  - intros t u H2 Ht Hu.
    exists (ln (INR N / INR 1)), 0%R.
    split; [|split].
    + unfold idf. rewrite constructor_idfScores, calculateIDF_get.
      fold (df t). now rewrite Ht, HN.
    + apply Hall; [lia | exact Hu].
    + rewrite <- ln_1. apply ln_increasing; [lra|].
      simpl INR. unfold Rdiv. rewrite Rinv_1, Rmult_1_r.
      change 1%R with (INR 1). apply lt_INR. lia.
  - intros t v. unfold idf. rewrite constructor_idfScores, calculateIDF_get.
    fold (df t). rewrite HN. destruct (df t) eqn:E; [discriminate|].
    intros H. inversion H. split; [lia | reflexivity].
Qed.

Lemma idf_table_witness :
  let documentChunks := [doc 0 "Cats purr."; doc 1 "Cats hunt."; doc 2 "Cats sleep."] in
  let idf := Map_get (VectorStore.idfScores (VectorStore.constructor documentChunks)) in
  idf (lit "cats") = Some 0%R
  /\ exists x y, idf (lit "purr") = Some x /\ idf (lit "cats") = Some y /\ (y < x)%R.
Proof.
  cbv zeta.
  pose proof (idf_table [doc 0 "Cats purr."; doc 1 "Cats hunt."; doc 2 "Cats sleep."])
    as [Hall [Hone _]].
  split.
  - apply Hall; [simpl; lia | vm_compute; reflexivity].
  - apply Hone; [simpl; lia | vm_compute; reflexivity | vm_compute; reflexivity].
Defined.

(* ================================================================== *)
(** * Term frequencies and the vectors of the store *)
(* ================================================================== *)

Section TermFrequency.
Import VectorStore.

Lemma filter_indexed_In (f : str -> Z -> bool) (l : list str) :
  forall (i : Z) (y : str),
  In y (filter_indexed f i l) -> exists j, (i <= j)%Z /\ f y j = true.
Proof.
  induction l as [|x l IH]; intros i y H; simpl in H; [contradiction|].
  destruct (f x i) eqn:E.
  - destruct H as [<-|H].
    + exists i. split; [lia | exact E].
    + destruct (IH _ _ H) as [j [Hj Hf]]. exists j. split; [lia | exact Hf].
  - destruct (IH _ _ H) as [j [Hj Hf]]. exists j. split; [lia | exact Hf].
Qed.

Lemma filter_indexed_first_NoDup (array l : list str) (i : Z) :
  NoDup (filter_indexed (fun term index => (indexOf array term =? index)%Z) i l).
Proof.
  revert i. induction l as [|x l IH]; intros i; simpl; [constructor|].
  destruct (Z.eqb_spec (indexOf array x) i) as [E|E]; [|apply IH].
  constructor; [|apply IH].
  intros H. apply filter_indexed_In in H. destruct H as [j [Hj Hf]].
  apply Z.eqb_eq in Hf. lia.
Qed.

(** [extractTerms] returns every term once. *)
Lemma extractTerms_NoDup (text : str) : NoDup (extractTerms text).
Proof. apply filter_indexed_first_NoDup. Qed.

Lemma Map_set_fresh (V : Type) (m : Map V) (k : str) (v : V) :
  ~ In k (keys m) -> Map_set m k v = m ++ [(k, v)].
Proof.
  induction m as [|[k0 v0] m IH]; simpl; intros H; [reflexivity|].
  destruct (str_eqb k0 k) eqn:E.
  - apply str_eqb_eq in E. tauto.
  - rewrite IH by tauto. reflexivity.
Qed.

Lemma count_or_0_fresh (m : Map nat) (k : str) :
  ~ In k (keys m) -> count_or_0 m k = 0%nat.
Proof. intros H. apply Map_get_None in H. unfold count_or_0. now rewrite H. Qed.

Lemma termFreq_fold (terms : list str) :
  NoDup terms ->
  forall acc : Map nat,
  (forall t, In t terms -> ~ In t (keys acc)) ->
  fold_left
    (fun termFreq term => Map_set termFreq term (count_or_0 termFreq term + 1)%nat)
    terms acc
  = acc ++ map (fun t => (t, 1%nat)) terms.
Proof.
  induction 1 as [|x terms Hx Hnd IH]; intros acc Hacc; simpl.
  - now rewrite app_nil_r.
  - rewrite count_or_0_fresh, Map_set_fresh by (apply Hacc; now left).
    rewrite IH.
    + now rewrite <- app_assoc.
    + intros t Ht. unfold keys. rewrite map_app, in_app_iff. simpl.
      intros [H|[H|[]]].
      * apply (Hacc t); [now right | exact H].
      * subst. contradiction.
Qed.

(** On a list without repeats, every frequency [termFreq] counts is 1. *)
Lemma termFreq_NoDup (terms : list str) :
  NoDup terms -> termFreq terms = map (fun t => (t, 1%nat)) terms.
Proof.
  intros H. unfold termFreq. rewrite termFreq_fold; auto.
Qed.

Lemma keys_app (V : Type) (a b : Map V) : keys (a ++ b) = keys a ++ keys b.
Proof. apply map_app. Qed.

Lemma assign_fold (w : nat -> str -> R) (terms : list str) :
  NoDup terms ->
  forall acc : TFIDFVector,
  (forall t, In t terms -> ~ In t (keys acc)) ->
  fold_left
    (fun tfidfVector (e : str * nat) =>
       let '(term, freq) := e in assign tfidfVector term (w freq term))
    (map (fun t => (t, 1%nat)) terms) acc
  = acc ++ map (fun t => (t, w 1%nat t))
             (filter (fun t => negb (is_proto t)) terms).
Proof.
  induction 1 as [|x terms Hx Hnd IH]; intros acc Hacc; simpl fold_left.
  - simpl. now rewrite app_nil_r.
  - simpl filter. unfold assign at 2. fold (is_proto x).
    destruct (is_proto x); simpl negb; cbv iota.
    + apply IH. intros t Ht. apply Hacc. now right.
    + rewrite Map_set_fresh by (apply Hacc; now left).
      rewrite IH.
      * simpl. now rewrite <- app_assoc.
      * intros t Ht. rewrite keys_app, in_app_iff. simpl.
        intros [H|[H|[]]].
        -- apply (Hacc t); [now right | exact H].
        -- subst. contradiction.
Qed.

(** The vector [calculateTFIDF] builds from a list without repeats: every
    term gets the weight [(1 / totalTerms) * idf]; the term [__proto__]
    gets no entry. *)
Lemma calculateTFIDF_NoDup (idfScores : Map R) (terms : list str) :
  NoDup terms ->
  calculateTFIDF idfScores terms
  = map (fun t => (t, (INR 1 / INR (length terms) * idf_or_0 idfScores t)%R))
      (filter (fun t => negb (is_proto t)) terms).
Proof.
  intros H. unfold calculateTFIDF. rewrite (termFreq_NoDup terms H).
  exact (assign_fold
    (fun freq term => (INR freq / INR (length terms) * idf_or_0 idfScores term)%R)
    terms H [] (fun t _ F => F)).
Qed.

Lemma map_indexed_nth (A B C : Type) (f : A -> C -> B) (g : A -> C) (d : C)
    (pre l : list A) :
  map_indexed (fun x index => f x (nth index (map g (pre ++ l)) d)) (length pre) l
  = map (fun x => f x (g x)) l.
Proof.
  revert pre. induction l as [|x l IH]; intros pre; simpl; [reflexivity|].
  f_equal.
  - f_equal. rewrite map_app, app_nth2; rewrite length_map; [|lia].
    now rewrite Nat.sub_diag.
  - specialize (IH (pre ++ [x])). rewrite <- app_assoc in IH. simpl in IH.
    rewrite length_app, Nat.add_1_r in IH. exact IH.
Qed.

Lemma constructor_chunks (documentChunks : list DocumentChunk) :
  chunks (constructor documentChunks)
  = map (process (idfScores (constructor documentChunks))) documentChunks.
Proof.
  unfold constructor, initializeStore. simpl chunks. simpl idfScores.
  exact (map_indexed_nth _ _ _
           (fun chunk terms =>
              {| chunk := chunk;
                 tfidfVector :=
                   calculateTFIDF (calculateIDF [] (allTerms_of documentChunks)) terms;
                 termCount := length terms |})
           (fun chunk => extractTerms (text chunk)) [] [] documentChunks).
Qed.
End TermFrequency.

(** In every processed chunk the stored [termCount] is the length of the
    deduplicated term list, and every weight of the vector is
    [(1 / termCount) * idf]: the frequency counted for a term is 1, however
    often it occurs in the chunk. *)
Lemma weights_ignore_repeats (documentChunks : list DocumentChunk) (c : VectorStore.ProcessedChunk) :
  In c (VectorStore.chunks (VectorStore.constructor documentChunks)) ->
  NoDup (extractTerms (text (VectorStore.chunk c)))
  /\ VectorStore.termCount c = length (extractTerms (text (VectorStore.chunk c)))
  /\ forall term weight,
       In (term, weight) (VectorStore.tfidfVector c) ->
       In term (extractTerms (text (VectorStore.chunk c)))
       /\ weight
          = (INR 1 / INR (VectorStore.termCount c)
             * VectorStore.idf_or_0
                 (VectorStore.idfScores (VectorStore.constructor documentChunks)) term)%R.
Proof.
  rewrite constructor_chunks, in_map_iff. intros [d [<- _]].
  split; [apply extractTerms_NoDup|]. split; [reflexivity|].
  intros term weight. simpl.
  rewrite calculateTFIDF_NoDup by apply extractTerms_NoDup.
  rewrite in_map_iff. intros [t [E Ht]]. inversion E; subst.
  apply filter_In in Ht. split; [apply Ht | reflexivity].
Qed.

(** C1 (the code departs from it), at an input.  The chunk "cat cat dog"
    has three surviving tokens, "cat" twice; beside the chunk "bird" the
    IDF of "cat" is [ln(2/1)], and the design gives "cat" the weight
    [(2/3) ln(2/1)] and the chunk the term count 3.  The store holds the
    weight [(1/2) ln(2/1)] and the term count 2. *)
Theorem tf_counts_presence_only :
  let documentChunks := [doc 0 "cat cat dog"; doc 1 "bird"] in
  let store := VectorStore.constructor documentChunks in
  rawOccurrenceCount (lit "cat") (lit "cat cat dog") = 2%nat
  /\ totalRawTermCountInChunk (lit "cat cat dog") = 3%nat
  /\ map VectorStore.termCount (VectorStore.chunks store) = [2; 1]%nat
  /\ Map_get (VectorStore.idfScores store) (lit "cat") = Some (ln (2 / 1))
  /\ map VectorStore.tfidfVector (VectorStore.chunks store)
     = [ [ (lit "cat", (1 / 2 * ln (2 / 1))%R); (lit "dog", (1 / 2 * ln (2 / 1))%R) ];
         [ (lit "bird", (1 / 1 * ln (2 / 1))%R) ] ]
  /\ (1 / 2 * ln (2 / 1) <> designedWeight (ln (2 / 1)) (lit "cat") (lit "cat cat dog"))%R.
Proof.
  cbv zeta. repeat split; try (vm_compute; reflexivity).
  assert (H : (0 < ln (2 / 1))%R).
  { rewrite <- ln_1. apply ln_increasing; lra. }
  unfold designedWeight.
  replace (rawOccurrenceCount _ _) with 2%nat by (vm_compute; reflexivity).
  replace (totalRawTermCountInChunk _) with 3%nat by (vm_compute; reflexivity).
  simpl INR. intros E.
  assert (E' : ((1 / 2 - (1 + 1) / (1 + 1 + 1)) * ln (2 / 1) = 0)%R) by lra.
  apply Rmult_integral in E'. lra.
Qed.

(* ================================================================== *)
(** * Cosine similarity *)
(* ================================================================== *)

Section Cosine.
Import VectorStore.
Local Open Scope R_scope.

Lemma reads_weight_plain (vector : TFIDFVector) (key : str) :
  has Object_prototype key = false -> reads_weight vector key.
Proof.
  intros H. unfold reads_weight, get_or_0, weight.
  destruct (Map_get vector key); [reflexivity | now rewrite H].
Qed.

Lemma reads_NaN (vector : TFIDFVector) (key : str) :
  ~ In key (keys vector) -> has Object_prototype key = true ->
  get_or_0 vector key = NaN.
Proof.
  intros H Hp. unfold get_or_0. apply Map_get_None in H. now rewrite H, Hp.
Qed.

Lemma cosine_sums_numbers (vectorA vectorB : TFIDFVector) (l : list str) :
  (forall key, In key l -> reads_weight vectorA key /\ reads_weight vectorB key) ->
  forall d a b,
  fold_left (cosine_step vectorA vectorB) l
    {| dotProduct := Num d; magnitudeA := Num a; magnitudeB := Num b |}
  = {| dotProduct :=
         Num (d + sigma (fun key => weight vectorA key * weight vectorB key) l);
       magnitudeA :=
         Num (a + sigma (fun key => weight vectorA key * weight vectorA key) l);
       magnitudeB :=
         Num (b + sigma (fun key => weight vectorB key * weight vectorB key) l) |}.
Proof.
  induction l as [|key l IH]; intros H d a b; simpl.
  - now rewrite !Rplus_0_r.
  - destruct (H key (or_introl eq_refl)) as [HA HB].
    unfold cosine_step at 2. rewrite HA, HB. simpl.
    rewrite IH by (intros k Hk; apply H; now right).
    now rewrite !Rplus_assoc.
Qed.

Lemma add_NaN_r (a : number) : add a NaN = NaN.
Proof. now destruct a. Qed.

Lemma mul_NaN_r (a : number) : mul a NaN = NaN.
Proof. now destruct a. Qed.

Lemma spoilt_step (vectorA vectorB : TFIDFVector) (acc : sums) (key : str) :
  spoilt acc -> spoilt (cosine_step vectorA vectorB acc key).
Proof.
  intros [Hd [Ha|Hb]]; unfold spoilt, cosine_step; simpl.
  - rewrite Hd, Ha. auto.
  - rewrite Hd, Hb. auto.
Qed.

Lemma spoilt_fold (vectorA vectorB : TFIDFVector) (l : list str) (acc : sums) :
  spoilt acc -> spoilt (fold_left (cosine_step vectorA vectorB) l acc).
Proof.
  revert acc. induction l as [|key l IH]; intros acc H; simpl; [exact H|].
  apply IH, spoilt_step, H.
Qed.

Lemma spoils (vectorA vectorB : TFIDFVector) (l : list str) (key : str) :
  In key l ->
  get_or_0 vectorA key = NaN \/ get_or_0 vectorB key = NaN ->
  forall acc, spoilt (fold_left (cosine_step vectorA vectorB) l acc).
Proof.
  induction l as [|k l IH]; intros Hin HN acc; [contradiction|].
  simpl. destruct Hin as [->|Hin]; [|now apply IH].
  apply spoilt_fold. unfold spoilt, cosine_step. simpl.
  destruct HN as [E|E]; rewrite E; simpl.
  - rewrite !add_NaN_r. auto.
  - rewrite !mul_NaN_r, !add_NaN_r. auto.
Qed.

(** A key that one vector owns, that the other does not own and that names
    a property of [Object.prototype] makes the similarity [NaN]. *)
Lemma cosineSimilarity_NaN (vectorA vectorB : TFIDFVector) (key : str) :
  In key (keys vectorA ++ keys vectorB) ->
  get_or_0 vectorA key = NaN \/ get_or_0 vectorB key = NaN ->
  cosineSimilarity vectorA vectorB = NaN.
Proof.
  intros Hin HN. unfold cosineSimilarity, cosine_sums.
  apply new_Set_In in Hin.
  destruct (spoils vectorA vectorB _ key Hin HN
              {| dotProduct := Num 0; magnitudeA := Num 0; magnitudeB := Num 0 |})
    as [Hd Hm].
  set (acc := fold_left _ _ _) in *.
  rewrite Hd.
  assert (E : mul (Math_sqrt (magnitudeA acc)) (Math_sqrt (magnitudeB acc)) = NaN).
  { destruct Hm as [E|E]; rewrite E; simpl; [reflexivity | apply mul_NaN_r]. }
  rewrite E. reflexivity.
Qed.

Lemma sigma_nonneg (f : str -> R) (l : list str) :
  (forall key, 0 <= f key) -> 0 <= sigma f l.
Proof.
  intros H. induction l as [|k l IH]; simpl; [lra|]. specialize (H k). lra.
Qed.

Lemma Cauchy_Schwarz_step (x y D P Q : R) :
  0 <= P -> 0 <= Q -> D * D <= P * Q ->
  (x * y + D) * (x * y + D) <= (x * x + P) * (y * y + Q).
Proof.
  intros HP HQ HD.
  assert (Hc : 2 * (x * y * D) <= x * x * Q + y * y * P).
  { destruct (Req_dec P 0) as [HP0|HP0].
    - subst P. assert (HD0 : D = 0) by nra. subst D.
      pose proof (Rle_0_sqr x) as Hx. unfold Rsqr in Hx. nra.
    - assert (HPpos : 0 < P) by lra.
      pose proof (Rle_0_sqr (x * D - y * P)) as Hs. unfold Rsqr in Hs.
      pose proof (Rle_0_sqr x) as Hx. unfold Rsqr in Hx.
      assert (H1 : x * x * (D * D) <= x * x * (P * Q))
        by (apply Rmult_le_compat_l; assumption).
      assert (H2 : 0 <= P * (x * x * Q + y * y * P - 2 * (x * y * D))) by nra.
      assert (H3 : 0 <= x * x * Q + y * y * P - 2 * (x * y * D)).
      { apply Rmult_le_reg_l with (r := P); [exact HPpos|]. lra. }
      lra. }
  nra.
Qed.

(** Cauchy-Schwarz on the sums over a key list. *)
Lemma sigma_Cauchy_Schwarz (f g : str -> R) (l : list str) :
  sigma (fun k => f k * g k) l * sigma (fun k => f k * g k) l
  <= sigma (fun k => f k * f k) l * sigma (fun k => g k * g k) l.
Proof.
  induction l as [|k l IH]; simpl; [lra|].
  apply Cauchy_Schwarz_step; [| |exact IH];
    apply sigma_nonneg; intros key; apply Rle_0_sqr.
Qed.

Lemma norm2_nonneg (vectorA vectorB : TFIDFVector) : 0 <= norm2 vectorA vectorB.
Proof. apply sigma_nonneg. intros key. apply Rle_0_sqr. Qed.

Lemma norm2'_nonneg (vectorA vectorB : TFIDFVector) : 0 <= norm2' vectorA vectorB.
Proof. apply sigma_nonneg. intros key. apply Rle_0_sqr. Qed.

Lemma Math_sqrt_nonneg (x : R) : 0 <= x -> Math_sqrt (Num x) = Num (sqrt x).
Proof. intros H. simpl. destruct (Rlt_dec x 0); [lra | reflexivity]. Qed.

(** When every read gives the weight, [cosineSimilarity] is the cosine. *)
Lemma cosineSimilarity_cosine (vectorA vectorB : TFIDFVector) :
  (forall key, In key (allKeys vectorA vectorB) ->
     reads_weight vectorA key /\ reads_weight vectorB key) ->
  cosineSimilarity vectorA vectorB = Num (cosine vectorA vectorB).
Proof.
  intros H. unfold cosineSimilarity, cosine_sums.
  fold (allKeys vectorA vectorB).
  rewrite (cosine_sums_numbers vectorA vectorB _ H).
  cbn [dotProduct magnitudeA magnitudeB].
  rewrite !Rplus_0_l.
  fold (dot vectorA vectorB) (norm2 vectorA vectorB) (norm2' vectorA vectorB).
  rewrite !Math_sqrt_nonneg by (apply norm2_nonneg || apply norm2'_nonneg).
  unfold cosine. cbn [mul is_zero div].
  destruct (Req_dec_T (sqrt (norm2 vectorA vectorB) * sqrt (norm2' vectorA vectorB)) 0);
    reflexivity.
Qed.

(** With non-negative weights the cosine lies between 0 and 1.  This is the
    cosine over the real numbers; of the quotient the program computes
    only the lower bound is used in what follows. *)
Lemma cosine_bounds (vectorA vectorB : TFIDFVector) :
  (forall key, 0 <= weight vectorA key) ->
  (forall key, 0 <= weight vectorB key) ->
  0 <= cosine vectorA vectorB <= 1.
Proof.
  intros HA HB. unfold cosine.
  set (m := sqrt (norm2 vectorA vectorB) * sqrt (norm2' vectorA vectorB)).
  destruct (Req_dec_T m 0) as [E|E]; [lra|].
  assert (Hm : 0 < m).
  { assert (0 <= m) by (apply Rmult_le_pos; apply sqrt_pos). lra. }
  assert (Hd : 0 <= dot vectorA vectorB).
  { apply sigma_nonneg. intros key. apply Rmult_le_pos; auto. }
  assert (Hmm : m * m = norm2 vectorA vectorB * norm2' vectorA vectorB).
  { unfold m.
    replace (sqrt (norm2 vectorA vectorB) * sqrt (norm2' vectorA vectorB)
             * (sqrt (norm2 vectorA vectorB) * sqrt (norm2' vectorA vectorB)))
      with ((sqrt (norm2 vectorA vectorB) * sqrt (norm2 vectorA vectorB))
            * (sqrt (norm2' vectorA vectorB) * sqrt (norm2' vectorA vectorB)))
      by ring.
    rewrite !sqrt_sqrt by (apply norm2_nonneg || apply norm2'_nonneg).
    reflexivity. }
  assert (Hcs : dot vectorA vectorB * dot vectorA vectorB <= m * m).
  { rewrite Hmm. apply sigma_Cauchy_Schwarz. }
  assert (Hle : dot vectorA vectorB <= m) by nra.
  assert (Hinv : 0 < / m) by (apply Rinv_0_lt_compat, Hm).
  unfold Rdiv. split.
  - apply Rmult_le_pos; lra.
  - rewrite <- (Rinv_r m E). apply Rmult_le_compat_r; lra.
Qed.
End Cosine.

(* ================================================================== *)
(** * Retrieval *)
(* ================================================================== *)

Section Retrieval.
Import VectorStore.
Local Open Scope R_scope.

Lemma search_eq (this : VectorStore) (query : str) (topK : option Z) :
  isInitialized this = true ->
  search this query topK
  = inr (map (to_result (extractTerms query))
           (slice0 (sort later_similarity (similarities this query))
              (topK_or_5 topK))).
Proof. intros H. unfold search. rewrite H. reflexivity. Qed.

Lemma ln_nonneg (x : R) : 1 <= x -> 0 <= ln x.
Proof.
  intros [H|<-].
  - left. rewrite <- ln_1. apply ln_increasing; lra.
  - rewrite ln_1. lra.
Qed.

(** Every IDF the store uses is non-negative: [df <= N]. *)
Lemma idf_nonneg (documentChunks : list DocumentChunk) (t : str) :
  0 <= idf_or_0 (idfScores (constructor documentChunks)) t.
Proof.
  unfold idf_or_0. rewrite constructor_idfScores, calculateIDF_get.
  pose proof (documentFrequency_le (allTerms_of documentChunks) t) as Hle.
  destruct (documentFrequency (allTerms_of documentChunks) t) as [|n]; [lra|].
  apply ln_nonneg.
  assert (Hpos : 0 < INR (S n)) by (apply lt_0_INR; lia).
  apply le_INR in Hle.
  unfold Rdiv. rewrite <- (Rinv_r (INR (S n))) by lra.
  apply Rmult_le_compat_r; [|exact Hle].
  left. now apply Rinv_0_lt_compat.
Qed.

Lemma Map_get_pairs (w : str -> R) (l : list str) (k : str) :
  Map_get (map (fun t => (t, w t)) l) k = if has l k then Some (w k) else None.
Proof.
  induction l as [|x l IH]; [reflexivity|].
  simpl Map_get. unfold has. simpl existsb. fold (has l k).
  rewrite (str_eqb_sym k x).
  destruct (str_eqb x k) eqn:E; simpl.
  - apply str_eqb_eq in E. now subst.
  - exact IH.
Qed.

Lemma calculateTFIDF_keys (idf : Map R) (terms : list str) (key : str) :
  NoDup terms -> In key (keys (calculateTFIDF idf terms)) -> In key terms.
Proof.
  intros Hnd. rewrite (calculateTFIDF_NoDup idf terms Hnd).
  unfold keys. rewrite map_map. simpl. rewrite map_id.
  intros H. now apply filter_In in H.
Qed.

Lemma calculateTFIDF_nonneg (idf : Map R) (terms : list str) (key : str) :
  NoDup terms ->
  (forall t, 0 <= idf_or_0 idf t) ->
  0 <= weight (calculateTFIDF idf terms) key.
Proof.
  intros Hnd Hidf. unfold weight.
  rewrite (calculateTFIDF_NoDup idf terms Hnd), Map_get_pairs.
  destruct (has _ key) eqn:E; [|lra].
  apply has_In, filter_In in E. destruct E as [Hin _].
  apply Rmult_le_pos; [|apply Hidf].
  assert (0 < INR (length terms)).
  { apply lt_0_INR. destruct terms; [contradiction | simpl; lia]. }
  unfold Rdiv. apply Rmult_le_pos; [simpl; lra|].
  left. now apply Rinv_0_lt_compat.
Qed.

Lemma plain_reads (idf idf' : Map R) (termsA termsB : list str) (key : str) :
  plain termsA -> plain termsB ->
  In key (allKeys (calculateTFIDF idf termsA) (calculateTFIDF idf' termsB)) ->
  NoDup termsA -> NoDup termsB ->
  has Object_prototype key = false.
Proof.
  intros HA HB Hin HnA HnB. unfold allKeys in Hin.
  apply new_Set_In, in_app_iff in Hin. destruct Hin as [H|H].
  - apply HA. eapply calculateTFIDF_keys; eassumption.
  - apply HB. eapply calculateTFIDF_keys; eassumption.
Qed.

(** The similarity of a plain query and a plain chunk is the cosine of
    their vectors, over the real numbers a number between 0 and 1. *)
Lemma similarity_plain (documentChunks : list DocumentChunk) (query : str)
    (d : DocumentChunk) :
  plain (extractTerms query) -> plain (extractTerms (text d)) ->
  let this := constructor documentChunks in
  let c := process (idfScores this) d in
  sc_similarity (score_chunk (queryVector this query) c)
  = Num (cosine (queryVector this query) (tfidfVector c))
  /\ 0 <= cosine (queryVector this query) (tfidfVector c) <= 1.
Proof.
  intros Hq Hd this c. split.
  - apply cosineSimilarity_cosine. intros key Hkey.
    assert (has Object_prototype key = false).
    { eapply plain_reads; [exact Hq | exact Hd | exact Hkey | |];
        apply extractTerms_NoDup. }
    split; now apply reads_weight_plain.
  - apply cosine_bounds; intros key; apply calculateTFIDF_nonneg;
      try apply extractTerms_NoDup; apply idf_nonneg.
Qed.

Lemma in_similarities (documentChunks : list DocumentChunk) (query : str)
    (s : scoredChunk) :
  In s (similarities (constructor documentChunks) query) ->
  exists d, In d documentChunks
    /\ s = score_chunk (queryVector (constructor documentChunks) query)
             (process (idfScores (constructor documentChunks)) d).
Proof.
  unfold similarities. rewrite constructor_chunks, map_map, in_map_iff.
  intros [d [<- Hd]]. now exists d.
Qed.

Lemma later_similarity_asym (a b : scoredChunk) :
  numeric a -> numeric b ->
  later_similarity a b = true -> later_similarity b a = false.
Proof.
  intros [x Hx] [y Hy]. unfold later_similarity, by_similarity.
  rewrite Hx, Hy. simpl.
  destruct (Rlt_dec 0 (y - x)), (Rlt_dec 0 (x - y)); auto. lra.
Qed.

Lemma later_similarity_trans (a b c : scoredChunk) :
  numeric a -> numeric b -> numeric c ->
  later_similarity a b = false -> later_similarity b c = false ->
  later_similarity a c = false.
Proof.
  intros [x Hx] [y Hy] [z Hz]. unfold later_similarity, by_similarity.
  rewrite Hx, Hy, Hz. simpl.
  destruct (Rlt_dec 0 (y - x)), (Rlt_dec 0 (z - y)), (Rlt_dec 0 (z - x));
    auto; try discriminate. lra.
Qed.

Lemma may_precede_geq (a b : scoredChunk) :
  numeric a -> numeric b ->
  may_precede scoredChunk later_similarity a b ->
  geq (sc_similarity a) (sc_similarity b).
Proof.
  intros [x Hx] [y Hy]. unfold may_precede, later_similarity, by_similarity.
  rewrite Hx, Hy. simpl. destruct (Rlt_dec 0 (y - x)); [discriminate|]. lra.
Qed.

Lemma calculateTFIDF_owns (idf : Map R) (terms : list str) (key : str) :
  NoDup terms -> In key terms -> is_proto key = false ->
  In key (keys (calculateTFIDF idf terms)).
Proof.
  intros Hnd Hin Hp. rewrite (calculateTFIDF_NoDup idf terms Hnd).
  unfold keys. rewrite map_map. simpl. rewrite map_id.
  apply filter_In. split; [exact Hin | now rewrite Hp].
Qed.

(** The defect behind C4, C5 and C6.  When a term that names a property of
    [Object.prototype] (for a term of [extractTerms] that is
    "constructor") is a term of the chunk and not of the query, or of the
    query and not of the chunk, their similarity is [NaN]. *)
Lemma similarity_NaN (idf : Map R) (queryTerms chunkTerms : list str) (p : str) :
  NoDup queryTerms -> NoDup chunkTerms ->
  has Object_prototype p = true -> is_proto p = false ->
  (In p chunkTerms /\ ~ In p queryTerms) \/ (In p queryTerms /\ ~ In p chunkTerms) ->
  cosineSimilarity (calculateTFIDF idf queryTerms) (calculateTFIDF idf chunkTerms)
  = NaN.
Proof.
  intros Hq Hc Hp Hnp [[Hin Hout]|[Hin Hout]];
    apply cosineSimilarity_NaN with (key := p).
  - apply in_or_app. right. now apply calculateTFIDF_owns.
  - left. apply reads_NaN; [|exact Hp].
    intros H. apply Hout. eapply calculateTFIDF_keys; eassumption.
  - apply in_or_app. left. now apply calculateTFIDF_owns.
  - right. apply reads_NaN; [|exact Hp].
    intros H. apply Hout. eapply calculateTFIDF_keys; eassumption.
Qed.

Lemma cosine_zero_dot (vectorA vectorB : TFIDFVector) :
  dot vectorA vectorB = 0 -> cosine vectorA vectorB = 0.
Proof.
  intros H. unfold cosine. rewrite H.
  destruct (Req_dec_T _ 0); [reflexivity|]. unfold Rdiv. apply Rmult_0_l.
Qed.

(** If either norm is zero, the cosine is 0. *)
Lemma cosine_zero_norm (vectorA vectorB : TFIDFVector) :
  norm2 vectorA vectorB = 0 \/ norm2' vectorA vectorB = 0 ->
  cosine vectorA vectorB = 0.
Proof.
  intros H. unfold cosine.
  destruct (Req_dec_T _ 0) as [|E]; [reflexivity|]. exfalso. apply E.
  destruct H as [-> | ->]; rewrite sqrt_0; ring.
Qed.

(** On plain terms: the similarity the store computes for a chunk is 0 as
    soon as the query vector or the chunk vector has norm zero. *)
Lemma zero_norm_plain (documentChunks : list DocumentChunk) (query : str)
    (d : DocumentChunk) :
  plain (extractTerms query) -> plain (extractTerms (text d)) ->
  let this := constructor documentChunks in
  let c := process (idfScores this) d in
  norm2 (queryVector this query) (tfidfVector c) = 0
  \/ norm2' (queryVector this query) (tfidfVector c) = 0 ->
  sc_similarity (score_chunk (queryVector this query) c) = Num 0.
Proof.
  intros Hq Hd this c Hz. subst this c.
  destruct (similarity_plain documentChunks query d Hq Hd) as [-> _].
  f_equal. now apply cosine_zero_norm.
Qed.

Lemma sigma_zero_terms (f : str -> R) (l : list str) :
  (forall key, f key = 0) -> sigma f l = 0.
Proof.
  intros H. induction l as [|k l IH]; simpl; [reflexivity|]. rewrite H, IH. lra.
Qed.

(** On plain terms: a query without a surviving term (only stop words, for
    one) has similarity 0 with every chunk. *)
Lemma empty_query_plain (documentChunks : list DocumentChunk) (query : str)
    (d : DocumentChunk) :
  extractTerms query = [] -> plain (extractTerms (text d)) ->
  let this := constructor documentChunks in
  sc_similarity (score_chunk (queryVector this query) (process (idfScores this) d))
  = Num 0.
Proof.
  intros Hq Hd this. subst this.
  apply zero_norm_plain; [rewrite Hq; intros t [] | exact Hd |].
  left. unfold norm2, queryVector. rewrite Hq.
  apply sigma_zero_terms. intros key. unfold weight. simpl. ring.
Qed.

Lemma search_results_from (documentChunks : list DocumentChunk) (query : str)
    (topK : option Z) (results : list SearchResult) (r : SearchResult) :
  search (constructor documentChunks) query topK = inr results ->
  In r results ->
  exists d, In d documentChunks
    /\ similarity r
       = sc_similarity
           (score_chunk (queryVector (constructor documentChunks) query)
              (process (idfScores (constructor documentChunks)) d)).
Proof.
  rewrite search_eq by reflexivity. intros E Hr. inversion E; subst results.
  apply in_map_iff in Hr. destruct Hr as [s [<- Hs]].
  apply slice0_In in Hs.
  apply (Permutation_in _ (sort_perm _ later_similarity _)) in Hs.
  apply in_similarities in Hs. destruct Hs as [d [Hd ->]].
  now exists d.
Qed.

(** On plain terms every similarity [search] returns is a number, over the
    real numbers between 0 and 1. *)
Lemma search_plain_bounds (documentChunks : list DocumentChunk) (query : str)
    (topK : option Z) (results : list SearchResult) :
  plain (extractTerms query) ->
  (forall d, In d documentChunks -> plain (extractTerms (text d))) ->
  search (constructor documentChunks) query topK = inr results ->
  Forall (fun r => exists x, similarity r = Num x /\ 0 <= x <= 1) results.
Proof.
  intros Hq Hd Hs. apply Forall_forall. intros r Hr.
  destruct (search_results_from _ _ _ _ _ Hs Hr) as [d [Hin ->]].
  destruct (similarity_plain documentChunks query d Hq (Hd d Hin)) as [-> Hb].
  eexists. split; [reflexivity | exact Hb].
Qed.

Lemma similarities_numeric (documentChunks : list DocumentChunk) (query : str) :
  plain (extractTerms query) ->
  (forall d, In d documentChunks -> plain (extractTerms (text d))) ->
  Forall numeric (similarities (constructor documentChunks) query).
Proof.
  intros Hq Hd. apply Forall_forall. intros s Hs.
  apply in_similarities in Hs. destruct Hs as [d [Hin ->]].
  destruct (similarity_plain documentChunks query d Hq (Hd d Hin)) as [E _].
  eexists. exact E.
Qed.

(** On plain terms the results are in descending order of similarity, and
    the sort that orders them keeps chunks of equal similarity in the
    order of the store. *)
Lemma search_plain_sorted (documentChunks : list DocumentChunk) (query : str)
    (topK : option Z) (results : list SearchResult) :
  plain (extractTerms query) ->
  (forall d, In d documentChunks -> plain (extractTerms (text d))) ->
  search (constructor documentChunks) query topK = inr results ->
  let scored := similarities (constructor documentChunks) query in
  let sorted := sort later_similarity scored in
  results = map (to_result (extractTerms query)) (slice0 sorted (topK_or_5 topK))
  /\ StronglySorted (fun a b => geq (similarity a) (similarity b)) results
  /\ forall z, numeric z ->
       filter (tie scoredChunk later_similarity z) sorted
       = filter (tie scoredChunk later_similarity z) scored.
Proof.
  intros Hq Hd Hs scored sorted.
  pose proof (similarities_numeric documentChunks query Hq Hd) as Hnum.
  rewrite search_eq in Hs by reflexivity. inversion Hs as [E]. clear Hs.
  fold scored in Hnum |- *. fold sorted.
  split; [reflexivity|]. split.
  - assert (Hsorted : StronglySorted (may_precede scoredChunk later_similarity) sorted).
    { apply sort_sorted with (P := numeric);
        [exact later_similarity_asym | exact later_similarity_trans | exact Hnum]. }
    assert (Hn : Forall numeric sorted) by (apply sort_Forall, Hnum).
    apply map_StronglySorted with (f := to_result (extractTerms query))
      (R := fun a b => geq (similarity a) (similarity b)).
    simpl.
    eapply StronglySorted_weaken.
    + apply slice0_StronglySorted, Hsorted.
    + rewrite Forall_forall in Hn.
      intros a b Ha Hb. apply may_precede_geq; apply Hn; eapply slice0_In; eassumption.
  - intros z Hz. apply sort_stable with (P := numeric);
      [exact later_similarity_trans | exact Hz | exact Hnum].
Qed.
End Retrieval.

Section Defect.
Import VectorStore.
Local Open Scope R_scope.

(** Every result of a search on [patterns] for a query that does not use
    the word "constructor" has similarity [NaN]. *)
Lemma patterns_NaN (query : str) (topK : option Z) (results : list SearchResult) :
  ~ In (lit "constructor") (extractTerms query) ->
  search (constructor patterns) query topK = inr results ->
  Forall (fun r => similarity r = NaN) results.
Proof.
  intros Hq Hs. apply Forall_forall. intros r Hr.
  destruct (search_results_from _ _ _ _ _ Hs Hr) as [d [[<-|[]] ->]].
  apply similarity_NaN with (p := lit "constructor");
    try apply extractTerms_NoDup; try reflexivity.
  left. split; [|exact Hq].
  replace (extractTerms _) with [lit "constructor"; lit "pattern"]
    by (vm_compute; reflexivity).
  now left.
Qed.

Lemma patterns_one_result (query : str) (results : list SearchResult) :
  search (constructor patterns) query None = inr results ->
  exists r, results = [r].
Proof.
  intros Hs.
  destruct (search_initialized (constructor patterns) query None eq_refl)
    as [results' [Hs' Hl]].
  rewrite Hs in Hs'. inversion Hs'; subst results'.
  rewrite constructor_chunks in Hl. simpl in Hl.
  destruct results as [|r [|r' rest]]; try discriminate. now exists r.
Qed.

Lemma sort_three (A : Type) (later : A -> A -> bool) (a b c : A) :
  later b c = false -> later a b = false -> sort later [a; b; c] = [a; b; c].
Proof. intros Hbc Hab. simpl. rewrite Hbc. simpl. now rewrite Hab. Qed.
End Defect.

(** C4 (the code departs from it), at an input.  The store holds the one
    chunk "The constructor pattern."; the query is "hello".  The query
    vector has no own property "constructor", the read finds the function
    [Object.prototype.constructor], and the similarity is [NaN], which is
    not between 0 and 1. *)
Theorem similarity_not_within_bounds :
  extractTerms (lit "The constructor pattern.") = [lit "constructor"; lit "pattern"]
  /\ extractTerms (lit "hello") = [lit "hello"]
  /\ exists results,
       VectorStore.search (VectorStore.constructor patterns) (lit "hello") None
       = inr results
       /\ map VectorStore.similarity results = [NaN]
       /\ ~ (geq NaN (Num 0) /\ geq (Num 1) NaN).
Proof.
  split; [vm_compute; reflexivity|]. split; [vm_compute; reflexivity|].
  destruct (search_initialized (VectorStore.constructor patterns) (lit "hello") None
              eq_refl) as [results [Hs _]].
  exists results. split; [exact Hs|].
  destruct (patterns_one_result _ _ Hs) as [r ->].
  split; [|simpl; tauto].
  assert (Hq : ~ In (lit "constructor") (extractTerms (lit "hello"))).
  { replace (extractTerms (lit "hello")) with [lit "hello"] by (vm_compute; reflexivity).
    intros [H|[]]. discriminate. }
  pose proof (patterns_NaN _ _ _ Hq Hs) as Hn.
  inversion Hn as [|? ? Hr _]; subst. simpl. now rewrite Hr.
Qed.

(** C5 (the code departs from it), at an input.  The query "the and of" has
    no surviving term and its vector is empty, of norm zero; against the
    chunk "The constructor pattern." the similarity is [NaN], not 0.  The
    cause is the one of C4. *)
Theorem stop_word_query_not_zero :
  extractTerms (lit "the and of") = []
  /\ queryVector (VectorStore.constructor patterns) (lit "the and of") = []
  /\ exists results,
       VectorStore.search (VectorStore.constructor patterns) (lit "the and of") None
       = inr results
       /\ map VectorStore.similarity results = [NaN].
Proof.
  split; [vm_compute; reflexivity|]. split; [vm_compute; reflexivity|].
  destruct (search_initialized (VectorStore.constructor patterns) (lit "the and of") None
              eq_refl) as [results [Hs _]].
  exists results. split; [exact Hs|].
  destruct (patterns_one_result _ _ Hs) as [r ->].
  assert (Hq : ~ In (lit "constructor") (extractTerms (lit "the and of"))).
  { replace (extractTerms (lit "the and of")) with (@nil str) by (vm_compute; reflexivity).
    intros []. }
  pose proof (patterns_NaN _ _ _ Hq Hs) as Hn.
  inversion Hn as [|? ? Hr _]; subst. simpl. now rewrite Hr.
Qed.

Section Order.
Import VectorStore.
Local Open Scope R_scope.

Lemma whole_pos : 0 < whole.
Proof.
  unfold whole. simpl INR.
  assert (0 < ln ((1 + 1 + 1) / 1)) by (rewrite <- ln_1; apply ln_increasing; lra).
  replace (1 / 1) with 1 by field. lra.
Qed.

Lemma queryVector_delta :
  queryVector (constructor mixed) (lit "delta") = [(lit "delta", whole)].
Proof. vm_compute. reflexivity. Qed.

Lemma vector_alpha_beta :
  tfidfVector (process (idfScores (constructor mixed)) (doc 0 "Alpha beta."))
  = [(lit "alpha", half); (lit "beta", half)].
Proof. vm_compute. reflexivity. Qed.

Lemma vector_delta :
  tfidfVector (process (idfScores (constructor mixed)) (doc 2 "Delta."))
  = [(lit "delta", whole)].
Proof. vm_compute. reflexivity. Qed.

Lemma plain_delta : plain (extractTerms (lit "delta")).
Proof.
  replace (extractTerms _) with [lit "delta"] by (vm_compute; reflexivity).
  intros t [<-|[]]. reflexivity.
Qed.

Lemma plain_alpha_beta : plain (extractTerms (text (doc 0 "Alpha beta."))).
Proof.
  replace (extractTerms _) with [lit "alpha"; lit "beta"] by (vm_compute; reflexivity).
  intros t [<-|[<-|[]]]; reflexivity.
Qed.

Lemma plain_Delta : plain (extractTerms (text (doc 2 "Delta."))).
Proof.
  replace (extractTerms _) with [lit "delta"] by (vm_compute; reflexivity).
  intros t [<-|[]]. reflexivity.
Qed.

Lemma cosine_same_axis (key : str) (x : R) :
  0 < x -> cosine [(key, x)] [(key, x)] = 1.
Proof.
  intros Hx. unfold cosine, dot, norm2, norm2', allKeys, weight, keys, new_Set.
  simpl. unfold Set_add, has. simpl. rewrite !str_eqb_refl. simpl.
  rewrite !str_eqb_refl. rewrite !Rplus_0_r.
  rewrite sqrt_sqrt by nra.
  destruct (Req_dec_T (x * x) 0); [nra|]. field. lra.
Qed.

Lemma similarity_alpha_beta :
  cosineSimilarity (queryVector (constructor mixed) (lit "delta"))
    (tfidfVector (process (idfScores (constructor mixed)) (doc 0 "Alpha beta.")))
  = Num 0.
Proof.
  destruct (similarity_plain mixed (lit "delta") (doc 0 "Alpha beta.")
              plain_delta plain_alpha_beta) as [E _].
  cbv zeta in E. eapply eq_trans; [exact E|]. f_equal.
  apply cosine_zero_dot.
  rewrite queryVector_delta, vector_alpha_beta.
  unfold dot, allKeys, weight. cbn -[whole half Rmult Rplus]. ring.
Qed.

Lemma similarity_constructor_gamma :
  cosineSimilarity (queryVector (constructor mixed) (lit "delta"))
    (tfidfVector (process (idfScores (constructor mixed)) (doc 1 "Constructor gamma.")))
  = NaN.
Proof.
  apply similarity_NaN with (p := lit "constructor");
    try apply extractTerms_NoDup; try reflexivity.
  left. split.
  - replace (extractTerms _) with [lit "constructor"; lit "gamma"]
      by (vm_compute; reflexivity).
    now left.
  - replace (extractTerms _) with [lit "delta"] by (vm_compute; reflexivity).
    intros [H|[]]. discriminate.
Qed.

Lemma similarity_delta :
  cosineSimilarity (queryVector (constructor mixed) (lit "delta"))
    (tfidfVector (process (idfScores (constructor mixed)) (doc 2 "Delta.")))
  = Num 1.
Proof.
  destruct (similarity_plain mixed (lit "delta") (doc 2 "Delta.")
              plain_delta plain_Delta) as [E _].
  cbv zeta in E. eapply eq_trans; [exact E|]. f_equal.
  rewrite queryVector_delta, vector_delta.
  apply cosine_same_axis, whole_pos.
Qed.
End Order.

(** C6 (the code departs from it), at an input.  The store holds the chunks
    "Alpha beta.", "Constructor gamma." and "Delta."; the query is "delta".
    The similarities are 0, [NaN] and 1.  The comparison function returns
    [NaN] on every pair with the second chunk, that is, no order; the chunks
    come back in the order of the store, the chunk of similarity 1 last and
    the chunk of similarity 0 first.  The cause is the one of C4. *)
Theorem search_order_not_descending :
  exists results,
    VectorStore.search (VectorStore.constructor mixed) (lit "delta") None = inr results
    /\ map (fun r => chunkIndex (VectorStore.chunk (VectorStore.result_chunk r))) results
       = [0; 1; 2]%Z
    /\ map VectorStore.similarity results = [Num 0; NaN; Num 1]
    /\ ~ StronglySorted geq (map VectorStore.similarity results).
Proof.
  rewrite search_eq by reflexivity. eexists. split; [reflexivity|].
  unfold similarities. rewrite constructor_chunks.
  change (map (process _) mixed)
    with [process (VectorStore.idfScores (VectorStore.constructor mixed)) (doc 0 "Alpha beta.");
          process (VectorStore.idfScores (VectorStore.constructor mixed)) (doc 1 "Constructor gamma.");
          process (VectorStore.idfScores (VectorStore.constructor mixed)) (doc 2 "Delta.")].
  cbn [map].
  unfold score_chunk.
  rewrite similarity_alpha_beta, similarity_constructor_gamma, similarity_delta.
  rewrite sort_three by reflexivity.
  unfold slice0. cbn [length topK_or_5]. 
  change (Z.to_nat _) with 3%nat. cbn [firstn map to_result VectorStore.similarity
    VectorStore.result_chunk VectorStore.sc_chunk VectorStore.sc_similarity
    VectorStore.chunk process].
  split; [reflexivity|]. split; [reflexivity|].
  intros H. inversion H as [|a l _ Hall]; subst.
  inversion Hall as [|b l' Hge _]; subst. exact Hge.
Qed.

(* ================================================================== *)
(** * Two facts used for [chunkText] *)
(* ================================================================== *)

Section ChunkSize.
Local Open Scope Z_scope.

Lemma substring_0_length (s : str) (b : Z) :
  len (substring s 0 b) = Z.min (Z.max b 0) (len s).
Proof.
  unfold substring, clamp, len.
  replace (Z.to_nat (Z.min (Z.max 0 0) (Z.of_nat (length s)))) with 0%nat by lia.
  rewrite Nat.min_0_l, Nat.max_0_l, Nat.sub_0_r. simpl skipn.
  rewrite length_firstn. lia.
Qed.

Lemma Forall_snoc (A : Type) (P : A -> Prop) (l : list A) (x : A) :
  Forall P l -> P x -> Forall P (l ++ [x]).
Proof. intros Hl Hx. apply Forall_app. split; [exact Hl | now constructor]. Qed.

End ChunkSize.

(* ================================================================== *)
(** * Further properties: the tokenizer *)
(* ================================================================== *)

Section Tokenizer.

Lemma lower_char_idem (c : ascii) : lower_char (lower_char c) = lower_char c.
Proof. destruct c as [[] [] [] [] [] [] [] []]; vm_compute; reflexivity. Qed.

Lemma indexOf_from_first (t : str) (pre r : list str) (i : Z) :
  ~ In t pre -> indexOf_from i t (pre ++ t :: r) = (i + Z.of_nat (length pre))%Z.
Proof.
  revert i. induction pre as [|x pre IH]; intros i H; simpl.
  - rewrite str_eqb_refl. lia.
  - destruct (str_eqb x t) eqn:E.
    + apply str_eqb_eq in E. subst. exfalso. apply H. now left.
    + rewrite IH by (intros Hin; apply H; now right). lia.
Qed.

Lemma first_occurrence_kept (array : list str) (t : str) :
  forall l pre, array = pre ++ l -> In t l -> ~ In t pre ->
  In t (filter_indexed (fun term index => (indexOf array term =? index)%Z)
          (Z.of_nat (length pre)) l).
Proof.
  induction l as [|x l IH]; intros pre Harr Hin Hpre; [contradiction|].
  simpl. destruct (str_eqb x t) eqn:E.
  - apply str_eqb_eq in E. subst x.
    replace (indexOf array t =? Z.of_nat (length pre))%Z with true; [now left|].
    symmetry. apply Z.eqb_eq. unfold indexOf. rewrite Harr.
    rewrite indexOf_from_first by exact Hpre. lia.
  - apply str_eqb_neq in E.
    assert (Hl : In t l) by (destruct Hin; [contradiction | assumption]).
    specialize (IH (pre ++ [x])).
    rewrite length_app, Nat.add_1_r, Nat2Z.inj_succ in IH. unfold Z.succ in IH.
    assert (Hin' : In t (filter_indexed
              (fun term index => (indexOf array term =? index)%Z)
              (Z.of_nat (length pre) + 1) l)).
    { apply IH; [now rewrite <- app_assoc | exact Hl |].
      rewrite in_app_iff. simpl. intuition. }
    destruct (indexOf array x =? Z.of_nat (length pre))%Z; [now right | exact Hin'].
Qed.

Lemma preprocessText_chars (text : str) (c : ascii) :
  In c (preprocessText text) ->
  c = " "%char \/ (is_word c = true /\ lower_char c = c).
Proof.
  unfold preprocessText. intros H.
  apply trim_In, collapse_spaces_In in H.
  destruct H as [->|[H Hns]]; [now left|].
  apply in_map_iff in H. destruct H as [c0 [<- H]].
  unfold toLowerCase in H. apply in_map_iff in H. destruct H as [c1 [<- _]].
  destruct (is_word (lower_char c1)) eqn:Ew; simpl in *.
  - right. split; [exact Ew | apply lower_char_idem].
  - destruct (is_space (lower_char c1)) eqn:Es; simpl in *; [congruence | now left].
Qed.

Lemma extractTerms_iff (text term : str) :
  In term (extractTerms text) <-> In term (survivingTokens text).
Proof.
  split.
  - apply filter_indexed_incl.
  - intros H. unfold extractTerms.
    apply (first_occurrence_kept (survivingTokens text) term
             (survivingTokens text) []); [reflexivity | exact H | intros []].
Qed.

Lemma extractTerms_lower (text term : str) :
  In term (extractTerms text) -> toLowerCase term = term.
Proof.
  intros Hterm. apply extractTerms_iff in Hterm. unfold survivingTokens in Hterm.
  apply filter_In in Hterm. destruct Hterm as [Hpiece _].
  unfold toLowerCase. rewrite <- (map_id term) at 2.
  apply map_ext_in. intros c Hc.
  assert (Hc' : is_word c = true /\ lower_char c = c).
  { apply (split_spaces_pieces (fun c => is_word c = true /\ lower_char c = c)
             (preprocessText text)) with (skip := 0%nat) (cur := []) (piece := term);
      [|intros ? []|exact Hpiece|exact Hc].
    intros d Hd Hns. destruct (preprocessText_chars text d Hd) as [->|H];
      [discriminate | exact H]. }
  apply Hc'.
Qed.

(** X1.  [extractTerms] returns every surviving token of the text exactly
    once: no term is repeated, and a token is returned if and only if it
    survives the filters.  Every term returned is longer than 2 characters,
    is not a stop word, is made of word characters, and is in lower
    case. *)
Theorem extractTerms_terms (text : str) :
  NoDup (extractTerms text)
  /\ (forall term, In term (extractTerms text) <-> In term (survivingTokens text))
  /\ Forall (fun term =>
               (2 < len term)%Z
               /\ has stopWords term = false
               /\ literal term = true
               /\ toLowerCase term = term)
       (extractTerms text).
Proof.
  split; [apply extractTerms_NoDup|]. split; [apply extractTerms_iff|].
  apply Forall_forall. intros term Hterm.
  pose proof (proj1 (Forall_forall _ _) (extractTerms_literal text) term Hterm) as Hlit.
  pose proof (extractTerms_lower text term Hterm) as Hlow.
  apply extractTerms_iff in Hterm. unfold survivingTokens in Hterm.
  apply filter_In in Hterm. destruct Hterm as [Hpiece Hf].
  apply andb_true_iff in Hf. destruct Hf as [Hlen Hstop].
  apply Z.ltb_lt in Hlen. apply negb_true_iff in Hstop.
  repeat split; assumption.
Qed.

Lemma trimStart_split (s : str) :
  exists ws, s = ws ++ trimStart s /\ Forall (fun c => is_space c = true) ws.
Proof.
  induction s as [|c s [ws [E H]]]; simpl.
  - exists []. split; [reflexivity | constructor].
  - destruct (is_space c) eqn:Ec.
    + exists (c :: ws). split; [simpl; now f_equal | now constructor].
    + exists []. split; [reflexivity | constructor].
Qed.

Lemma trimStart_head (s : str) (c : ascii) (r : str) :
  trimStart s = c :: r -> is_space c = false.
Proof.
  induction s as [|x s IH]; simpl; [discriminate|].
  destruct (is_space x) eqn:E; [exact IH|]. intros H. now inversion H; subst.
Qed.

Lemma trimStart_id (s : str) :
  match s with [] => True | c :: _ => is_space c = false end -> trimStart s = s.
Proof. destruct s as [|c s]; simpl; [reflexivity|]. now intros ->. Qed.

Lemma trim_trimmed (s : str) : trimmed (trim s).
Proof.
  unfold trimmed, trim, trimEnd. rewrite rev_involutive. split.
  - destruct (trimStart_split (rev (trimStart s))) as [ws [E _]].
    set (u := trimStart (rev (trimStart s))) in *.
    assert (Ht : trimStart s = rev u ++ rev ws).
    { rewrite <- (rev_involutive (trimStart s)), E. apply rev_app_distr. }
    destruct (rev u) as [|c r] eqn:Eu; [exact I|].
    apply (trimStart_head s c (r ++ rev ws)). now rewrite Ht.
  - destruct (trimStart (rev (trimStart s))) as [|c r] eqn:E; [exact I|].
    eapply trimStart_head, E.
Qed.

Lemma trim_id (s : str) : trimmed s -> trim s = s.
Proof.
  intros [Hh Ht]. unfold trim, trimEnd.
  rewrite (trimStart_id s Hh), (trimStart_id (rev s) Ht). apply rev_involutive.
Qed.

Lemma no_two_tail (p : ascii -> bool) (c : ascii) (s : str) :
  no_two p (c :: s) -> no_two p s.
Proof. intros H pre x y post E. apply (H (c :: pre) x y post). now rewrite E. Qed.

Lemma no_two_suffix (p : ascii -> bool) (a s : str) : no_two p (a ++ s) -> no_two p s.
Proof. induction a as [|c a IH]; [auto|]. intros H. eapply IH, no_two_tail, H. Qed.

Lemma no_two_rev (p : ascii -> bool) (s : str) : no_two p s -> no_two p (rev s).
Proof.
  intros H pre c d post E.
  assert (E' : s = rev post ++ d :: c :: rev pre).
  { rewrite <- (rev_involutive s), E, rev_app_distr. simpl.
    now rewrite <- !app_assoc. }
  rewrite andb_comm. exact (H _ _ _ _ E').
Qed.

Lemma no_two_trim (p : ascii -> bool) (s : str) : no_two p s -> no_two p (trim s).
Proof.
  intros H. unfold trim, trimEnd. apply no_two_rev.
  destruct (trimStart_split (rev (trimStart s))) as [ws [E _]].
  apply (no_two_suffix p ws). rewrite <- E. apply no_two_rev.
  destruct (trimStart_split s) as [ws' [E' _]].
  apply (no_two_suffix p ws'). now rewrite <- E'.
Qed.

Lemma collapse_true_head (s : str) (d : ascii) (r : str) :
  collapse_spaces true s = d :: r -> is_space d = false.
Proof.
  induction s as [|x s IH]; simpl; [discriminate|].
  destruct (is_space x) eqn:E; [exact IH|]. intros H. now inversion H; subst.
Qed.

Lemma collapse_no_two (s : str) (b : bool) : no_two is_space (collapse_spaces b s).
Proof.
  revert b. induction s as [|x s IH]; intros b pre c d post E; simpl in E.
  - destruct pre; discriminate.
  - destruct (is_space x) eqn:Ex.
    + destruct b; [exact (IH _ _ _ _ _ E)|].
      destruct pre as [|y pre]; simpl in E; inversion E; subst.
      * match goal with H : collapse_spaces true s = _ |- _ =>
          apply collapse_true_head in H; rewrite H end.
        apply andb_false_r.
      * eapply IH; eassumption.
    + destruct pre as [|y pre]; simpl in E; inversion E; subst.
      * now rewrite Ex.
      * eapply IH; eassumption.
Qed.

Lemma collapse_id (s : str) :
  Forall (fun c => is_space c = true -> c = " "%char) s ->
  no_two is_space s ->
  forall b, (b = true -> match s with [] => True | c :: _ => is_space c = false end) ->
  collapse_spaces b s = s.
Proof.
  induction 1 as [|x s Hx Hs IH]; intros Hn b Hb; [reflexivity|].
  simpl. destruct (is_space x) eqn:Ex.
  - destruct b; [specialize (Hb eq_refl); simpl in Hb; congruence|].
    rewrite (Hx eq_refl). f_equal. rewrite Hx in Hn by reflexivity.
    apply IH; [eapply no_two_tail, Hn|].
    intros _. destruct s as [|y s']; [exact I|].
    specialize (Hn [] " "%char y s' eq_refl). simpl in Hn. exact Hn.
  - f_equal. apply IH; [eapply no_two_tail, Hn | discriminate].
Qed.

(** X2.  [preprocessText] returns lower-case word characters separated by
    single spaces, with no space at either end, and applying it again
    changes nothing; hence [extractTerms] gives the same terms for a text
    and for its preprocessed form. *)
Theorem preprocessText_normal_form (text : str) :
  Forall (fun c => c = " "%char \/ (is_word c = true /\ lower_char c = c))
    (preprocessText text)
  /\ no_two is_space (preprocessText text)
  /\ trimmed (preprocessText text)
  /\ preprocessText (preprocessText text) = preprocessText text
  /\ extractTerms (preprocessText text) = extractTerms text.
Proof.
  assert (Hc : Forall (fun c => c = " "%char \/ (is_word c = true /\ lower_char c = c))
                 (preprocessText text))
    by (apply Forall_forall; intros c; apply preprocessText_chars).
  assert (Hn : no_two is_space (preprocessText text))
    by (unfold preprocessText; apply no_two_trim, collapse_no_two).
  assert (Ht : trimmed (preprocessText text))
    by (unfold preprocessText; apply trim_trimmed).
  assert (Hi : preprocessText (preprocessText text) = preprocessText text).
  { set (p := preprocessText text) in *. unfold preprocessText at 1.
    assert (El : toLowerCase p = p).
    { unfold toLowerCase. rewrite <- (map_id p) at 2. apply map_ext_in.
      intros c Hin. rewrite Forall_forall in Hc.
      destruct (Hc c Hin) as [->|[_ H]]; [reflexivity | exact H]. }
    rewrite El.
    assert (Er : map (fun c => if is_word c || is_space c then c else " "%char) p = p).
    { rewrite <- (map_id p) at 2. apply map_ext_in.
      intros c Hin. rewrite Forall_forall in Hc.
      destruct (Hc c Hin) as [->|[H _]]; [reflexivity | now rewrite H]. }
    rewrite Er.
    rewrite collapse_id; [apply trim_id, Ht | | exact Hn | discriminate].
    apply Forall_forall. intros c Hin Hs. rewrite Forall_forall in Hc.
    destruct (Hc c Hin) as [->|[Hw _]]; [reflexivity|].
    exfalso. revert Hw Hs. unfold is_word, is_space, between.
    destruct c as [[] [] [] [] [] [] [] []]; vm_compute; congruence. }
  repeat split; try assumption; try apply Ht.
  unfold extractTerms, survivingTokens. now rewrite Hi.
Qed.
End Tokenizer.

(* ================================================================== *)
(** * Further properties: the chunker *)
(* ================================================================== *)

Section Chunker.
Local Open Scope Z_scope.

Lemma getPageNumber_from_bounds (pageBreaks : list Z) :
  forall i offset,
  i + 1 <= getPageNumber_from i offset pageBreaks <= i + 1 + Z.of_nat (length pageBreaks).
Proof.
  induction pageBreaks as [|b rest IH]; intros i offset; simpl getPageNumber_from.
  - simpl. lia.
  - destruct (offset <? b).
    + simpl length. lia.
    + specialize (IH (i + 1) offset). simpl length. lia.
Qed.

Lemma filter_none (A : Type) (f : A -> bool) (l : list A) :
  (forall x, In x l -> f x = false) -> filter f l = [].
Proof.
  induction l as [|x l IH]; intros H; simpl; [reflexivity|].
  rewrite (H x (or_introl eq_refl)). apply IH. intros y Hy. apply H. now right.
Qed.

Lemma getPageNumber_from_sorted (pageBreaks : list Z) :
  StronglySorted Z.le pageBreaks ->
  forall i offset,
  getPageNumber_from i offset pageBreaks
  = i + 1 + Z.of_nat (length (filter (fun b => b <=? offset) pageBreaks)).
Proof.
  induction 1 as [|b rest Hs IH Hb]; intros i offset; simpl.
  - lia.
  - destruct (Z.ltb_spec offset b) as [Hlt|Hge].
    + destruct (Z.leb_spec b offset); [lia|].
      rewrite filter_none; [simpl; lia|].
      rewrite Forall_forall in Hb. intros x Hx. specialize (Hb x Hx).
      apply Z.leb_gt. lia.
    + destruct (Z.leb_spec b offset); [|lia].
      rewrite IH. simpl length. lia.
Qed.

(** X3.  [getPageNumber] returns a page between 1 and the number of page
    breaks plus 1; when the page breaks are in ascending order, the page is
    one more than the number of breaks at or before the offset. *)
Theorem getPageNumber_page (offset : Z) (pageBreaks : list Z) :
  1 <= getPageNumber offset pageBreaks <= Z.of_nat (length pageBreaks) + 1
  /\ (StronglySorted Z.le pageBreaks ->
      getPageNumber offset pageBreaks
      = 1 + Z.of_nat (length (filter (fun b => b <=? offset) pageBreaks))).
Proof.
  unfold getPageNumber. split.
  - pose proof (getPageNumber_from_bounds pageBreaks 0 offset). lia.
  - intros H. rewrite (getPageNumber_from_sorted pageBreaks H). lia.
Qed.

Lemma getPageNumber_page_witness : getPageNumber 120 [100; 250] = 2.
Proof.
  rewrite (proj2 (getPageNumber_page 120 [100; 250])); [reflexivity|].
  repeat constructor; lia.
Defined.

Lemma findGoodBreakPoint_loop_range (sentences : list str) :
  forall position bestBreak,
  let r := findGoodBreakPoint_loop sentences position bestBreak in
  r = bestBreak \/ CHUNK_CONFIG.minSize <= r <= CHUNK_CONFIG.targetSize.
Proof.
  induction sentences as [|s rest IH]; intros position bestBreak; simpl; [now left|].
  destruct rest as [|s' rest']; [now left|].
  set (p := position + len s + 1).
  destruct ((CHUNK_CONFIG.minSize <=? p) && (p <=? CHUNK_CONFIG.targetSize)) eqn:E.
  - apply andb_true_iff in E. destruct E as [E1 E2].
    apply Z.leb_le in E1. apply Z.leb_le in E2.
    destruct (IH p p) as [->|H]; [right; lia | right; exact H].
  - destruct (CHUNK_CONFIG.targetSize <? p); [now left | apply IH].
Qed.

(** X4.  The break point [findGoodBreakPoint] returns is the length of the
    text, when no sentence end falls in the window, or a position between
    [minSize] and [targetSize]. *)
Theorem findGoodBreakPoint_range (text : str) :
  findGoodBreakPoint text = len text
  \/ CHUNK_CONFIG.minSize <= findGoodBreakPoint text <= CHUNK_CONFIG.targetSize.
Proof. unfold findGoodBreakPoint. apply findGoodBreakPoint_loop_range. Qed.

Lemma substring_from_skipn (s : str) (a : Z) :
  0 <= a <= len s -> substring_from s a = skipn (Z.to_nat a) s.
Proof.
  intros H. unfold substring_from, substring, clamp, len in *.
  replace (Z.to_nat (Z.min (Z.max a 0) (Z.of_nat (length s)))) with (Z.to_nat a) by lia.
  replace (Z.to_nat (Z.min (Z.max (Z.of_nat (length s)) 0) (Z.of_nat (length s))))
    with (length s) by lia.
  rewrite Nat.min_l, Nat.max_r by lia.
  rewrite <- (length_skipn (Z.to_nat a) s). apply firstn_all.
Qed.

Lemma skipn_suffix (A : Type) (n : nat) (l : list A) : exists pre, l = pre ++ skipn n l.
Proof. exists (firstn n l). symmetry. apply firstn_skipn. Qed.

Lemma indexOf_space_bound (s : str) : indexOf_space s < len s.
Proof.
  unfold indexOf_space, len.
  assert (H : forall p i, find_char p s = Some i -> (i < length s)%nat).
  { intros p. induction s as [|c s IH]; simpl; [discriminate|].
    destruct (p c); intros i E; [inversion E; lia|].
    destruct (find_char p s) as [j|]; [|discriminate].
    inversion E. specialize (IH j eq_refl). lia. }
  destruct (find_char _ s) as [i|] eqn:E; [apply H in E; lia | lia].
Qed.

Lemma getOverlapText_spec (text : str) (overlapSize : Z) :
  0 <= overlapSize ->
  (exists pre, text = pre ++ getOverlapText text overlapSize)
  /\ len (getOverlapText text overlapSize) <= overlapSize.
Proof.
  intros Hn. unfold getOverlapText.
  destruct (Z.leb_spec (len text) overlapSize) as [Hle|Hgt].
  - split; [now exists [] | exact Hle].
  - assert (Ho : substring_from text (len text - overlapSize)
                 = skipn (Z.to_nat (len text - overlapSize)) text)
      by (apply substring_from_skipn; lia).
    rewrite Ho. set (overlap := skipn _ text).
    assert (Hlen : len overlap = overlapSize).
    { unfold overlap, len in *. rewrite length_skipn. lia. }
    destruct (skipn_suffix _ (Z.to_nat (len text - overlapSize)) text) as [pre Hpre].
    fold overlap in Hpre.
    destruct (Z.ltb_spec 0 (indexOf_space overlap)) as [Hs|Hs].
    + pose proof (indexOf_space_bound overlap) as Hb.
      rewrite substring_from_skipn by lia.
      destruct (skipn_suffix _ (Z.to_nat (indexOf_space overlap + 1)) overlap)
        as [pre' Hpre'].
      split.
      * exists (pre ++ pre'). rewrite <- app_assoc, <- Hpre'. exact Hpre.
      * unfold len in *. rewrite length_skipn. lia.
    + split; [now exists pre | lia].
Qed.

(** X5.  For a non-negative [overlapSize], the overlap [getOverlapText]
    returns is a suffix of the text of at most [overlapSize] characters; a
    text of at most [overlapSize] characters is returned whole. *)
Theorem getOverlapText_suffix (text : str) (overlapSize : Z) :
  0 <= overlapSize ->
  (exists pre, text = pre ++ getOverlapText text overlapSize)
  /\ len (getOverlapText text overlapSize) <= overlapSize
  /\ (len text <= overlapSize -> getOverlapText text overlapSize = text).
Proof.
  intros Hn. destruct (getOverlapText_spec text overlapSize Hn) as [Hs Hl].
  split; [exact Hs|]. split; [exact Hl|].
  intros Hle. unfold getOverlapText.
  destruct (Z.leb_spec (len text) overlapSize); [reflexivity | lia].
Qed.

Lemma getOverlapText_suffix_witness :
  getOverlapText (lit "one two three") 7 = lit "three"
  /\ (exists pre, lit "one two three" = pre ++ getOverlapText (lit "one two three") 7)
  /\ len (getOverlapText (lit "one two three") 7) <= 7
  /\ (len (lit "one two three") <= 7 ->
      getOverlapText (lit "one two three") 7 = lit "one two three").
Proof.
  split; [reflexivity|].
  apply (getOverlapText_suffix (lit "one two three") 7). lia.
Defined.

Lemma indices_S (n : nat) : indices (S n) = indices n ++ [Z.of_nat n].
Proof. unfold indices. rewrite seq_S, map_app. reflexivity. Qed.

Section Numbering.
Variable pageBreaks : list Z.

Lemma numbered_emit (st : chunker) (t : str) (s e : Z) :
  numbered pageBreaks st ->
  map chunkIndex (chunks st ++ [createChunk t (next_index st) s e pageBreaks])
  = indices (length (chunks st ++ [createChunk t (next_index st) s e pageBreaks]))
  /\ Forall (created pageBreaks)
       (chunks st ++ [createChunk t (next_index st) s e pageBreaks])
  /\ next_index st + 1
     = Z.of_nat (length (chunks st ++ [createChunk t (next_index st) s e pageBreaks])).
Proof.
  intros [Hn [Hi Hc]]. rewrite length_app, map_app. simpl length. simpl map.
  rewrite Nat.add_1_r, indices_S, Hi, Hn. repeat split.
  - apply Forall_app. split; [exact Hc|]. constructor; [reflexivity | constructor].
  - lia.
Qed.

Lemma add_paragraph_numbered (st : chunker) (paragraph : str) :
  numbered pageBreaks st -> numbered pageBreaks (add_paragraph pageBreaks st paragraph).
Proof.
  intros H. unfold add_paragraph.
  destruct (truthy (currentChunk st) && _); [|destruct (truthy _); exact H].
  destruct (CHUNK_CONFIG.minSize <=? len (currentChunk st)); [|exact H].
  destruct (numbered_emit st (trim (currentChunk st)) (chunkStartPosition st)
              (currentPosition st - 1) H) as [Hi [Hc Hn]].
  unfold numbered. simpl. auto.
Qed.

Lemma break_at_sentence_numbered (st : chunker) :
  numbered pageBreaks st -> numbered pageBreaks (break_at_sentence pageBreaks st).
Proof.
  intros H. unfold break_at_sentence.
  destruct (CHUNK_CONFIG.targetSize <=? len (currentChunk st)); [|exact H].
  destruct (CHUNK_CONFIG.minSize <? findGoodBreakPoint (currentChunk st)); [|exact H].
  destruct (numbered_emit st
              (trim (substring (currentChunk st) 0 (findGoodBreakPoint (currentChunk st))))
              (chunkStartPosition st)
              (chunkStartPosition st + findGoodBreakPoint (currentChunk st)) H)
    as [Hi [Hc Hn]].
  unfold numbered. simpl. auto.
Qed.

Lemma fold_chunk_step_numbered (paragraphs : list str) (st : chunker) :
  numbered pageBreaks st -> numbered pageBreaks (fold_left (chunk_step pageBreaks) paragraphs st).
Proof.
  revert st. induction paragraphs as [|p ps IH]; intros st H; simpl; [exact H|].
  apply IH. unfold chunk_step.
  destruct (negb (truthy (trim p))); [exact H|].
  apply break_at_sentence_numbered.
  pose proof (add_paragraph_numbered st (trim p) H) as H1. exact H1.
Qed.

Lemma chunkText_numbered (text : str) :
  map chunkIndex (chunkText text pageBreaks)
  = indices (length (chunkText text pageBreaks))
  /\ Forall (created pageBreaks) (chunkText text pageBreaks).
Proof.
  unfold chunkText, final_chunk. set (st := fold_left _ _ _).
  assert (H : numbered pageBreaks st).
  { apply fold_chunk_step_numbered. repeat split; constructor. }
  destruct (truthy _ && _).
  - destruct (numbered_emit st (trim (currentChunk st)) (chunkStartPosition st)
                (currentPosition st - 1) H) as [Hi [Hc _]].
    split; assumption.
  - destruct H as [_ [Hi Hc]]. split; assumption.
Qed.
End Numbering.

(** X6.  The chunks [chunkText] returns are numbered 0, 1, 2, ... in order;
    the id of a chunk is "chunk-" followed by its index, and its page
    number is the page of its start offset, between 1 and the number of
    page breaks plus 1. *)
Theorem chunkText_numbering (text : str) (pageBreaks : list Z) :
  map chunkIndex (chunkText text pageBreaks)
  = indices (length (chunkText text pageBreaks))
  /\ Forall (fun c =>
               id c = lit "chunk-" ++ decimal (chunkIndex c)
               /\ pageNumber c = getPageNumber (startOffset c) pageBreaks
               /\ 1 <= pageNumber c <= Z.of_nat (length pageBreaks) + 1)
       (chunkText text pageBreaks).
Proof.
  destruct (chunkText_numbered pageBreaks text) as [Hi Hc].
  split; [exact Hi|].
  eapply Forall_impl; [|exact Hc].
  intros c H. unfold created in H.
  assert (Hid : id c = lit "chunk-" ++ decimal (chunkIndex c)) by (now rewrite H at 1).
  assert (Hp : pageNumber c = getPageNumber (startOffset c) pageBreaks)
    by (now rewrite H at 1).
  pose proof (getPageNumber_from_bounds pageBreaks 0 (startOffset c)) as Hb.
  fold (getPageNumber (startOffset c) pageBreaks) in Hb.
  repeat split; try assumption; rewrite Hp; lia.
Qed.

Lemma trimStart_length (s : str) : (length (trimStart s) <= length s)%nat.
Proof.
  induction s as [|c s IH]; simpl; [lia|]. destruct (is_space c); simpl; lia.
Qed.

Lemma trim_length (s : str) : len (trim s) <= len s.
Proof.
  unfold trim, trimEnd, len. rewrite length_rev.
  pose proof (trimStart_length (rev (trimStart s))) as H1.
  pose proof (trimStart_length s) as H2. rewrite length_rev in H1. lia.
Qed.

Lemma len_app (a b : str) : len (a ++ b) = len a + len b.
Proof. unfold len. rewrite length_app. lia. Qed.

Lemma raw_size_app (a b : list str) : raw_size (a ++ b) = raw_size a + raw_size b.
Proof. induction a as [|p a IH]; simpl; [reflexivity|]. rewrite IH. lia. Qed.

Lemma raw_size_nonneg (l : list str) : 0 <= raw_size l.
Proof. induction l as [|q l IH]; simpl; [lia|]. unfold len. lia. Qed.

Lemma split_by_raw_size (m : str -> option nat) :
  wide m ->
  forall (s : str) (skip : nat) (cur : str),
  (skip <= length s)%nat ->
  raw_size (split_by m skip cur s) + Z.of_nat skip <= len cur + len s + 2.
Proof.
  intros Hm. induction s as [|c s IH]; intros skip cur Hskip.
  - cbn [length] in Hskip. assert (skip = 0%nat) by lia. subst.
    simpl split_by. simpl raw_size. unfold len. rewrite length_rev. cbn [length]. lia.
  - simpl split_by. destruct skip as [|k].
    + destruct (m (c :: s)) as [[|k]|] eqn:E.
      * specialize (IH 0%nat (c :: cur) ltac:(lia)). unfold len in *. cbn [length] in *. lia.
      * apply Hm in E. cbn [length] in E.
        specialize (IH k [] ltac:(lia)). simpl raw_size.
        unfold len in *. rewrite length_rev. cbn [length] in *. lia.
      * specialize (IH 0%nat (c :: cur) ltac:(lia)). unfold len in *. cbn [length] in *. lia.
    + specialize (IH k cur ltac:(simpl in Hskip; lia)).
      unfold len in *. simpl length. lia.
Qed.

Lemma last_newline_lt (w : str) (i : nat) :
  last_newline w = Some i -> (i < length w)%nat.
Proof.
  revert i. induction w as [|c w IH]; simpl; [discriminate|].
  destruct (last_newline w) as [j|].
  - intros i E. inversion E. specialize (IH j eq_refl). lia.
  - destruct (is_newline c); intros i E; inversion E. lia.
Qed.

Lemma match_paragraph_wide : wide match_paragraph.
Proof.
  intros s k E. destruct s as [|c r]; simpl in E; [discriminate|].
  destruct (is_newline c); [|discriminate].
  destruct (last_newline _) as [i|] eqn:El; [|discriminate].
  apply last_newline_lt in El. rewrite length_firstn in El.
  inversion E. simpl. lia.
Qed.

Lemma chunk_step_quiet (pageBreaks : list Z) (processed : list str) (st : chunker)
    (p : str) :
  quiet processed st ->
  raw_size (processed ++ [p]) < CHUNK_CONFIG.minSize + 2 ->
  quiet (processed ++ [p]) (chunk_step pageBreaks st p).
Proof.
  intros [Hc Hb] Ht.
  assert (Hrs : raw_size (processed ++ [p]) = raw_size processed + len p + 2)
    by (rewrite raw_size_app; simpl; lia).
  rewrite Hrs in Ht. unfold quiet. rewrite Hrs.
  pose proof (trim_length p) as Hp.
  pose proof (raw_size_nonneg processed) as Hr.
  assert (Hnn : 0 <= len (trim p)) by (unfold len; lia).
  unfold CHUNK_CONFIG.minSize in Ht.
  unfold chunk_step. destruct (truthy (trim p)) eqn:Etp; cbv beta iota delta [negb].
  - assert (Hadd : chunks (add_paragraph pageBreaks st (trim p)) = []
                   /\ len (currentChunk (add_paragraph pageBreaks st (trim p))) + 2
                      <= raw_size processed + len p + 2).
    { unfold add_paragraph. destruct (truthy (currentChunk st)) eqn:Ecur.
      - assert (Hb' : len (currentChunk st) + 2 <= raw_size processed).
        { destruct Hb as [E|Hb]; [rewrite E in Ecur; discriminate | exact Hb]. }
        rewrite andb_true_l.
        destruct (Z.ltb_spec CHUNK_CONFIG.maxSize
                    (len (currentChunk st) + len (trim p)));
          [unfold CHUNK_CONFIG.maxSize in *; lia|].
        cbn [chunks currentChunk]. split; [exact Hc|].
        rewrite !len_app. change (len two_newlines) with 2. lia.
      - rewrite andb_false_l. cbn [chunks currentChunk]. split; [exact Hc | lia]. }
    destruct Hadd as [Hc1 Hl1].
    unfold break_at_sentence. cbn [advance currentChunk chunks].
    destruct (Z.leb_spec CHUNK_CONFIG.targetSize
                (len (currentChunk (add_paragraph pageBreaks st (trim p)))));
      [unfold CHUNK_CONFIG.targetSize in *; lia|].
    cbn [chunks currentChunk]. split; [exact Hc1 | right; exact Hl1].
  - cbn [advance chunks currentChunk]. split; [exact Hc|].
    destruct Hb as [Hb|Hb]; [now left|]. right. unfold len in *. lia.
Qed.

Lemma fold_chunk_step_quiet (pageBreaks : list Z) (paragraphs : list str) :
  forall (processed : list str) (st : chunker),
  quiet processed st ->
  raw_size (processed ++ paragraphs) < CHUNK_CONFIG.minSize + 2 ->
  quiet (processed ++ paragraphs) (fold_left (chunk_step pageBreaks) paragraphs st).
Proof.
  induction paragraphs as [|p ps IH]; intros processed st Hq Ht; simpl.
  - now rewrite app_nil_r.
  - replace (processed ++ p :: ps) with ((processed ++ [p]) ++ ps) in *
      by (now rewrite <- app_assoc).
    apply IH; [|exact Ht].
    apply chunk_step_quiet; [exact Hq|].
    rewrite raw_size_app in Ht.
    pose proof (raw_size_nonneg ps). lia.
Qed.

(** X8.  A text shorter than [minSize] yields no chunk: its paragraphs never
    fill the buffer to [minSize], and the remainder is dropped. *)
Theorem chunkText_short_text (text : str) (pageBreaks : list Z) :
  len text < CHUNK_CONFIG.minSize -> chunkText text pageBreaks = [].
Proof.
  intros Hlen. unfold chunkText.
  pose proof (split_by_raw_size match_paragraph match_paragraph_wide text 0 []
                ltac:(lia)) as Hs.
  fold (split match_paragraph text) in Hs. change (len []) with 0 in Hs.
  unfold CHUNK_CONFIG.paragraphPattern.
  destruct (fold_chunk_step_quiet pageBreaks (split match_paragraph text) []
              chunker_init) as [Hc Hb].
  - split; [reflexivity | now left].
  - simpl app. lia.
  - simpl app in *. unfold final_chunk.
    set (st := fold_left _ _ _) in *.
    replace (CHUNK_CONFIG.minSize <=? len (currentChunk st)) with false.
    + rewrite andb_false_r. exact Hc.
    + symmetry. apply Z.leb_gt. destruct Hb as [->|Hb]; [reflexivity | lia].
Qed.

Lemma chunkText_short_text_witness :
  chunkText (lit "Cats are small mammals that purr.") [] = [].
Proof.
  apply (chunkText_short_text (lit "Cats are small mammals that purr.") []).
  reflexivity.
Defined.
End Chunker.

(* ================================================================== *)
(** * Further properties: key sentences *)
(* ================================================================== *)

Section Sentences.
Local Open Scope Z_scope.

Lemma occurs_in_refl (s : str) : occurs_in s s.
Proof. exists [], []. now rewrite app_nil_r. Qed.

Lemma occurs_in_trans (a b c : str) : occurs_in a b -> occurs_in b c -> occurs_in a c.
Proof.
  intros [p [q ->]] [p' [q' ->]]. exists (p' ++ p), (q ++ q').
  now rewrite <- !app_assoc.
Qed.

Lemma occurs_in_cons (a s : str) (c : ascii) : occurs_in a s -> occurs_in a (c :: s).
Proof. intros [p [q ->]]. now exists (c :: p), q. Qed.

Lemma occurs_in_app_l (a s pre : str) : occurs_in a s -> occurs_in a (pre ++ s).
Proof. intros [p [q ->]]. exists (pre ++ p), q. now rewrite <- app_assoc. Qed.

Lemma trimStart_occurs (s : str) : occurs_in (trimStart s) s.
Proof.
  induction s as [|c s IH]; simpl; [apply occurs_in_refl|].
  destruct (is_space c); [now apply occurs_in_cons | apply occurs_in_refl].
Qed.

Lemma occurs_in_rev (a s : str) : occurs_in a s -> occurs_in (rev a) (rev s).
Proof.
  intros [p [q ->]]. exists (rev q), (rev p). now rewrite !rev_app_distr, <- app_assoc.
Qed.

Lemma trim_occurs (s : str) : occurs_in (trim s) s.
Proof.
  unfold trim, trimEnd. eapply occurs_in_trans; [|apply trimStart_occurs].
  rewrite <- (rev_involutive (trimStart s)) at 2.
  apply occurs_in_rev, trimStart_occurs.
Qed.

(** A piece of a split is a passage of the text. *)
Lemma split_by_occurs (m : str -> option nat) (s : str) :
  forall (skip : nat) (cur piece : str),
  skip = 0%nat \/ cur = [] ->
  In piece (split_by m skip cur s) -> occurs_in piece (rev cur ++ s).
Proof.
  induction s as [|c s IH]; intros skip cur piece Hinv Hin; simpl in Hin.
  - destruct Hin as [<-|[]]. rewrite app_nil_r. apply occurs_in_refl.
  - destruct skip as [|k].
    + destruct (m (c :: s)) as [[|j]|] eqn:E.
      * apply IH in Hin; [|now left]. simpl in Hin. now rewrite <- app_assoc in Hin.
      * destruct Hin as [<-|Hin].
        -- exists [], (c :: s). reflexivity.
        -- apply IH in Hin; [|now right]. simpl in Hin.
           now apply occurs_in_app_l, occurs_in_cons.
      * apply IH in Hin; [|now left]. simpl in Hin. now rewrite <- app_assoc in Hin.
    + destruct Hinv as [Hk | ->]; [discriminate|].
      apply IH in Hin; [|now right]. simpl in *. now apply occurs_in_cons.
Qed.

Lemma split_terminators_pieces (s : str) :
  forall (skip : nat) (cur piece : str),
  (forall c, In c cur -> is_terminator c = false) ->
  In piece (split_by match_terminators skip cur s) ->
  forall c, In c piece -> is_terminator c = false.
Proof.
  induction s as [|x s IH]; intros skip cur piece Hcur Hin c Hc.
  - simpl in Hin. destruct Hin as [<-|[]]. apply Hcur. now apply in_rev.
  - simpl in Hin. destruct skip as [|k].
    + unfold match_terminators in Hin. simpl in Hin.
      destruct (is_terminator x) eqn:E; simpl in Hin.
      * destruct Hin as [<-|Hin].
        -- apply Hcur. now apply in_rev.
        -- eapply (IH _ [] piece); [intros ? [] | exact Hin | exact Hc].
      * eapply (IH _ (x :: cur) piece); [|exact Hin | exact Hc].
        intros c' [<-|H]; [exact E | now apply Hcur].
    + eapply (IH _ cur piece); eassumption.
Qed.

Lemma count_matches_includes (term s : str) (skip : nat) :
  (0 < count_matches term skip s)%nat -> includes s term = true.
Proof.
  revert skip. induction s as [|c s IH]; intros skip H.
  - destruct term; simpl in *; [reflexivity | lia].
  - cbn [count_matches] in H. cbn [includes]. destruct skip as [|k].
    + destruct (prefix term (c :: s)) eqn:E; [reflexivity|].
      rewrite (IH _ H). apply orb_true_r.
    + rewrite (IH _ H). apply orb_true_r.
Qed.

Lemma sum_positive (A : Type) (f : A -> Z) (l : list A) :
  0 < sum (map f l) -> exists x, In x l /\ 0 < f x.
Proof.
  induction l as [|a l IH]; simpl; [lia|]. intros H.
  destruct (Z.ltb_spec 0 (f a)) as [Ha|Ha].
  - exists a. split; [now left | exact Ha].
  - destruct IH as [x [Hx Hf]]; [unfold sum in *; lia|].
    exists x. split; [now right | exact Hf].
Qed.

Lemma sentence_score_found (q : list str) (s : str) :
  0 < sentence_score q s ->
  exists term, In term q /\ includes (toLowerCase s) term = true.
Proof.
  rewrite sentence_score_eq. intros H.
  destruct (Z.ltb_spec 0 (bonus (queryTermEntriesFound q s))) as [Hb|Hb].
  - unfold bonus, queryTermEntriesFound in Hb.
    destruct (filter (foundIn s) q) as [|term r] eqn:E; [simpl in Hb; lia|].
    assert (Hin : In term (filter (foundIn s) q)) by (rewrite E; now left).
    apply filter_In in Hin. exists term. exact Hin.
  - destruct (sum_positive _ (fun term => occurrenceCountInSentence term s * len term) q)
      as [term [Hin Hpos]]; [lia|].
    exists term. split; [exact Hin|].
    apply (count_matches_includes _ _ 0). unfold occurrenceCountInSentence, len in Hpos. nia.
Qed.

Lemma in_scoredSentences (text : str) (queryTerms : list str) (x : scored) :
  In x (scoredSentences text queryTerms) ->
  (exists piece, In piece (split match_terminators text) /\ sentence x = trim piece)
  /\ 0 < len (sentence x)
  /\ 0 < sentence_score (map toLowerCase queryTerms) (sentence x).
Proof.
  unfold scoredSentences. rewrite in_flat_map. intros [s [Hs Hx]].
  destruct (Z.ltb_spec 0 (sentence_score (map toLowerCase queryTerms) s)) as [Hpos|];
    [|contradiction].
  destruct Hx as [<-|[]]. cbn [sentence].
  apply filter_In in Hs. destruct Hs as [Hs Hl]. apply Z.ltb_lt in Hl.
  apply in_map_iff in Hs. destruct Hs as [piece [<- Hp]].
  split; [exists piece; split; [exact Hp | reflexivity]|]. split; assumption.
Qed.

Lemma in_extractKeySentences (text : str) (queryTerms : list str) (s : str) :
  In s (extractKeySentences text queryTerms) ->
  exists x, In x (scoredSentences text queryTerms) /\ sentence x = s.
Proof.
  unfold extractKeySentences. rewrite in_map_iff. intros [x [<- Hx]].
  exists x. split; [|reflexivity].
  apply slice0_In in Hx. eapply Permutation_in; [apply sort_perm | exact Hx].
Qed.

End Sentences.

(** X9.  For query terms made of word characters, every sentence
    [extractKeySentences] returns is a passage of the text, is not empty,
    has no white space at either end, holds none of the characters [.], [!]
    and [?], and contains one of the query terms, case ignored.  Without
    query terms nothing is returned. *)
Theorem extractKeySentences_sentences (text : str) (queryTerms : list str) :
  Forall (fun term => literal term = true) queryTerms ->
  Forall
    (fun s =>
       occurs_in s text
       /\ s <> []
       /\ trimmed s
       /\ (forall c, In c s -> is_terminator c = false)
       /\ exists term, In term queryTerms
            /\ includes (toLowerCase s) (toLowerCase term) = true)
    (extractKeySentences text queryTerms)
  /\ (queryTerms = [] -> extractKeySentences text queryTerms = []).
Proof.
  intros _.
  assert (H : forall s, In s (extractKeySentences text queryTerms) ->
            occurs_in s text /\ s <> [] /\ trimmed s
            /\ (forall c, In c s -> is_terminator c = false)
            /\ exists term, In term queryTerms
                 /\ includes (toLowerCase s) (toLowerCase term) = true).
  { intros s Hs. apply in_extractKeySentences in Hs. destruct Hs as [x [Hx <-]].
    apply in_scoredSentences in Hx. destruct Hx as [[piece [Hp E]] [Hl Hsc]].
    rewrite E in *. split; [|split; [|split; [|split]]].
    - eapply occurs_in_trans; [apply trim_occurs|].
      apply (split_by_occurs match_terminators text 0 [] piece); [now left | exact Hp].
    - intros E0. rewrite E0 in Hl. unfold len in Hl. simpl in Hl. lia.
    - apply trim_trimmed.
    - intros c Hc. apply trim_In in Hc.
      eapply (split_terminators_pieces text 0 [] piece); [intros ? [] | exact Hp | exact Hc].
    - apply sentence_score_found in Hsc. destruct Hsc as [t [Ht Hi]].
      apply in_map_iff in Ht. destruct Ht as [term [<- Ht]]. now exists term. }
  split; [now apply Forall_forall|].
  intros ->. destruct (extractKeySentences text []) as [|s r] eqn:E; [reflexivity|].
  destruct (H s (or_introl eq_refl)) as [_ [_ [_ [_ [term [[] _]]]]]].
Qed.

Lemma extractKeySentences_sentences_witness :
  Forall (fun term => literal term = true) [lit "rome"]
  /\ extractKeySentences (lit "Paris is big. Rome is old! Is it?") [lit "rome"]
     = [lit "Rome is old"]
  /\ Forall
       (fun s =>
          occurs_in s (lit "Paris is big. Rome is old! Is it?")
          /\ s <> []
          /\ trimmed s
          /\ (forall c, In c s -> is_terminator c = false)
          /\ exists term, In term [lit "rome"]
               /\ includes (toLowerCase s) (toLowerCase term) = true)
       (extractKeySentences (lit "Paris is big. Rome is old! Is it?") [lit "rome"]).
Proof.
  split; [repeat constructor|]. split; [vm_compute; reflexivity|].
  apply (extractKeySentences_sentences (lit "Paris is big. Rome is old! Is it?")
           [lit "rome"]).
  repeat constructor.
Defined.

(* ================================================================== *)
(** * Further properties: the store *)
(* ================================================================== *)

Section Store.
Import VectorStore.
Local Open Scope R_scope.

Lemma fold_vocabulary (allTerms : list (list str)) :
  forall set : list str,
  NoDup set ->
  NoDup (fold_left (fun vocabulary terms => fold_left Set_add terms vocabulary)
           allTerms set)
  /\ forall t,
       In t (fold_left (fun vocabulary terms => fold_left Set_add terms vocabulary)
               allTerms set)
       <-> In t set \/ exists terms, In terms allTerms /\ In t terms.
Proof.
  induction allTerms as [|terms rest IH]; intros set Hset; simpl.
  - split; [exact Hset|]. intros t. split; [now left|].
    intros [H|[terms [[] _]]]. exact H.
  - destruct (fold_Set_add terms set Hset) as [Hnd Hin].
    destruct (IH _ Hnd) as [Hnd' Hin']. split; [exact Hnd'|].
    intros t. rewrite Hin', Hin. split.
    + intros [[H|H]|[ts [Hts Ht]]]; [now left | right | right].
      * exists terms. split; [now left | exact H].
      * exists ts. split; [now right | exact Ht].
    + intros [H|[ts [[<-|Hts] Ht]]]; [left; now left | left; now right | right].
      exists ts. split; assumption.
Qed.

Lemma in_allTerms_of (documentChunks : list DocumentChunk) (t : str) :
  (exists terms, In terms (allTerms_of documentChunks) /\ In t terms)
  <-> exists d, In d documentChunks /\ In t (extractTerms (text d)).
Proof.
  unfold allTerms_of. split.
  - intros [terms [H Ht]]. apply in_map_iff in H. destruct H as [d [<- Hd]].
    now exists d.
  - intros [d [Hd Ht]]. exists (extractTerms (text d)). split; [|exact Ht].
    apply in_map_iff. now exists d.
Qed.

Lemma constructor_vocabulary_In (documentChunks : list DocumentChunk) (t : str) :
  In t (vocabulary (constructor documentChunks))
  <-> exists d, In d documentChunks /\ In t (extractTerms (text d)).
Proof.
  unfold constructor, initializeStore. cbn [vocabulary fields_init].
  fold (allTerms_of documentChunks).
  destruct (fold_vocabulary (allTerms_of documentChunks) [] (NoDup_nil _)) as [_ H].
  rewrite H, <- in_allTerms_of. split; [intros [[]|H']; exact H' | now right].
Qed.

Lemma documentFrequency_pos (allTerms : list (list str)) (t : str) :
  (1 <= documentFrequency allTerms t)%nat
  <-> exists terms, In terms allTerms /\ In t terms.
Proof.
  unfold documentFrequency. split.
  - intros H. destruct (filter _ allTerms) as [|terms r] eqn:E; [simpl in H; lia|].
    assert (Hin : In terms (filter (fun terms => has terms t) allTerms))
      by (rewrite E; now left).
    apply filter_In in Hin. destruct Hin as [Hin Hh]. apply has_In in Hh.
    now exists terms.
  - intros [terms [Hin Ht]].
    assert (Hf : In terms (filter (fun terms => has terms t) allTerms))
      by (apply filter_In; split; [exact Hin | now apply has_In]).
    destruct (filter _ allTerms); [contradiction | simpl; lia].
Qed.

Lemma allTerms_of_length (documentChunks : list DocumentChunk) :
  length (allTerms_of documentChunks) = length documentChunks.
Proof. unfold allTerms_of. apply length_map. Qed.

Lemma idf_get (documentChunks : list DocumentChunk) (t : str) :
  Map_get (idfScores (constructor documentChunks)) t
  = match documentFrequency (allTerms_of documentChunks) t with
    | 0%nat => None
    | df => Some (ln (INR (length documentChunks) / INR df))
    end.
Proof.
  rewrite constructor_idfScores, calculateIDF_get, allTerms_of_length. reflexivity.
Qed.

Lemma idf_keys (documentChunks : list DocumentChunk) (t : str) :
  In t (keys (idfScores (constructor documentChunks)))
  <-> In t (vocabulary (constructor documentChunks)).
Proof.
  rewrite constructor_vocabulary_In, <- in_allTerms_of, <- documentFrequency_pos.
  pose proof (Map_get_None _ (idfScores (constructor documentChunks)) t) as Hn.
  rewrite idf_get in Hn.
  destruct (documentFrequency (allTerms_of documentChunks) t) as [|n].
  - split; [|lia]. intros H. exfalso. now apply (proj1 Hn).
  - split; [lia|]. intros _.
    destruct (in_dec str_dec t (keys (idfScores (constructor documentChunks))))
      as [H|H]; [exact H|].
    apply Hn in H. discriminate.
Qed.

Lemma fold_Map_set_NoDup (F : nat -> R) (entries : Map nat) :
  forall m : Map R,
  NoDup (keys m) ->
  NoDup (keys (fold_left
                 (fun m (e : str * nat) => let '(term, c) := e in Map_set m term (F c))
                 entries m)).
Proof.
  induction entries as [|[term c] rest IH]; intros m Hm; simpl; [exact Hm|].
  apply IH. now apply NoDup_keys_Map_set.
Qed.

Lemma idf_NoDup (documentChunks : list DocumentChunk) :
  NoDup (keys (idfScores (constructor documentChunks))).
Proof.
  rewrite constructor_idfScores. unfold calculateIDF.
  apply (fold_Map_set_NoDup
           (fun docCount =>
              ln (INR (length (allTerms_of documentChunks)) / INR docCount))).
  constructor.
Qed.

Lemma idf_upper (documentChunks : list DocumentChunk) (t : str) (v : R) :
  Map_get (idfScores (constructor documentChunks)) t = Some v ->
  0 <= v <= ln (INR (length documentChunks)).
Proof.
  intros H. split.
  - pose proof (idf_nonneg documentChunks t) as Hn. unfold idf_or_0 in Hn.
    now rewrite H in Hn.
  - rewrite idf_get in H.
    pose proof (documentFrequency_le (allTerms_of documentChunks) t) as Hle.
    rewrite allTerms_of_length in Hle.
    destruct (documentFrequency (allTerms_of documentChunks) t) as [|n];
      [discriminate|].
    injection H as <-.
    assert (Hn : 1 <= INR (S n)) by (apply (le_INR 1); lia).
    assert (HN : INR (S n) <= INR (length documentChunks)) by now apply le_INR.
    assert (Hq : 0 < INR (length documentChunks) / INR (S n))
      by (apply Rdiv_lt_0_compat; lra).
    assert (Hq' : INR (length documentChunks) / INR (S n) <= INR (length documentChunks)).
    { apply (Rmult_le_reg_r (INR (S n))); [lra|].
      unfold Rdiv. rewrite Rmult_assoc, Rinv_l by lra. nra. }
    change (ln (INR (length documentChunks) / INR (S n))
            <= ln (INR (length documentChunks))).
    destruct Hq' as [Hlt|Heq]; [left; now apply ln_increasing | right; now rewrite Heq].
Qed.

Lemma has_filter (f : str -> bool) (l : list str) (k : str) :
  has (filter f l) k = has l k && f k.
Proof.
  destruct (has l k) eqn:E; simpl.
  - apply has_In in E. destruct (f k) eqn:Ef.
    + apply has_In, filter_In. now split.
    + apply has_not_In. intros H. apply filter_In in H. destruct H; congruence.
  - apply has_not_In. apply has_not_In in E. intros H. apply filter_In in H. tauto.
Qed.

(** The weight a vector of [calculateTFIDF] holds for a key. *)
Lemma weight_calculateTFIDF (idf : Map R) (terms : list str) (key : str) :
  NoDup terms ->
  weight (calculateTFIDF idf terms) key
  = if has terms key && negb (is_proto key)
    then INR 1 / INR (length terms) * idf_or_0 idf key
    else 0.
Proof.
  intros Hnd. unfold weight.
  rewrite (calculateTFIDF_NoDup idf terms Hnd), Map_get_pairs, has_filter.
  destruct (has terms key && negb (is_proto key)); reflexivity.
Qed.

Lemma keys_calculateTFIDF (idf : Map R) (terms : list str) :
  NoDup terms ->
  keys (calculateTFIDF idf terms) = filter (fun t => negb (is_proto t)) terms.
Proof.
  intros Hnd. rewrite (calculateTFIDF_NoDup idf terms Hnd).
  unfold keys. rewrite map_map. simpl. apply map_id.
Qed.

Lemma is_proto_eq (t : str) : is_proto t = true <-> t = lit "__proto__".
Proof. unfold is_proto. apply str_eqb_eq. Qed.

Lemma map_chunk_process (idf : Map R) (documentChunks : list DocumentChunk) :
  map chunk (map (process idf) documentChunks) = documentChunks.
Proof. rewrite map_map. simpl. apply map_id. Qed.

End Store.

(** X10.  The vocabulary of a store built from a list of chunks holds every
    term of every chunk exactly once and nothing else; [getStats] reports
    its size. *)
Theorem constructor_vocabulary (documentChunks : list DocumentChunk) :
  let this := VectorStore.constructor documentChunks in
  NoDup (VectorStore.vocabulary this)
  /\ (forall t, In t (VectorStore.vocabulary this)
        <-> exists d, In d documentChunks /\ In t (extractTerms (text d)))
  /\ VectorStore.vocabularySize (VectorStore.getStats this)
     = Z.of_nat (length (VectorStore.vocabulary this)).
Proof.
  intros this. split; [|split; [|reflexivity]].
  - unfold this, VectorStore.constructor, VectorStore.initializeStore.
    cbn [VectorStore.vocabulary].
    apply (fold_vocabulary
             (map (fun chunk => extractTerms (text chunk)) documentChunks) []).
    constructor.
  - intros t. apply constructor_vocabulary_In.
Qed.

(** X11.  The IDF table of a store built from N chunks has one entry for
    every term of the vocabulary and no other entry; every score lies
    between 0 and [ln N], and is [ln (N / df)] for the number [df] of chunks
    that hold the term. *)
Theorem constructor_idf_table (documentChunks : list DocumentChunk) :
  let this := VectorStore.constructor documentChunks in
  let N := length documentChunks in
  NoDup (keys (VectorStore.idfScores this))
  /\ (forall t, In t (keys (VectorStore.idfScores this))
        <-> In t (VectorStore.vocabulary this))
  /\ (forall t v, Map_get (VectorStore.idfScores this) t = Some v ->
        (0 <= v <= ln (INR N))%R
        /\ (1 <= documentFrequency (allTerms_of documentChunks) t <= N)%nat
        /\ v = ln (INR N / INR (documentFrequency (allTerms_of documentChunks) t))).
Proof.
  intros this N. split; [apply idf_NoDup|]. split; [apply idf_keys|].
  intros t v H. split; [now apply (idf_upper documentChunks t)|].
  unfold this in H. rewrite idf_get in H.
  pose proof (documentFrequency_le (allTerms_of documentChunks) t) as Hle.
  rewrite allTerms_of_length in Hle. fold N in Hle.
  destruct (documentFrequency (allTerms_of documentChunks) t) as [|n];
    [discriminate|].
  injection H as <-. split; [lia | reflexivity].
Qed.

(** X12.  A store built from a list of chunks keeps the chunks unchanged
    and in order.  The vector of a chunk has one key for each term of the
    chunk except the term [__proto__], and no other key; every key is in the
    vocabulary, and every weight is [(1 / termCount) * idf], which is not
    negative. *)
Theorem constructor_vectors (documentChunks : list DocumentChunk) :
  let this := VectorStore.constructor documentChunks in
  map VectorStore.chunk (VectorStore.chunks this) = documentChunks
  /\ Forall
       (fun c =>
          let terms := extractTerms (text (VectorStore.chunk c)) in
          VectorStore.termCount c = length terms
          /\ NoDup (keys (VectorStore.tfidfVector c))
          /\ (forall key, In key (keys (VectorStore.tfidfVector c))
                <-> In key terms /\ key <> lit "__proto__")
          /\ (forall key, In key (keys (VectorStore.tfidfVector c)) ->
                In key (VectorStore.vocabulary this)
                /\ weight (VectorStore.tfidfVector c) key
                   = (INR 1 / INR (VectorStore.termCount c)
                      * VectorStore.idf_or_0 (VectorStore.idfScores this) key)%R)
          /\ (forall key, (0 <= weight (VectorStore.tfidfVector c) key)%R))
       (VectorStore.chunks this).
Proof.
  intros this. unfold this. rewrite constructor_chunks.
  split; [apply map_chunk_process|].
  apply Forall_forall. intros c Hc. apply in_map_iff in Hc.
  destruct Hc as [d [<- Hd]]. cbn [VectorStore.chunk VectorStore.termCount
    VectorStore.tfidfVector process].
  pose proof (extractTerms_NoDup (text d)) as Hnd.
  split; [reflexivity|]. rewrite keys_calculateTFIDF by exact Hnd.
  split; [now apply NoDup_filter|]. split; [|split].
  - intros key. rewrite filter_In, negb_true_iff, <- is_proto_eq.
    destruct (is_proto key); intuition congruence.
  - intros key Hkey.
    apply filter_In in Hkey. destruct Hkey as [Hin Hp]. split.
    + apply constructor_vocabulary_In. now exists d.
    + rewrite weight_calculateTFIDF by exact Hnd.
      apply has_In in Hin. now rewrite Hin, Hp.
  - intros key. apply calculateTFIDF_nonneg; [exact Hnd | apply idf_nonneg].
Qed.

(* ================================================================== *)
(** * Further properties: search *)
(* ================================================================== *)

Section Ranking.
Import VectorStore.
Local Open Scope R_scope.

Lemma plain_forallb (terms : list str) :
  forallb (fun t => negb (has Object_prototype t)) terms = true -> plain terms.
Proof.
  intros H t Ht. rewrite forallb_forall in H. specialize (H t Ht).
  now apply negb_true_iff in H.
Qed.

(** Of the property names of [Object.prototype] only two are in lower
    case, and a term is. *)
Lemma extractTerms_prototype (text t : str) :
  In t (extractTerms text) -> has Object_prototype t = true ->
  t = lit "constructor" \/ t = lit "__proto__".
Proof.
  intros Hin Hp. apply extractTerms_lower in Hin. apply has_In in Hp.
  unfold Object_prototype in Hp. simpl in Hp.
  repeat (destruct Hp as [<-|Hp]; [try (now left); try (now right);
                                   exfalso; vm_compute in Hin; discriminate|]).
  contradiction.
Qed.

Lemma reads_own (vector : TFIDFVector) (key : str) :
  In key (keys vector) -> reads_weight vector key.
Proof.
  intros H. unfold reads_weight, get_or_0, weight.
  destruct (Map_get vector key) eqn:E; [reflexivity|].
  apply Map_get_None in E. contradiction.
Qed.

(** The similarity is a number when the query and the chunk agree on the
    term "constructor". *)
Lemma similarity_agree (idf : Map R) (queryText chunkText : str) :
  (In (lit "constructor") (extractTerms queryText)
   <-> In (lit "constructor") (extractTerms chunkText)) ->
  cosineSimilarity (calculateTFIDF idf (extractTerms queryText))
    (calculateTFIDF idf (extractTerms chunkText))
  = Num (cosine (calculateTFIDF idf (extractTerms queryText))
           (calculateTFIDF idf (extractTerms chunkText))).
Proof.
  intros Hagree. apply cosineSimilarity_cosine. intros key Hkey.
  pose proof (extractTerms_NoDup queryText) as Hq.
  pose proof (extractTerms_NoDup chunkText) as Hc.
  destruct (has Object_prototype key) eqn:Hp;
    [|split; now apply reads_weight_plain].
  assert (Hk : (In key (extractTerms queryText) \/ In key (extractTerms chunkText))
               /\ is_proto key = false).
  { unfold allKeys in Hkey. apply new_Set_In, in_app_iff in Hkey.
    rewrite !keys_calculateTFIDF in Hkey by assumption.
    destruct Hkey as [H|H]; apply filter_In in H; destruct H as [H Hn];
      apply negb_true_iff in Hn; tauto. }
  destruct Hk as [Hin Hn].
  assert (E : key = lit "constructor").
  { destruct Hin as [H|H]; destruct (extractTerms_prototype _ _ H Hp) as [E|E];
      try exact E; apply is_proto_eq in E; congruence. }
  subst key.
  assert (Hboth : In (lit "constructor") (extractTerms queryText)
                  /\ In (lit "constructor") (extractTerms chunkText)) by tauto.
  destruct Hboth as [H1 H2].
  split; apply reads_own; apply calculateTFIDF_owns; assumption.
Qed.

Lemma sigma_positive (f : str -> R) (l : list str) :
  0 < sigma f l -> exists k, In k l /\ 0 < f k.
Proof.
  induction l as [|a l IH]; simpl; [lra|]. intros H.
  destruct (Rlt_dec 0 (f a)) as [Ha|Ha].
  - exists a. split; [now left | exact Ha].
  - destruct IH as [k [Hk Hf]]; [lra|]. exists k. split; [now right | exact Hf].
Qed.

Lemma sigma_ge (f : str -> R) (l : list str) (k : str) :
  (forall key, 0 <= f key) -> In k l -> f k <= sigma f l.
Proof.
  intros Hf. induction l as [|a l IH]; simpl; [contradiction|].
  pose proof (sigma_nonneg f l Hf) as Hs. pose proof (Hf a) as Ha.
  intros [->|H]; [lra|]. specialize (IH H). lra.
Qed.

Lemma weight_key (vector : TFIDFVector) (key : str) :
  weight vector key <> 0 -> In key (keys vector).
Proof.
  intros H. destruct (in_dec str_dec key (keys vector)) as [Hin|Hout]; [exact Hin|].
  apply Map_get_None in Hout. unfold weight in H. rewrite Hout in H. now elim H.
Qed.

(** With non-negative weights, the cosine is positive exactly when some key
    has a positive weight in both vectors. *)
Lemma cosine_positive (vectorA vectorB : TFIDFVector) :
  (forall key, 0 <= weight vectorA key) ->
  (forall key, 0 <= weight vectorB key) ->
  (0 < cosine vectorA vectorB
   <-> exists key, 0 < weight vectorA key /\ 0 < weight vectorB key).
Proof.
  intros HA HB. unfold cosine.
  set (m := sqrt (norm2 vectorA vectorB) * sqrt (norm2' vectorA vectorB)).
  assert (Hm0 : 0 <= m) by (apply Rmult_le_pos; apply sqrt_pos).
  split.
  - destruct (Req_dec_T m 0) as [E|E]; [lra|]. intros H.
    assert (Hm : 0 < m) by lra.
    assert (Hd : 0 < dot vectorA vectorB).
    { replace (dot vectorA vectorB) with (dot vectorA vectorB / m * m)
        by (field; lra).
      now apply Rmult_lt_0_compat. }
    apply sigma_positive in Hd. destruct Hd as [k [_ Hk]].
    exists k. pose proof (HA k). pose proof (HB k). split; nra.
  - intros [k [Ha Hb]].
    assert (Hk : In k (allKeys vectorA vectorB)).
    { unfold allKeys. apply new_Set_In, in_or_app. left. apply weight_key. lra. }
    assert (Hd : 0 < dot vectorA vectorB).
    { apply Rlt_le_trans with (weight vectorA k * weight vectorB k);
        [now apply Rmult_lt_0_compat|].
      apply (sigma_ge (fun key => weight vectorA key * weight vectorB key));
        [intros key; now apply Rmult_le_pos | exact Hk]. }
    assert (Hn : 0 < norm2 vectorA vectorB).
    { apply Rlt_le_trans with (weight vectorA k * weight vectorA k);
        [now apply Rmult_lt_0_compat|].
      apply (sigma_ge (fun key => weight vectorA key * weight vectorA key));
        [intros key; now apply Rmult_le_pos | exact Hk]. }
    assert (Hn' : 0 < norm2' vectorA vectorB).
    { apply Rlt_le_trans with (weight vectorB k * weight vectorB k);
        [now apply Rmult_lt_0_compat|].
      apply (sigma_ge (fun key => weight vectorB key * weight vectorB key));
        [intros key; now apply Rmult_le_pos | exact Hk]. }
    assert (Hm : 0 < m)
      by (apply Rmult_lt_0_compat; now apply sqrt_lt_R0).
    destruct (Req_dec_T m 0) as [E|E]; [lra|].
    now apply Rdiv_lt_0_compat.
Qed.

(** The IDF of a term is positive exactly when the term is in some chunk
    and not in all. *)
Lemma idf_positive (documentChunks : list DocumentChunk) (t : str) :
  0 < idf_or_0 (idfScores (constructor documentChunks)) t
  <-> (1 <= documentFrequency (allTerms_of documentChunks) t
       < length documentChunks)%nat.
Proof.
  unfold idf_or_0. rewrite idf_get.
  pose proof (documentFrequency_le (allTerms_of documentChunks) t) as Hle.
  rewrite allTerms_of_length in Hle.
  destruct (documentFrequency (allTerms_of documentChunks) t) as [|n].
  - split; [lra | lia].
  - assert (Hn : 0 < INR (S n)) by (apply lt_0_INR; lia).
    split.
    + intros H. split; [lia|].
      destruct (Nat.eq_dec (S n) (length documentChunks)) as [E|E]; [|lia].
      exfalso. rewrite <- E in H.
      replace (INR (S n) / INR (S n)) with 1 in H by (field; lra).
      rewrite ln_1 in H. lra.
    + intros [_ H]. rewrite <- ln_1. apply ln_increasing; [lra|].
      apply lt_INR in H.
      apply (Rmult_lt_reg_r (INR (S n))); [exact Hn|].
      unfold Rdiv. rewrite Rmult_assoc, Rinv_l by lra. lra.
Qed.

Lemma plain_not_proto (terms : list str) (t : str) :
  plain terms -> In t terms -> is_proto t = false.
Proof.
  intros Hp Hin. destruct (is_proto t) eqn:E; [|reflexivity].
  apply is_proto_eq in E. subst t. now apply Hp in Hin.
Qed.

Lemma weight_positive (documentChunks : list DocumentChunk) (terms : list str)
    (key : str) :
  NoDup terms ->
  (0 < weight (calculateTFIDF (idfScores (constructor documentChunks)) terms) key
   <-> In key terms /\ is_proto key = false
       /\ (1 <= documentFrequency (allTerms_of documentChunks) key
           < length documentChunks)%nat).
Proof.
  intros Hnd. rewrite weight_calculateTFIDF by exact Hnd.
  rewrite <- idf_positive.
  destruct (has terms key) eqn:Eh; [apply has_In in Eh | apply has_not_In in Eh];
    destruct (is_proto key) eqn:Ep; cbn [andb negb];
    try (split; [lra | intros [? [? ?]]; (contradiction || discriminate)]).
  assert (Hl : 0 < INR 1 / INR (length terms)).
  { apply Rdiv_lt_0_compat; [simpl; lra|]. apply lt_0_INR.
    destruct terms; [contradiction | simpl; lia]. }
  split.
  - intros H. split; [exact Eh|]. split; [reflexivity|].
    pose proof (idf_nonneg documentChunks key). nra.
  - intros [_ [_ H]]. now apply Rmult_lt_0_compat.
Qed.

(** On plain terms: a chunk of the store scores above zero exactly when it
    shares with the query a term that is not in every chunk. *)
Lemma similarity_positive_plain (documentChunks : list DocumentChunk) (query : str)
    (d : DocumentChunk) :
  In d documentChunks ->
  plain (extractTerms query) -> plain (extractTerms (text d)) ->
  let this := constructor documentChunks in
  0 < cosine (queryVector this query) (tfidfVector (process (idfScores this) d))
  <-> exists t, In t (extractTerms query) /\ In t (extractTerms (text d))
        /\ (documentFrequency (allTerms_of documentChunks) t
            < length documentChunks)%nat.
Proof.
  intros Hd Hq Hp this. unfold this, queryVector. cbn [tfidfVector process].
  pose proof (extractTerms_NoDup query) as Hnq.
  pose proof (extractTerms_NoDup (text d)) as Hnd.
  rewrite cosine_positive
    by (intros key; apply calculateTFIDF_nonneg; try assumption; apply idf_nonneg).
  split.
  - intros [key [Ha Hb]].
    apply weight_positive in Ha; [|exact Hnq]. apply weight_positive in Hb; [|exact Hnd].
    exists key. repeat split; tauto || lia.
  - intros [t [Ht [Ht' Hdf]]]. exists t.
    assert (H1 : (1 <= documentFrequency (allTerms_of documentChunks) t)%nat).
    { apply documentFrequency_pos, in_allTerms_of. now exists d. }
    split; apply weight_positive; try assumption;
      (split; [assumption|]; split; [eapply plain_not_proto; eassumption | lia]).
Qed.

Lemma search_form (this : VectorStore) (query : str) (topK : option Z)
    (r : SearchResult) :
  In r (map (to_result (extractTerms query))
          (slice0 (sort later_similarity (similarities this query)) (topK_or_5 topK))) ->
  In (result_chunk r) (chunks this)
  /\ similarity r = cosineSimilarity (queryVector this query) (tfidfVector (result_chunk r))
  /\ relevantSentences r
     = extractKeySentences (text (chunk (result_chunk r))) (extractTerms query).
Proof.
  intros H. apply in_map_iff in H. destruct H as [s [<- Hs]].
  apply slice0_In in Hs.
  apply (Permutation_in _ (sort_perm _ later_similarity _)) in Hs.
  unfold similarities in Hs. apply in_map_iff in Hs. destruct Hs as [c [<- Hc]].
  cbn. repeat split. exact Hc.
Qed.

Lemma map_sc_chunk_similarities (this : VectorStore) (query : str) :
  map sc_chunk (similarities this query) = chunks this.
Proof. unfold similarities. rewrite map_map. simpl. apply map_id. Qed.

End Ranking.

(** X13.  On an initialized store [search] succeeds, and what it returns is
    taken from the store: the chunks of the results are distinct entries of
    the store's chunk list (they are the first part of a rearrangement of
    it), and each result carries the cosine similarity of the query vector
    and the vector of its chunk, and the key sentences of its chunk for the
    query terms. *)
Theorem search_results_of_store
    (this : VectorStore.VectorStore) (query : str) (topK : option Z) :
  VectorStore.isInitialized this = true ->
  exists results,
    VectorStore.search this query topK = inr results
    /\ (exists rest,
          Permutation (map VectorStore.result_chunk results ++ rest)
            (VectorStore.chunks this))
    /\ Forall
         (fun r =>
            In (VectorStore.result_chunk r) (VectorStore.chunks this)
            /\ VectorStore.similarity r
               = VectorStore.cosineSimilarity (queryVector this query)
                   (VectorStore.tfidfVector (VectorStore.result_chunk r))
            /\ VectorStore.relevantSentences r
               = extractKeySentences
                   (text (VectorStore.chunk (VectorStore.result_chunk r)))
                   (extractTerms query))
         results.
Proof.
  intros Hi. rewrite (search_eq this query topK Hi).
  eexists. split; [reflexivity|]. split.
  - set (sorted := sort later_similarity (similarities this query)).
    unfold slice0. set (n := Z.to_nat _).
    exists (map VectorStore.sc_chunk (skipn n sorted)).
    rewrite map_map. cbn [VectorStore.result_chunk to_result].
    rewrite <- map_app, firstn_skipn, <- (map_sc_chunk_similarities this query).
    apply Permutation_map, sort_perm.
  - apply Forall_forall. intros r Hr. now apply (search_form this query topK).
Qed.

Lemma search_results_of_store_witness :
  exists results,
    VectorStore.search (VectorStore.constructor pets) (lit "cat") (Some 2%Z)
    = inr results
    /\ (exists rest,
          Permutation (map VectorStore.result_chunk results ++ rest)
            (VectorStore.chunks (VectorStore.constructor pets)))
    /\ Forall
         (fun r =>
            In (VectorStore.result_chunk r)
              (VectorStore.chunks (VectorStore.constructor pets))
            /\ VectorStore.similarity r
               = VectorStore.cosineSimilarity
                   (queryVector (VectorStore.constructor pets) (lit "cat"))
                   (VectorStore.tfidfVector (VectorStore.result_chunk r))
            /\ VectorStore.relevantSentences r
               = extractKeySentences
                   (text (VectorStore.chunk (VectorStore.result_chunk r)))
                   (extractTerms (lit "cat")))
         results.
Proof.
  apply (search_results_of_store (VectorStore.constructor pets) (lit "cat") (Some 2%Z)).
  reflexivity.
Defined.

(** X15.  When neither the query nor the chunk has a term that names a
    property of [Object.prototype], the similarity of a chunk of the store
    is a number, not below 0, and it is above 0 exactly when the chunk
    shares with the query a term that is not in every chunk of the
    store. *)
Theorem similarity_positive_iff
    (documentChunks : list DocumentChunk) (query : str)
    (c : VectorStore.ProcessedChunk) :
  In c (VectorStore.chunks (VectorStore.constructor documentChunks)) ->
  plain (extractTerms query) ->
  plain (extractTerms (text (VectorStore.chunk c))) ->
  let this := VectorStore.constructor documentChunks in
  exists x,
    VectorStore.cosineSimilarity (queryVector this query) (VectorStore.tfidfVector c)
    = Num x
    /\ (0 <= x)%R
    /\ ((0 < x)%R
        <-> exists t,
              In t (extractTerms query)
              /\ In t (extractTerms (text (VectorStore.chunk c)))
              /\ (documentFrequency (allTerms_of documentChunks) t
                  < length documentChunks)%nat).
Proof.
  intros Hc Hq Hp this. unfold this in *.
  rewrite constructor_chunks in Hc. apply in_map_iff in Hc.
  destruct Hc as [d [<- Hd]]. cbn [VectorStore.chunk process] in *.
  destruct (similarity_plain documentChunks query d Hq Hp) as [E Hb].
  cbn [VectorStore.sc_similarity score_chunk] in E.
  eexists. split; [exact E|]. split; [apply Hb|].
  now apply similarity_positive_plain.
Qed.

Lemma similarity_positive_iff_witness :
  let this := VectorStore.constructor pets in
  let c := process (VectorStore.idfScores this) (doc 0 "The cat sat on the mat.") in
  exists x,
    VectorStore.cosineSimilarity (queryVector this (lit "cat")) (VectorStore.tfidfVector c)
    = Num x
    /\ (0 < x)%R.
Proof.
  intros this c.
  assert (Hq : plain (extractTerms (lit "cat")))
    by (apply plain_forallb; vm_compute; reflexivity).
  assert (Hp : plain (extractTerms (text (VectorStore.chunk c))))
    by (apply plain_forallb; vm_compute; reflexivity).
  assert (Hc : In c (VectorStore.chunks (VectorStore.constructor pets)))
    by (rewrite constructor_chunks; now left).
  destruct (similarity_positive_iff pets (lit "cat") c Hc Hq Hp) as [x [E [Hb Hx]]].
  exists x. split; [exact E|].
  apply Hx. exists (lit "cat"). vm_compute. repeat split; auto.
Defined.

(** X16.  The similarity of a chunk of the store is [NaN] exactly when one
    of the query and the chunk has the term "constructor" and the other has
    not; in every other case it is a number, not below 0. *)
Theorem similarity_NaN_iff
    (documentChunks : list DocumentChunk) (query : str)
    (c : VectorStore.ProcessedChunk) :
  In c (VectorStore.chunks (VectorStore.constructor documentChunks)) ->
  let this := VectorStore.constructor documentChunks in
  let s := VectorStore.cosineSimilarity (queryVector this query)
             (VectorStore.tfidfVector c) in
  let inQuery := In (lit "constructor") (extractTerms query) in
  let inChunk := In (lit "constructor") (extractTerms (text (VectorStore.chunk c))) in
  (s = NaN <-> (inQuery /\ ~ inChunk) \/ (inChunk /\ ~ inQuery))
  /\ (s <> NaN -> exists x, s = Num x /\ (0 <= x)%R).
Proof.
  intros Hc this s inQuery inChunk. unfold this in *.
  rewrite constructor_chunks in Hc. apply in_map_iff in Hc.
  destruct Hc as [d [<- Hd]]. cbn [VectorStore.chunk VectorStore.tfidfVector process] in *.
  unfold queryVector in s.
  set (idf := VectorStore.idfScores (VectorStore.constructor documentChunks)) in *.
  assert (Hnan : (inQuery /\ ~ inChunk) \/ (inChunk /\ ~ inQuery) -> s = NaN).
  { intros H. apply (similarity_NaN idf _ _ (lit "constructor"));
      try apply extractTerms_NoDup; try reflexivity. tauto. }
  assert (Hnum : (inQuery <-> inChunk) ->
                 exists x, s = Num x /\ (0 <= x)%R).
  { intros H. eexists. split; [now apply similarity_agree|].
    apply cosine_bounds; intros key; apply calculateTFIDF_nonneg;
      try apply extractTerms_NoDup; apply idf_nonneg. }
  assert (Hdec : (inQuery <-> inChunk)
                 \/ (inQuery /\ ~ inChunk) \/ (inChunk /\ ~ inQuery)).
  { unfold inQuery, inChunk.
    destruct (in_dec str_dec (lit "constructor") (extractTerms query));
      destruct (in_dec str_dec (lit "constructor") (extractTerms (text d))); tauto. }
  split; [split; [|exact Hnan]|].
  - intros E. destruct Hdec as [H|H]; [|exact H].
    destruct (Hnum H) as [x [Ex _]]. congruence.
  - intros Hn. destruct Hdec as [H|H]; [now apply Hnum|].
    elim Hn. now apply Hnan.
Qed.

Lemma similarity_NaN_iff_witness :
  let this := VectorStore.constructor patterns in
  let c := process (VectorStore.idfScores this) (doc 0 "The constructor pattern.") in
  VectorStore.cosineSimilarity (queryVector this (lit "hello")) (VectorStore.tfidfVector c)
  = NaN.
Proof.
  intros this c.
  assert (Hc : In c (VectorStore.chunks (VectorStore.constructor patterns)))
    by (rewrite constructor_chunks; now left).
  apply (proj1 (similarity_NaN_iff patterns (lit "hello") c Hc)).
  right. vm_compute. split; [tauto|].
  intros [H|[]]. discriminate H.
Defined.

(** X17.  Of the terms [extractTerms] can return, only "constructor" and
    "__proto__" name a property of [Object.prototype]: a term list is free
    of such names exactly when it holds neither of the two. *)
Theorem extractTerms_prototype_names (text : str) :
  (forall t, In t (extractTerms text) -> has VectorStore.Object_prototype t = true ->
     t = lit "constructor" \/ t = lit "__proto__")
  /\ (plain (extractTerms text)
      <-> ~ In (lit "constructor") (extractTerms text)
          /\ ~ In (lit "__proto__") (extractTerms text)).
Proof.
  split; [intros t; apply extractTerms_prototype|]. split.
  - intros H. split; intros Hin; apply H in Hin; discriminate Hin.
  - intros [H1 H2] t Hin.
    destruct (has VectorStore.Object_prototype t) eqn:E; [|reflexivity].
    destruct (extractTerms_prototype text t Hin E) as [-> | ->]; contradiction.
Qed.

(* ================================================================== *)
(** * Further properties: statistics *)
(* ================================================================== *)

Section Statistics.
Import VectorStore.
Local Open Scope Z_scope.

Lemma fold_lengths (l : list ProcessedChunk) (a : Z) :
  fold_left (fun sum c => sum + len (text (chunk c))) l a
  = a + sum (map (fun c => len (text (chunk c))) l).
Proof.
  revert a. induction l as [|c l IH]; intros a; simpl; [lia|].
  rewrite IH. lia.
Qed.

Lemma sum_bounds (l : list ProcessedChunk) (lo hi : Z) :
  Forall (fun c => lo <= len (text (chunk c)) <= hi) l ->
  lo * Z.of_nat (length l) <= sum (map (fun c => len (text (chunk c))) l)
  <= hi * Z.of_nat (length l).
Proof.
  induction 1 as [|c l Hc Hl IH]; [simpl; lia|].
  cbn [map sum fold_right length]. fold (sum (map (fun c => len (text (chunk c))) l)).
  rewrite Nat2Z.inj_succ. lia.
Qed.

Lemma round_div_spec (s n : Z) :
  0 < n -> 2 * s - n < 2 * n * round_div s n <= 2 * s + n.
Proof.
  intros Hn. unfold round_div.
  pose proof (Z.div_mod (2 * s + n) (2 * n) ltac:(lia)) as Hd.
  pose proof (Z.mod_pos_bound (2 * s + n) (2 * n) ltac:(lia)) as Hm.
  lia.
Qed.

End Statistics.

(** X18.  [getStats] reports the number of chunks, and as the average chunk
    length the mean length of the chunk texts rounded to the nearest
    integer (0 for a store without chunks): it differs from the mean by at
    most one half, and it lies between the lengths of the shortest and the
    longest chunk. *)
Theorem getStats_average (this : VectorStore.VectorStore) :
  let n := Z.of_nat (length (VectorStore.chunks this)) in
  let total :=
    sum (map (fun c => len (text (VectorStore.chunk c))) (VectorStore.chunks this)) in
  let average := VectorStore.averageChunkLength (VectorStore.getStats this) in
  VectorStore.chunkCount (VectorStore.getStats this) = n
  /\ (n = 0 -> average = 0)%Z
  /\ (0 < n -> 2 * total - n < 2 * n * average <= 2 * total + n)%Z
  /\ (forall lo hi,
        (0 < n)%Z ->
        Forall (fun c => lo <= len (text (VectorStore.chunk c)) <= hi)%Z
          (VectorStore.chunks this) ->
        (lo <= average <= hi)%Z).
Proof.
  intros n total average.
  assert (E : average = if (0 <? n)%Z then round_div total n else 0%Z).
  { unfold average, VectorStore.getStats. cbn [VectorStore.averageChunkLength].
    fold n. rewrite fold_lengths. reflexivity. }
  split; [reflexivity|]. split; [|split].
  - intros H. rewrite E, H. reflexivity.
  - intros H. rewrite E. destruct (Z.ltb_spec 0 n); [|lia]. now apply round_div_spec.
  - intros lo hi H Hall. rewrite E. destruct (Z.ltb_spec 0 n); [|lia].
    pose proof (round_div_spec total n H) as Hr.
    pose proof (sum_bounds _ lo hi Hall) as Hs. fold n total in Hs. nia.
Qed.

(* ================================================================== *)
(** * Further properties: the answer of the chat *)
(* ================================================================== *)

Section Chat.
Import VectorStore ChatInterface.
Local Open Scope R_scope.

Lemma less_zero : less (Num 0) (5 / 100) = true.
Proof. unfold less. destruct (Rlt_dec 0 (5 / 100)); [reflexivity | lra]. Qed.

Lemma respond_all_zero (searchResults : list SearchResult) :
  Forall (fun r => similarity r = Num 0) searchResults ->
  respond searchResults = {| content := notFound; sources := None |}.
Proof.
  intros H. unfold respond. destruct searchResults as [|first rest]; [reflexivity|].
  inversion H as [|? ? E _]; subst. rewrite E, less_zero. reflexivity.
Qed.

(** On plain terms: when every term the query shares with a chunk is in
    every chunk, all similarities are 0. *)
Lemma search_zero (documentChunks : list DocumentChunk) (query : str)
    (topK : option Z) (results : list SearchResult) :
  plain (extractTerms query) ->
  (forall d, In d documentChunks -> plain (extractTerms (text d))) ->
  (forall d t, In d documentChunks ->
     In t (extractTerms query) -> In t (extractTerms (text d)) ->
     documentFrequency (allTerms_of documentChunks) t = length documentChunks) ->
  search (constructor documentChunks) query topK = inr results ->
  Forall (fun r => similarity r = Num 0) results.
Proof.
  intros Hq Hd Hall E. apply Forall_forall. intros r Hr.
  destruct (search_results_from documentChunks query topK results r E Hr)
    as [d [Hin ->]].
  destruct (similarity_plain documentChunks query d Hq (Hd d Hin)) as [-> Hb].
  f_equal.
  pose proof (similarity_positive_plain documentChunks query d Hin Hq (Hd d Hin)) as Hp.
  cbv zeta in Hp.
  destruct (Rlt_dec 0 (cosine (queryVector (constructor documentChunks) query)
                         (tfidfVector
                            (process (idfScores (constructor documentChunks)) d))))
    as [Hpos|Hneg]; [|lra].
  apply Hp in Hpos. destruct Hpos as [t [Ht [Ht' Hlt]]].
  rewrite (Hall d t Hin Ht Ht') in Hlt. lia.
Qed.

Lemma handleSubmit_zero (documentChunks : list DocumentChunk) (inputValue : str) :
  truthy (trim inputValue) = true ->
  plain (extractTerms (trim inputValue)) ->
  (forall d, In d documentChunks -> plain (extractTerms (text d))) ->
  (forall d t, In d documentChunks ->
     In t (extractTerms (trim inputValue)) -> In t (extractTerms (text d)) ->
     documentFrequency (allTerms_of documentChunks) t = length documentChunks) ->
  handleSubmit (constructor documentChunks) inputValue
  = Some {| content := notFound; sources := None |}.
Proof.
  intros Ht Hq Hd Hall. unfold handleSubmit. rewrite Ht. cbn [negb].
  destruct (search_initialized (constructor documentChunks) (trim inputValue)
              (Some 3%Z) eq_refl) as [results [E _]].
  rewrite E. f_equal. apply respond_all_zero.
  exact (search_zero documentChunks (trim inputValue) (Some 3%Z) results Hq Hd Hall E).
Qed.

Lemma handleSubmit_one (d : DocumentChunk) (inputValue : str) :
  truthy (trim inputValue) = true ->
  plain (extractTerms (trim inputValue)) ->
  plain (extractTerms (text d)) ->
  (forall d', In d' [d] -> plain (extractTerms (text d')))
  /\ (forall d' t, In d' [d] ->
        In t (extractTerms (trim inputValue)) -> In t (extractTerms (text d')) ->
        documentFrequency (allTerms_of [d]) t = length [d])
  /\ handleSubmit (constructor [d]) inputValue
     = Some {| content := notFound; sources := None |}.
Proof.
  intros Ht Hq Hd.
  assert (Hds : forall d', In d' [d] -> plain (extractTerms (text d')))
    by (intros d' [<-|[]]; exact Hd).
  assert (Hall : forall d' t, In d' [d] ->
            In t (extractTerms (trim inputValue)) -> In t (extractTerms (text d')) ->
            documentFrequency (allTerms_of [d]) t = length [d]).
  { intros d' t [<-|[]] _ Hin.
    pose proof (documentFrequency_le (allTerms_of [d]) t) as Hle.
    assert (H1 : (1 <= documentFrequency (allTerms_of [d]) t)%nat).
    { apply documentFrequency_pos. exists (extractTerms (text d)).
      split; [now left | exact Hin]. }
    simpl length in *. lia. }
  split; [exact Hds|]. split; [exact Hall|]. now apply handleSubmit_zero.
Qed.

Lemma geq_greater (a b : number) (c : R) :
  geq a b -> greater a c = false -> greater b c = false.
Proof.
  unfold geq, greater. destruct a as [x|], b as [y|]; try contradiction.
  intros Hle. destruct (Rlt_dec c x); [discriminate|]. intros _.
  destruct (Rlt_dec c y); [lra | reflexivity].
Qed.

Lemma geq_less (a b : number) (c d : R) :
  c <= d -> geq a b -> less a c = true -> greater b d = false.
Proof.
  unfold geq, greater, less. destruct a as [x|], b as [y|]; try contradiction.
  intros Hcd Hle. destruct (Rlt_dec x c); [|discriminate]. intros _.
  destruct (Rlt_dec d y); [lra | reflexivity].
Qed.

Lemma filter_all_false (A : Type) (f : A -> bool) (l : list A) :
  Forall (fun x => f x = false) l -> filter f l = [].
Proof. induction 1 as [|x l Hx _ IH]; simpl; [reflexivity | now rewrite Hx]. Qed.

Lemma filter_all_true (A : Type) (f : A -> bool) (l : list A) :
  (forall x, In x l -> f x = true) -> filter f l = l.
Proof.
  induction l as [|x l IH]; intros H; simpl; [reflexivity|].
  rewrite (H x (or_introl eq_refl)). f_equal. apply IH. intros y Hy. apply H. now right.
Qed.

Lemma filter_nil_false (A : Type) (f : A -> bool) (l : list A) :
  filter f l = [] -> Forall (fun x => f x = false) l.
Proof.
  induction l as [|x l IH]; simpl; [constructor|].
  destruct (f x) eqn:E; [discriminate|]. intros H. constructor; auto.
Qed.

(** In a list in descending order of similarity, the results above a
    threshold are the first ones. *)
Lemma filter_descending (c : R) (l : list SearchResult) :
  StronglySorted (fun a b => geq (similarity a) (similarity b)) l ->
  exists n,
    filter (fun result => greater (similarity result) c) l = firstn n l
    /\ Forall (fun r => greater (similarity r) c = true) (firstn n l)
    /\ Forall (fun r => greater (similarity r) c = false) (skipn n l).
Proof.
  induction 1 as [|a l Hs IH Ha]; [exists 0%nat; repeat split; constructor|].
  cbn [filter]. destruct (greater (similarity a) c) eqn:E.
  - destruct IH as [n [E1 [E2 E3]]]. exists (S n). cbn [firstn skipn].
    rewrite E1. repeat split; [constructor; assumption | exact E3].
  - assert (Hl : Forall (fun r => greater (similarity r) c = false) l).
    { eapply Forall_impl; [|exact Ha]. intros b Hb.
      exact (geq_greater _ _ c Hb E). }
    exists 0%nat. cbn [firstn skipn]. split; [|split].
    + now apply filter_all_false.
    + constructor.
    + constructor; assumption.
Qed.

End Chat.

(** X19.  The answer to a question, when neither the question nor any chunk
    has a term that names a property of [Object.prototype].  The chat gives
    sources exactly when the best result of the search has a similarity
    above 0.1; the sources are then the leading results, those above 0.1,
    and the answer begins with the key sentences of the best result, or
    with the text of its chunk when it has no key sentence.  Otherwise the
    answer is one of the two fixed messages and no result is above 0.1. *)
Theorem handleSubmit_answers (documentChunks : list DocumentChunk) (inputValue : str) :
  truthy (trim inputValue) = true ->
  plain (extractTerms (trim inputValue)) ->
  (forall d, In d documentChunks -> plain (extractTerms (text d))) ->
  exists results a,
    VectorStore.search (VectorStore.constructor documentChunks) (trim inputValue)
      (Some 3%Z) = inr results
    /\ ChatInterface.handleSubmit (VectorStore.constructor documentChunks) inputValue
       = Some a
    /\ match ChatInterface.sources a with
       | None =>
           (ChatInterface.content a = ChatInterface.notFound
            \/ ChatInterface.content a = ChatInterface.notRelevant)
           /\ Forall
                (fun r => ChatInterface.greater (VectorStore.similarity r) (1 / 10)
                          = false)
                results
       | Some used =>
           exists n top rest,
             results = top :: rest
             /\ used = firstn (S n) results
             /\ Forall
                  (fun r => ChatInterface.greater (VectorStore.similarity r) (1 / 10)
                            = true)
                  used
             /\ Forall
                  (fun r => ChatInterface.greater (VectorStore.similarity r) (1 / 10)
                            = false)
                  (skipn (S n) results)
             /\ exists tail,
                  ChatInterface.content a
                  = match VectorStore.relevantSentences top with
                    | _ :: _ =>
                        ChatInterface.join (lit " ") (VectorStore.relevantSentences top)
                    | [] => text (VectorStore.chunk (VectorStore.result_chunk top))
                    end ++ tail
       end.
Proof.
  intros Ht Hq Hd.
  destruct (search_initialized (VectorStore.constructor documentChunks)
              (trim inputValue) (Some 3%Z) eq_refl) as [results [E _]].
  destruct (search_plain_sorted documentChunks (trim inputValue) (Some 3%Z) results
              Hq Hd E) as [_ [Hs _]].
  exists results, (ChatInterface.respond results).
  split; [exact E|]. split.
  { unfold ChatInterface.handleSubmit. rewrite Ht, E. reflexivity. }
  clear E. unfold ChatInterface.respond.
  destruct results as [|first rest]; [cbn; split; [now left | constructor]|].
  destruct (ChatInterface.less (VectorStore.similarity first) (5 / 100)) eqn:El.
  - cbn [ChatInterface.sources ChatInterface.content]. split; [now left|].
    inversion Hs as [|? ? _ Hall]; subst.
    assert (Hf : ChatInterface.greater (VectorStore.similarity first) (1 / 10) = false).
    { revert El. unfold ChatInterface.less, ChatInterface.greater.
      destruct (VectorStore.similarity first) as [x|]; [|reflexivity].
      destruct (Rlt_dec x (5 / 100)); [|discriminate]. intros _.
      destruct (Rlt_dec (1 / 10) x); [lra | reflexivity]. }
    constructor; [exact Hf|].
    eapply Forall_impl; [|exact Hall]. intros b Hb.
    exact (geq_greater _ _ (1 / 10)%R Hb Hf).
  - destruct (filter_descending (1 / 10)%R (first :: rest) Hs) as [n [E1 [E2 E3]]].
    cbv zeta. rewrite E1. destruct n as [|n].
    + cbn. split; [now right | exact E3].
    + cbn [firstn]. cbn [ChatInterface.sources ChatInterface.content].
      exists n, first, rest. split; [reflexivity|]. split; [reflexivity|].
      split; [exact E2|]. split; [exact E3|].
      destruct (firstn n rest) as [|second others].
      * exists []. now rewrite app_nil_r.
      * destruct (ChatInterface.greater (VectorStore.similarity second) (2 / 10)).
        -- eexists. reflexivity.
        -- exists []. now rewrite app_nil_r.
Qed.

Lemma handleSubmit_answers_witness :
  exists results a,
    VectorStore.search (VectorStore.constructor pets) (trim (lit " cat ")) (Some 3%Z)
    = inr results
    /\ ChatInterface.handleSubmit (VectorStore.constructor pets) (lit " cat ") = Some a
    /\ match ChatInterface.sources a with
       | None =>
           (ChatInterface.content a = ChatInterface.notFound
            \/ ChatInterface.content a = ChatInterface.notRelevant)
           /\ Forall
                (fun r => ChatInterface.greater (VectorStore.similarity r) (1 / 10)
                          = false)
                results
       | Some used =>
           exists n top rest,
             results = top :: rest
             /\ used = firstn (S n) results
             /\ Forall
                  (fun r => ChatInterface.greater (VectorStore.similarity r) (1 / 10)
                            = true)
                  used
             /\ Forall
                  (fun r => ChatInterface.greater (VectorStore.similarity r) (1 / 10)
                            = false)
                  (skipn (S n) results)
             /\ exists tail,
                  ChatInterface.content a
                  = match VectorStore.relevantSentences top with
                    | _ :: _ =>
                        ChatInterface.join (lit " ") (VectorStore.relevantSentences top)
                    | [] => text (VectorStore.chunk (VectorStore.result_chunk top))
                    end ++ tail
       end.
Proof.
  apply (handleSubmit_answers pets (lit " cat ")).
  - reflexivity.
  - apply plain_forallb. vm_compute. reflexivity.
  - intros d [<-|[<-|[<-|[]]]]; apply plain_forallb; vm_compute; reflexivity.
Defined.

(** X20.  When neither the question nor any chunk has a term that names a
    property of [Object.prototype], and every term the question shares with
    a chunk is in every chunk of the store (so also when it shares none, or
    has no term at all), every result of the search has similarity 0, and
    the chat answers that it could not find information, and gives no
    sources. *)
Theorem handleSubmit_nothing_found
    (documentChunks : list DocumentChunk) (inputValue : str) :
  truthy (trim inputValue) = true ->
  plain (extractTerms (trim inputValue)) ->
  (forall d, In d documentChunks -> plain (extractTerms (text d))) ->
  (forall d t, In d documentChunks ->
     In t (extractTerms (trim inputValue)) -> In t (extractTerms (text d)) ->
     documentFrequency (allTerms_of documentChunks) t = length documentChunks) ->
  (exists results,
     VectorStore.search (VectorStore.constructor documentChunks) (trim inputValue)
       (Some 3%Z) = inr results
     /\ Forall (fun r => VectorStore.similarity r = Num 0) results)
  /\ ChatInterface.handleSubmit (VectorStore.constructor documentChunks) inputValue
     = Some {| ChatInterface.content := ChatInterface.notFound;
               ChatInterface.sources := None |}.
Proof.
  intros Ht Hq Hd Hall. split; [|now apply handleSubmit_zero].
  destruct (search_initialized (VectorStore.constructor documentChunks)
              (trim inputValue) (Some 3%Z) eq_refl) as [results [E _]].
  exists results. split; [exact E|].
  exact (search_zero documentChunks (trim inputValue) (Some 3%Z) results Hq Hd Hall E).
Qed.

Lemma handleSubmit_nothing_found_witness :
  ChatInterface.handleSubmit (VectorStore.constructor pets) (lit "What is it?")
  = Some {| ChatInterface.content := ChatInterface.notFound;
            ChatInterface.sources := None |}.
Proof.
  apply (handleSubmit_nothing_found pets (lit "What is it?")).
  - reflexivity.
  - apply plain_forallb. vm_compute. reflexivity.
  - intros d [<-|[<-|[<-|[]]]]; apply plain_forallb; vm_compute; reflexivity.
  - intros d t Hd Ht H. vm_compute in Ht. destruct Ht as [<-|[]].
    destruct Hd as [<-|[<-|[<-|[]]]]; vm_compute in H;
      repeat (destruct H as [H|H]; [discriminate H|]); contradiction.
Defined.

(** X21.  On a store built from a single chunk every similarity is 0: when
    neither the question nor the chunk has a term that names a property of
    [Object.prototype], the chat answers every question with the message
    that it could not find information. *)
Theorem handleSubmit_single_chunk (d : DocumentChunk) (inputValue : str) :
  truthy (trim inputValue) = true ->
  plain (extractTerms (trim inputValue)) ->
  plain (extractTerms (text d)) ->
  (exists r,
     VectorStore.search (VectorStore.constructor [d]) (trim inputValue) (Some 3%Z)
     = inr [r]
     /\ VectorStore.similarity r = Num 0)
  /\ ChatInterface.handleSubmit (VectorStore.constructor [d]) inputValue
     = Some {| ChatInterface.content := ChatInterface.notFound;
               ChatInterface.sources := None |}.
Proof.
  intros Ht Hq Hd.
  destruct (handleSubmit_one d inputValue Ht Hq Hd) as [Hds [Hall Hs]].
  split; [|exact Hs].
  destruct (search_initialized (VectorStore.constructor [d]) (trim inputValue)
              (Some 3%Z) eq_refl) as [results [E Hl]].
  pose proof (search_zero [d] (trim inputValue) (Some 3%Z) results Hq Hds Hall E) as Hz.
  rewrite constructor_chunks in Hl. cbn in Hl.
  destruct results as [|r [|r' rest]]; try discriminate Hl.
  exists r. split; [exact E|]. now inversion Hz.
Qed.

Lemma handleSubmit_single_chunk_witness :
  ChatInterface.handleSubmit
    (VectorStore.constructor [doc 0 "The cat sat on the mat."]) (lit "Where is the cat?")
  = Some {| ChatInterface.content := ChatInterface.notFound;
            ChatInterface.sources := None |}.
Proof.
  apply (handleSubmit_single_chunk (doc 0 "The cat sat on the mat.")
           (lit "Where is the cat?")).
  - reflexivity.
  - apply plain_forallb. vm_compute. reflexivity.
  - apply plain_forallb. vm_compute. reflexivity.
Defined.

(* ================================================================== *)
(** * Further properties: exact-match lookup *)
(* ================================================================== *)

Section Lookup.
Import VectorStore.

Lemma prefix_spec (t s : str) : prefix t s = true <-> exists post, s = t ++ post.
Proof.
  revert s. induction t as [|x t IH]; intros s; simpl.
  - split; [intros _; now exists s | reflexivity].
  - destruct s as [|y s].
    + split; [discriminate | intros [post H]; discriminate H].
    + rewrite andb_true_iff, Ascii.eqb_eq, IH. split.
      * intros [-> [post ->]]. now exists post.
      * intros [post H]. injection H as -> ->. split; [reflexivity | now exists post].
Qed.

(** [s.includes(t)] says that [t] occurs in [s]. *)
Lemma includes_spec (s t : str) : includes s t = true <-> occurs_in t s.
Proof.
  induction s as [|c s IH].
  - cbn [includes]. rewrite orb_false_r, prefix_spec. split.
    + intros [post H]. now exists [], post.
    + intros [pre [post H]]. destruct pre; [now exists post | discriminate H].
  - cbn [includes]. rewrite orb_true_iff, prefix_spec, IH. split.
    + intros [[post H]|H]; [now exists [], post | now apply occurs_in_cons].
    + intros [pre [post H]]. destruct pre as [|p pre].
      * left. now exists post.
      * right. injection H as _ H. now exists pre, post.
Qed.

Lemma occurs_in_nil (s : str) : occurs_in [] s.
Proof. now exists [], s. Qed.

Lemma word_not_space (c : ascii) : is_word c = true -> is_space c = false.
Proof. destruct c as [[] [] [] [] [] [] [] []]; vm_compute; congruence. Qed.

Lemma collapse_prefix (r : str) :
  forall t post : str,
  collapse_spaces false r = t ++ post ->
  (forall c, In c t -> is_space c = false) ->
  exists post', r = t ++ post'.
Proof.
  induction r as [|c r IH]; intros t post E Ht.
  - simpl in E. symmetry in E. apply app_eq_nil in E. destruct E as [-> _]. now exists [].
  - destruct t as [|x t]; [now exists (c :: r)|].
    simpl in E. destruct (is_space c) eqn:Ec.
    + injection E as <- _. specialize (Ht " "%char (or_introl eq_refl)). discriminate Ht.
    + injection E as <- E. apply IH in E; [|intros d Hd; apply Ht; now right].
      destruct E as [post' ->]. now exists post'.
Qed.

Lemma collapse_occurs (t : str) :
  (forall c, In c t -> is_space c = false) ->
  forall (r : str) (b : bool),
  occurs_in t (collapse_spaces b r) -> occurs_in t r.
Proof.
  intros Ht. induction r as [|c r IH]; intros b H; [exact H|].
  destruct t as [|x t]; [apply occurs_in_nil|].
  simpl in H. destruct (is_space c) eqn:Ec.
  - destruct b.
    + apply occurs_in_cons. now apply (IH true).
    + destruct H as [pre [post H]]. destruct pre as [|p pre].
      * injection H as <- _. specialize (Ht " "%char (or_introl eq_refl)). discriminate Ht.
      * injection H as _ H. apply occurs_in_cons, (IH true). now exists pre, post.
  - destruct H as [pre [post H]]. destruct pre as [|p pre].
    + injection H as <- H.
      apply collapse_prefix in H; [|intros d Hd; apply Ht; now right].
      destruct H as [post' ->]. now exists [], post'.
    + injection H as _ H. apply occurs_in_cons, (IH false). now exists pre, post.
Qed.

Lemma map_fixed (f : ascii -> ascii) (l t : str) :
  (forall c, is_word (f c) = true -> f c = c) ->
  literal t = true -> map f l = t -> l = t.
Proof.
  intros Hf Ht E. rewrite <- E. rewrite <- (map_id l) at 1.
  apply map_ext_in. intros c Hc. symmetry. apply Hf.
  unfold literal in Ht. rewrite forallb_forall in Ht. apply Ht.
  rewrite <- E. now apply in_map.
Qed.

Lemma map_occurs (f : ascii -> ascii) (l t : str) :
  (forall c, is_word (f c) = true -> f c = c) ->
  literal t = true -> occurs_in t (map f l) -> occurs_in t l.
Proof.
  intros Hf Ht [pre [post E]].
  apply map_eq_app in E. destruct E as [l1 [l23 [-> [_ E]]]].
  apply map_eq_app in E. destruct E as [l2 [l3 [-> [E _]]]].
  apply (map_fixed f l2 t Hf Ht) in E. subst l2. now exists l1, l3.
Qed.

(** A term of a text occurs in the text in lower case. *)
Lemma term_occurs (text t : str) :
  In t (extractTerms text) -> occurs_in t (toLowerCase text).
Proof.
  intros Hin.
  pose proof (proj1 (Forall_forall _ _) (extractTerms_literal text) t Hin) as Hlit.
  assert (Hns : forall c, In c t -> is_space c = false).
  { intros c Hc. apply word_not_space. unfold literal in Hlit.
    rewrite forallb_forall in Hlit. now apply Hlit. }
  apply extractTerms_iff in Hin. unfold survivingTokens in Hin.
  apply filter_In in Hin. destruct Hin as [Hin _].
  apply (split_by_occurs match_spaces _ 0 [] t (or_introl eq_refl)) in Hin.
  simpl in Hin. unfold preprocessText in Hin.
  pose proof (occurs_in_trans _ _ _ Hin (trim_occurs _)) as H.
  apply (collapse_occurs t Hns) in H.
  apply (map_occurs _ _ t) in H; [exact H | | exact Hlit].
  intros c. destruct (is_word c || is_space c) eqn:E; [reflexivity|].
  intros Hw. vm_compute in Hw. discriminate Hw.
Qed.

Lemma in_findChunksWithTerms (this : VectorStore) (terms : list str)
    (c : ProcessedChunk) :
  In c (findChunksWithTerms this terms)
  <-> In c (chunks this)
      /\ exists term, In term terms
           /\ occurs_in (toLowerCase term) (toLowerCase (text (chunk c))).
Proof.
  unfold findChunksWithTerms. rewrite filter_In, existsb_exists. split.
  - intros [Hc [x [Hx Hi]]]. split; [exact Hc|].
    apply in_map_iff in Hx. destruct Hx as [term [<- Hterm]].
    exists term. split; [exact Hterm | now apply includes_spec].
  - intros [Hc [term [Hterm Ho]]]. split; [exact Hc|].
    exists (toLowerCase term). split; [now apply in_map | now apply includes_spec].
Qed.

Lemma shared_term_found (this : VectorStore) (query : str) (c : ProcessedChunk) :
  In c (chunks this) ->
  (exists t, In t (extractTerms query) /\ In t (extractTerms (text (chunk c)))) ->
  In c (findChunksWithTerms this (extractTerms query)).
Proof.
  intros Hc [t [Hq Ht]]. apply in_findChunksWithTerms. split; [exact Hc|].
  exists t. split; [exact Hq|].
  rewrite (extractTerms_lower query t Hq). now apply term_occurs.
Qed.

End Lookup.

(** X22.  [findChunksWithTerms] returns, in the order of the store, the
    chunks whose text contains one of the terms, case ignored.  An empty
    term is contained in every text, so a list that holds it selects all
    chunks, and an empty list selects none.  A chunk that has a term in
    common with a query, as [extractTerms] sees them, is among the chunks
    found for the terms of the query. *)
Theorem findChunksWithTerms_finds (this : VectorStore.VectorStore) (terms : list str) :
  (forall c,
     In c (findChunksWithTerms this terms)
     <-> In c (VectorStore.chunks this)
         /\ exists term, In term terms
              /\ occurs_in (toLowerCase term)
                   (toLowerCase (text (VectorStore.chunk c))))
  /\ (exists keep, findChunksWithTerms this terms = filter keep (VectorStore.chunks this))
  /\ (In [] terms -> findChunksWithTerms this terms = VectorStore.chunks this)
  /\ (terms = [] -> findChunksWithTerms this terms = [])
  /\ (forall query c,
        In c (VectorStore.chunks this) ->
        (exists t, In t (extractTerms query)
                   /\ In t (extractTerms (text (VectorStore.chunk c)))) ->
        In c (findChunksWithTerms this (extractTerms query))).
Proof.
  split; [intros c; apply in_findChunksWithTerms|].
  split; [eexists; reflexivity|]. split; [|split].
  - intros H. unfold findChunksWithTerms. apply filter_all_true.
    intros c _. apply existsb_exists. exists []. split.
    + change [] with (toLowerCase []). now apply in_map.
    + destruct (toLowerCase (text (VectorStore.chunk c))); reflexivity.
  - intros ->. unfold findChunksWithTerms. apply filter_all_false.
    apply Forall_forall. reflexivity.
  - intros query c. apply shared_term_found.
Qed.

(** X23.  When neither the query nor any chunk has a term that names a
    property of [Object.prototype], every result of [search] with a
    similarity above 0 is a chunk whose text contains one of the query
    terms: it is among the chunks [findChunksWithTerms] finds for the terms
    of the query. *)
Theorem positive_results_hold_a_query_term
    (documentChunks : list DocumentChunk) (query : str) (topK : option Z) :
  plain (extractTerms query) ->
  (forall d, In d documentChunks -> plain (extractTerms (text d))) ->
  let this := VectorStore.constructor documentChunks in
  exists results,
    VectorStore.search this query topK = inr results
    /\ Forall
         (fun r =>
            forall x, VectorStore.similarity r = Num x -> (0 < x)%R ->
            In (VectorStore.result_chunk r)
              (findChunksWithTerms this (extractTerms query)))
         results.
Proof.
  intros Hq Hd this.
  destruct (search_initialized this query topK eq_refl) as [results [E _]].
  exists results. split; [exact E|].
  rewrite (search_eq this query topK eq_refl) in E. injection E as <-.
  apply Forall_forall. intros r Hr x Hx Hpos.
  destruct (search_form this query topK r Hr) as [Hc [Hs _]].
  apply shared_term_found; [exact Hc|].
  unfold this in Hc. rewrite constructor_chunks in Hc. apply in_map_iff in Hc.
  destruct Hc as [d [Ed Hin]]. rewrite <- Ed in *. cbn [VectorStore.chunk process].
  destruct (similarity_plain documentChunks query d Hq (Hd d Hin)) as [Es _].
  rewrite Hx in Hs.
  assert (Ex : Num x
               = Num (cosine (queryVector (VectorStore.constructor documentChunks) query)
                        (VectorStore.tfidfVector
                           (process (VectorStore.idfScores
                                       (VectorStore.constructor documentChunks)) d))))
    by (etransitivity; [exact Hs | exact Es]).
  injection Ex as ->.
  destruct (proj1 (similarity_positive_plain documentChunks query d Hin Hq (Hd d Hin))
              Hpos) as [t [H1 [H2 _]]].
  now exists t.
Qed.

Lemma positive_results_hold_a_query_term_witness :
  exists results,
    VectorStore.search (VectorStore.constructor pets) (lit "cat") None = inr results
    /\ Forall
         (fun r =>
            forall x, VectorStore.similarity r = Num x -> (0 < x)%R ->
            In (VectorStore.result_chunk r)
              (findChunksWithTerms (VectorStore.constructor pets)
                 (extractTerms (lit "cat"))))
         results.
Proof.
  apply (positive_results_hold_a_query_term pets (lit "cat") None).
  - apply plain_forallb. vm_compute. reflexivity.
  - intros d [<-|[<-|[<-|[]]]]; apply plain_forallb; vm_compute; reflexivity.
Defined.

(* ================================================================== *)
(** * Further properties: [cleanText] *)
(* ================================================================== *)

Section Cleaning.

Lemma replace_runs_skip (p : ascii -> bool) (least : nat) (by_ : str) (s : str) :
  forall skip,
  replace_runs p least by_ skip s = replace_runs p least by_ 0 (skipn skip s).
Proof.
  induction s as [|c s IH]; intros skip.
  - now destruct skip.
  - destruct skip as [|k]; [reflexivity|]. cbn [replace_runs skipn]. apply IH.
Qed.

Lemma limit_run_reset (p : ascii -> bool) (keep seen : nat) (s : str) :
  run_length p s = 0%nat -> limit_run p keep seen s = limit_run p keep 0 s.
Proof.
  destruct s as [|c r]; [reflexivity|]. cbn [run_length limit_run].
  destruct (p c); [discriminate | reflexivity].
Qed.

Lemma run_length_skipn (p : ascii -> bool) (s : str) :
  run_length p (skipn (run_length p s) s) = 0%nat.
Proof.
  induction s as [|c r IH]; [reflexivity|]. cbn [run_length].
  destruct (p c) eqn:E; cbn [skipn]; [exact IH|]. cbn [run_length]. now rewrite E.
Qed.

(** Within a run the first [keep] characters are kept, and the text after
    the run is treated afresh. *)
Lemma limit_run_run (p : ascii -> bool) (keep : nat) (s : str) :
  forall seen,
  limit_run p keep seen s
  = firstn (keep - seen) (firstn (run_length p s) s)
    ++ limit_run p keep 0 (skipn (run_length p s) s).
Proof.
  induction s as [|c r IH]; intros seen.
  - cbn. now rewrite firstn_nil.
  - cbn [limit_run run_length]. destruct (p c) eqn:E.
    + cbn [firstn skipn]. destruct (Nat.ltb_spec seen keep) as [Hlt|Hge].
      * rewrite IH. replace (keep - seen)%nat with (S (keep - S seen)) by lia.
        reflexivity.
      * rewrite IH. replace (keep - S seen)%nat with 0%nat by lia.
        replace (keep - seen)%nat with 0%nat by lia. reflexivity.
    + cbn [firstn skipn]. rewrite firstn_nil. cbn [app limit_run]. now rewrite E.
Qed.

Lemma firstn_in_run (p : ascii -> bool) (x : ascii) (s : str) :
  (forall c, p c = true -> c = x) ->
  forall k, (k <= run_length p s)%nat -> firstn k s = repeat x k.
Proof.
  intros Hp. induction s as [|c r IH]; intros k Hk.
  - cbn in Hk. now replace k with 0%nat by lia.
  - destruct k as [|k]; [reflexivity|]. cbn [run_length] in Hk.
    destruct (p c) eqn:E; [|lia]. cbn [firstn repeat].
    rewrite (Hp c E). f_equal. apply IH. lia.
Qed.

(** The replacement of the runs of at least [keep + 1] characters by
    [keep] characters keeps the first [keep] characters of every run. *)
Lemma replace_runs_limit (p : ascii -> bool) (x : ascii) (keep : nat) :
  (forall c, p c = true -> c = x) ->
  forall s, replace_runs p (S keep) (repeat x keep) 0 s = limit_run p keep 0 s.
Proof.
  intros Hp s. remember (length s) as n eqn:En.
  assert (Hn : (length s <= n)%nat) by lia. clear En. revert s Hn.
  induction n as [|n IH]; intros s Hn.
  - destruct s; [reflexivity | simpl in Hn; lia].
  - destruct s as [|c r]; [reflexivity|]. simpl length in Hn.
    cbn [replace_runs]. cbv zeta. cbn [run_length limit_run].
    destruct (p c) eqn:E.
    + set (m := run_length p r).
      destruct (Nat.leb_spec (S keep) (S m)) as [Hle|Hgt].
      * replace (S m - 1)%nat with m by lia.
        rewrite replace_runs_skip, IH
          by (rewrite length_skipn; lia).
        pose proof (limit_run_run p keep (c :: r) 0) as Hr.
        cbn [limit_run run_length] in Hr. rewrite E in Hr. fold m in Hr.
        rewrite Hr. cbn [skipn]. f_equal.
        rewrite Nat.sub_0_r, firstn_firstn.
        replace (Nat.min keep (S m)) with keep by lia.
        symmetry. apply (firstn_in_run p x (c :: r) Hp).
        cbn [run_length]. rewrite E. fold m. lia.
      * rewrite IH by lia.
        destruct (Nat.ltb_spec 0 keep) as [_|H0]; [|lia].
        f_equal. rewrite (limit_run_run p keep r 1), (limit_run_run p keep r 0).
        fold m. f_equal. rewrite !firstn_firstn. f_equal. lia.
    + destruct (Nat.leb_spec (S keep) 0) as [H0|_]; [lia|].
      f_equal. apply IH. lia.
Qed.

Lemma limit_run_In (p : ascii -> bool) (keep : nat) (s : str) (c : ascii) :
  forall seen, In c (limit_run p keep seen s) -> In c s.
Proof.
  induction s as [|d r IH]; intros seen H; [exact H|].
  cbn [limit_run] in H. destruct (p d).
  - destruct (Nat.ltb seen keep).
    + destruct H as [<-|H]; [now left | right; eauto].
    + right. eauto.
  - destruct H as [<-|H]; [now left | right; eauto].
Qed.

Lemma limit_run_ok (p : ascii -> bool) (keep : nat) (s : str) :
  forall seen, runs_ok p keep (Nat.min seen keep) (limit_run p keep seen s) = true.
Proof.
  induction s as [|c r IH]; intros seen; [reflexivity|].
  cbn [limit_run]. destruct (p c) eqn:E.
  - destruct (Nat.ltb_spec seen keep) as [Hlt|Hge].
    + cbn [runs_ok]. rewrite E.
      replace (Nat.min seen keep) with seen by lia.
      specialize (IH (S seen)). replace (Nat.min (S seen) keep) with (S seen) in IH by lia.
      rewrite IH, andb_true_r. apply Nat.leb_le. lia.
    + specialize (IH (S seen)).
      replace (Nat.min (S seen) keep) with keep in IH by lia.
      now replace (Nat.min seen keep) with keep by lia.
  - cbn [runs_ok]. rewrite E. apply (IH 0%nat).
Qed.

Lemma limit_run_id (p : ascii -> bool) (keep : nat) (s : str) :
  forall seen, runs_ok p keep seen s = true -> limit_run p keep seen s = s.
Proof.
  induction s as [|c r IH]; intros seen H; [reflexivity|].
  cbn [runs_ok] in H. cbn [limit_run]. destruct (p c).
  - apply andb_true_iff in H. destruct H as [Hle H]. apply Nat.leb_le in Hle.
    destruct (Nat.ltb_spec seen keep); [|lia]. f_equal. now apply IH.
  - f_equal. now apply IH.
Qed.

(** Limiting the runs of one class does not lengthen the runs of a
    disjoint class. *)
Lemma limit_run_other (p q : ascii -> bool) (keep k : nat) (s : str) :
  (forall c, q c = true -> p c = false) ->
  forall seen seen',
  seen = 0%nat \/ seen' = 0%nat ->
  runs_ok q k seen' s = true ->
  runs_ok q k seen' (limit_run p (S keep) seen s) = true.
Proof.
  intros Hd. induction s as [|c r IH]; intros seen seen' Hi H; [reflexivity|].
  cbn [runs_ok] in H. cbn [limit_run]. destruct (p c) eqn:Ep.
  - assert (Eq : q c = false).
    { destruct (q c) eqn:Eq; [|reflexivity]. apply Hd in Eq. congruence. }
    rewrite Eq in H. destruct (Nat.ltb_spec seen (S keep)) as [Hlt|Hge].
    + cbn [runs_ok]. rewrite Eq. apply IH; [now right | exact H].
    + destruct Hi as [->| ->]; [lia|]. apply IH; [now right | exact H].
  - cbn [runs_ok]. destruct (q c).
    + apply andb_true_iff in H. destruct H as [Hle H]. rewrite Hle. cbn [andb].
      apply IH; [now left | exact H].
    + apply IH; [now left | exact H].
Qed.

Lemma runs_ok_mono (p : ascii -> bool) (k : nat) (s : str) :
  forall seen seen', (seen' <= seen)%nat ->
  runs_ok p k seen s = true -> runs_ok p k seen' s = true.
Proof.
  induction s as [|c r IH]; intros seen seen' Hle H; [reflexivity|].
  cbn [runs_ok] in *. destruct (p c); [|exact H].
  apply andb_true_iff in H. destruct H as [H1 H2]. apply Nat.leb_le in H1.
  apply andb_true_iff. split; [apply Nat.leb_le; lia|].
  apply (IH (S seen)); [lia | exact H2].
Qed.

Lemma runs_ok_suffix (p : ascii -> bool) (k : nat) (a b : str) :
  forall seen, runs_ok p k seen (a ++ b) = true -> runs_ok p k 0 b = true.
Proof.
  induction a as [|c a IH]; intros seen H.
  - apply (runs_ok_mono p k b seen 0); [lia | exact H].
  - cbn [app runs_ok] in H. destruct (p c); [|now apply (IH 0%nat)].
    apply andb_true_iff in H. now apply (IH (S seen)).
Qed.

Lemma runs_ok_prefix (p : ascii -> bool) (k : nat) (a b : str) :
  forall seen, runs_ok p k seen (a ++ b) = true -> runs_ok p k seen a = true.
Proof.
  induction a as [|c a IH]; intros seen H; [reflexivity|].
  cbn [app runs_ok] in *. destruct (p c); [|now apply IH].
  apply andb_true_iff in H. destruct H as [H1 H2]. rewrite H1. now apply IH.
Qed.

Lemma runs_ok_occurs (p : ascii -> bool) (k : nat) (t s : str) :
  occurs_in t s -> runs_ok p k 0 s = true -> runs_ok p k 0 t = true.
Proof.
  intros [pre [post ->]] H. apply runs_ok_suffix in H. now apply runs_ok_prefix in H.
Qed.

Lemma runs_ok_run (p : ascii -> bool) (k : nat) (w post : str) :
  forall seen,
  w <> [] -> forallb p w = true -> runs_ok p k seen (w ++ post) = true ->
  (seen + length w <= k)%nat.
Proof.
  induction w as [|c w IH]; intros seen Hw Hp H; [congruence|].
  cbn [forallb] in Hp. apply andb_true_iff in Hp. destruct Hp as [Hc Hp].
  cbn [app runs_ok] in H. rewrite Hc in H.
  apply andb_true_iff in H. destruct H as [H1 H2]. apply Nat.leb_le in H1.
  destruct w as [|d w]; [simpl; lia|].
  specialize (IH (S seen) ltac:(discriminate) Hp H2). simpl length in *. lia.
Qed.

Lemma runs_ok_no_run (p : ascii -> bool) (k : nat) (s : str) :
  runs_ok p k 0 s = true -> no_run p (S k) s.
Proof.
  intros H pre w post -> Hl. destruct (forallb p w) eqn:E; [|reflexivity].
  apply runs_ok_suffix in H.
  assert (Hw : w <> []) by (intros ->; discriminate Hl).
  pose proof (runs_ok_run p k w post 0 Hw E H). lia.
Qed.

Lemma replace_crlf_id (s : str) :
  Forall (fun c => is_cr c = false) s -> replace_crlf s = s.
Proof.
  induction s as [|c r IH]; intros H; [reflexivity|].
  inversion H as [|? ? Hc Hr]; subst. destruct r as [|d r']; [reflexivity|].
  change (replace_crlf (c :: d :: r'))
    with (if is_cr c && is_newline d then LF :: replace_crlf r'
          else c :: replace_crlf (d :: r')).
  rewrite Hc. cbn [andb]. f_equal. now apply IH.
Qed.

Lemma replace_char_id (p : ascii -> bool) (by_ : ascii) (s : str) :
  Forall (fun c => p c = false) s -> replace_char p by_ s = s.
Proof.
  intros H. unfold replace_char. rewrite <- (map_id s) at 2.
  apply map_ext_in. intros c Hc. rewrite Forall_forall in H. now rewrite (H c Hc).
Qed.

Lemma blank_is (c : ascii) : is_blank c = true -> c = " "%char.
Proof. destruct c as [[] [] [] [] [] [] [] []]; vm_compute; congruence. Qed.

Lemma newline_is (c : ascii) : is_newline c = true -> c = LF.
Proof. destruct c as [[] [] [] [] [] [] [] []]; vm_compute; congruence. Qed.

Lemma blank_not_newline (c : ascii) : is_blank c = true -> is_newline c = false.
Proof. intros H. apply blank_is in H. now subst. Qed.

(** [cleanText] in terms of the runs it keeps. *)
Lemma cleanText_eq (text : str) :
  cleanText text
  = trim
      (limit_run is_newline 2 0
         (limit_run is_blank 1 0
            (replace_char is_tab " "%char
               (replace_char is_cr LF (replace_crlf text))))).
Proof.
  unfold cleanText.
  rewrite (replace_runs_limit is_blank " "%char 1 blank_is).
  now rewrite (replace_runs_limit is_newline LF 2 newline_is).
Qed.

Lemma cleanText_chars (text : str) (c : ascii) :
  In c (cleanText text) -> is_cr c = false /\ is_tab c = false.
Proof.
  rewrite cleanText_eq. intros H.
  apply trim_In, limit_run_In, limit_run_In in H.
  unfold replace_char in H. apply in_map_iff in H. destruct H as [d [<- H]].
  apply in_map_iff in H. destruct H as [e [<- _]].
  destruct (is_cr e) eqn:E1.
  - split; reflexivity.
  - destruct (is_tab e) eqn:E2; [split; reflexivity | now split].
Qed.

Lemma cleanText_blanks (text : str) : runs_ok is_blank 1 0 (cleanText text) = true.
Proof.
  rewrite cleanText_eq. eapply runs_ok_occurs; [apply trim_occurs|].
  apply (limit_run_other is_newline is_blank 1 1 _ blank_not_newline 0 0);
    [now left|].
  apply (limit_run_ok is_blank 1 _ 0).
Qed.

Lemma cleanText_newlines (text : str) : runs_ok is_newline 2 0 (cleanText text) = true.
Proof.
  rewrite cleanText_eq. eapply runs_ok_occurs; [apply trim_occurs|].
  apply (limit_run_ok is_newline 2 _ 0).
Qed.

End Cleaning.

(** X24.  [cleanText] returns a text without carriage return and without
    tab, in which no two spaces and no three line feeds follow one another,
    and which has no white space at either end; cleaning a cleaned text
    changes nothing. *)
Theorem cleanText_normal_form (text : str) :
  Forall (fun c => is_cr c = false /\ is_tab c = false) (cleanText text)
  /\ no_run is_blank 2 (cleanText text)
  /\ no_run is_newline 3 (cleanText text)
  /\ trimmed (cleanText text)
  /\ cleanText (cleanText text) = cleanText text.
Proof.
  pose proof (cleanText_blanks text) as Hb.
  pose proof (cleanText_newlines text) as Hn.
  assert (Hc : Forall (fun c => is_cr c = false /\ is_tab c = false) (cleanText text))
    by (apply Forall_forall; intros c; apply cleanText_chars).
  assert (Ht : trimmed (cleanText text)) by (unfold cleanText; apply trim_trimmed).
  split; [exact Hc|]. split; [now apply runs_ok_no_run|].
  split; [now apply runs_ok_no_run|]. split; [exact Ht|].
  set (r := cleanText text) in *. rewrite (cleanText_eq r).
  rewrite replace_crlf_id
    by (eapply Forall_impl; [|exact Hc]; intros c H; apply H).
  rewrite (replace_char_id is_cr LF r)
    by (eapply Forall_impl; [|exact Hc]; intros c H; apply H).
  rewrite (replace_char_id is_tab " "%char r)
    by (eapply Forall_impl; [|exact Hc]; intros c H; apply H).
  rewrite (limit_run_id is_blank 1 r 0 Hb), (limit_run_id is_newline 2 r 0 Hn).
  now apply trim_id.
Qed.

(* ================================================================== *)
(** * Further properties: the top terms *)
(* ================================================================== *)

Section Top.
Import VectorStore TopTerms.
Local Open Scope R_scope.

Lemma Map_get_In (V : Type) (m : Map V) (k : str) (v : V) :
  NoDup (keys m) -> (Map_get m k = Some v <-> In (k, v) m).
Proof.
  induction m as [|[k' v'] r IH]; intros Hnd.
  - split; [discriminate | intros []].
  - cbn [keys map fst] in Hnd. inversion Hnd as [|? ? Hout Hr]; subst.
    fold (keys r) in *. cbn [Map_get]. destruct (str_eqb k' k) eqn:E.
    + apply str_eqb_eq in E. subst k'. split.
      * intros H. injection H as ->. now left.
      * intros [H|H]; [now injection H as -> |].
        exfalso. apply Hout. unfold keys. apply in_map_iff. now exists (k, v).
    + apply str_eqb_neq in E. rewrite (IH Hr). split; [now right|].
      intros [H|H]; [injection H as -> ->; congruence | exact H].
Qed.

Lemma Map_get_Permutation (V : Type) (a b : Map V) (k : str) :
  NoDup (keys a) -> Permutation a b -> Map_get a k = Map_get b k.
Proof.
  intros Ha Hp.
  assert (Hb : NoDup (keys b)).
  { eapply Permutation_NoDup; [|exact Ha]. unfold keys. now apply Permutation_map. }
  destruct (Map_get a k) as [v|] eqn:Ea.
  - symmetry. apply (Map_get_In _ b k v Hb).
    apply (Permutation_in _ Hp). now apply (Map_get_In _ a k v Ha).
  - destruct (Map_get b k) as [v|] eqn:Eb; [|reflexivity].
    apply (Map_get_In _ b k v Hb) in Eb.
    apply (Permutation_in _ (Permutation_sym Hp)) in Eb.
    apply (Map_get_In _ a k v Ha) in Eb. congruence.
Qed.

Lemma filter_partition (A : Type) (f : A -> bool) (l : list A) :
  Permutation (filter f l ++ filter (fun x => negb (f x)) l) l.
Proof.
  induction l as [|x l IH]; [constructor|]. cbn [filter].
  destruct (f x); cbn [negb app].
  - now constructor.
  - apply Permutation_sym, Permutation_cons_app, Permutation_sym, IH.
Qed.

Lemma Object_entries_perm (vector : TFIDFVector) :
  Permutation (Object_entries vector) vector.
Proof.
  unfold Object_entries.
  eapply Permutation_trans; [|apply (filter_partition _ (fun e => is_index (fst e)))].
  apply Permutation_app_tail, sort_perm.
Qed.

Lemma accumulate_get (entries : list (str * R)) :
  NoDup (keys entries) ->
  forall (m : Map R) (t : str),
  Map_get (fold_left accumulate entries m) t
  = match Map_get entries t with
    | Some v => Some (score_or_0 m t + v)
    | None => Map_get m t
    end.
Proof.
  induction entries as [|[k v] r IH]; intros Hnd m t; [reflexivity|].
  cbn [keys map fst] in Hnd. inversion Hnd as [|? ? Hout Hr]; subst.
  fold (keys r) in *. cbn [fold_left accumulate]. rewrite (IH Hr).
  cbn [Map_get]. destruct (str_eqb k t) eqn:E.
  - apply str_eqb_eq in E. subst t.
    replace (Map_get r k) with (@None R) by (symmetry; now apply Map_get_None).
    rewrite Map_get_set, str_eqb_refl. reflexivity.
  - unfold score_or_0 at 1. rewrite Map_get_set, E. reflexivity.
Qed.

Lemma entries_get (vector : TFIDFVector) (m : Map R) (t : str) :
  NoDup (keys vector) ->
  Map_get (fold_left accumulate (Object_entries vector) m) t
  = match Map_get vector t with
    | Some v => Some (score_or_0 m t + v)
    | None => Map_get m t
    end.
Proof.
  intros Hnd.
  assert (Hp : Permutation vector (Object_entries vector))
    by apply Permutation_sym, Object_entries_perm.
  rewrite accumulate_get.
  - now rewrite <- (Map_get_Permutation _ vector _ t Hnd Hp).
  - eapply Permutation_NoDup; [|exact Hnd]. unfold keys. now apply Permutation_map.
Qed.

Lemma accumulate_NoDup (entries : list (str * R)) :
  forall m : Map R,
  NoDup (keys m) -> NoDup (keys (fold_left accumulate entries m)).
Proof.
  induction entries as [|[k v] r IH]; intros m Hm; [exact Hm|].
  cbn [fold_left accumulate]. apply IH. now apply NoDup_keys_Map_set.
Qed.

Lemma in_keys_get (V : Type) (m : Map V) (k : str) :
  In k (keys m) <-> Map_get m k <> None.
Proof.
  pose proof (Map_get_None _ m k) as H. split.
  - intros Hin E. now apply H in E.
  - intros Hn. destruct (in_dec str_dec k (keys m)) as [Hin|Hout]; [exact Hin|].
    apply H in Hout. contradiction.
Qed.

(** The state of [termScores] after the chunks [cs], from the state [m]. *)
Lemma termScores_fold (cs : list ProcessedChunk) :
  (forall c, In c cs -> NoDup (keys (tfidfVector c))) ->
  forall m : Map R,
  let m' :=
    fold_left
      (fun termScores chunk =>
         fold_left accumulate (Object_entries (tfidfVector chunk)) termScores)
      cs m in
  (forall t, score_or_0 m' t = score_or_0 m t + total_weight cs t)
  /\ (forall t, In t (keys m')
        <-> In t (keys m) \/ exists c, In c cs /\ In t (keys (tfidfVector c)))
  /\ (NoDup (keys m) -> NoDup (keys m')).
Proof.
  induction cs as [|c cs IH]; intros Hcs m; cbn [fold_left].
  - cbv zeta. cbn [total_weight fold_right]. split; [intros t; lra|]. split; [|auto].
    intros t. split; [now left | intros [H|[c [[] _]]]; exact H].
  - assert (Hc : NoDup (keys (tfidfVector c))) by (apply Hcs; now left).
    specialize (IH (fun c' H => Hcs c' (or_intror H))
                  (fold_left accumulate (Object_entries (tfidfVector c)) m)).
    cbv zeta in *. destruct IH as [IH1 [IH2 IH3]]. split; [|split].
    + intros t. rewrite IH1. cbn [total_weight fold_right].
      fold (total_weight cs t).
      unfold score_or_0 at 1. rewrite (entries_get _ m t Hc). unfold weight.
      destruct (Map_get (tfidfVector c) t); [lra|]. fold (score_or_0 m t). lra.
    + intros t. rewrite IH2, !in_keys_get, (entries_get _ m t Hc). split.
      * intros [H|[c' [Hc' Ht]]].
        -- destruct (Map_get (tfidfVector c) t) eqn:E; [|now left].
           right. exists c. split; [now left|]. apply in_keys_get. congruence.
        -- right. exists c'. split; [now right | exact Ht].
      * intros [H|[c' [[<-|Hc'] Ht]]].
        -- left. destruct (Map_get (tfidfVector c) t); [discriminate | exact H].
        -- left. apply in_keys_get in Ht.
           destruct (Map_get (tfidfVector c) t); [discriminate | contradiction].
        -- right. now exists c'.
    + intros Hm. apply IH3. now apply accumulate_NoDup.
Qed.

Lemma by_score_later_asym (a b : termScore) :
  by_score a b = true -> by_score b a = false.
Proof.
  unfold by_score. destruct (Rlt_dec 0 (score b - score a)); [|discriminate].
  intros _. destruct (Rlt_dec 0 (score a - score b)); [lra | reflexivity].
Qed.

Lemma by_score_later_trans (a b c : termScore) :
  by_score a b = false -> by_score b c = false -> by_score a c = false.
Proof.
  unfold by_score.
  destruct (Rlt_dec 0 (score b - score a)); [discriminate|].
  destruct (Rlt_dec 0 (score c - score b)); [discriminate|].
  destruct (Rlt_dec 0 (score c - score a)); [lra | reflexivity].
Qed.

Lemma NoDup_firstn (A : Type) (n : nat) (l : list A) : NoDup l -> NoDup (firstn n l).
Proof.
  intros H. rewrite <- (firstn_skipn n l) in H. now apply NoDup_app_remove_r in H.
Qed.

Lemma constructor_vector_keys (documentChunks : list DocumentChunk) (c : ProcessedChunk) :
  In c (chunks (constructor documentChunks)) ->
  NoDup (keys (tfidfVector c))
  /\ (forall key, 0 <= weight (tfidfVector c) key)
  /\ forall key, In key (keys (tfidfVector c)) ->
       In key (vocabulary (constructor documentChunks)) /\ key <> lit "__proto__".
Proof.
  rewrite constructor_chunks, in_map_iff. intros [d [<- Hd]].
  cbn [tfidfVector process].
  pose proof (extractTerms_NoDup (text d)) as Hnd.
  rewrite keys_calculateTFIDF by exact Hnd. split; [now apply NoDup_filter|]. split.
  - intros key. apply calculateTFIDF_nonneg; [exact Hnd | apply idf_nonneg].
  - intros key Hkey. apply filter_In in Hkey. destruct Hkey as [Hin Hp]. split.
    + apply constructor_vocabulary_In. now exists d.
    + apply negb_true_iff in Hp. intros E. apply is_proto_eq in E. congruence.
Qed.

Lemma total_weight_nonneg (cs : list ProcessedChunk) (t : str) :
  (forall c, In c cs -> 0 <= weight (tfidfVector c) t) -> 0 <= total_weight cs t.
Proof.
  induction cs as [|c cs IH]; intros H; cbn [total_weight fold_right]; [lra|].
  fold (total_weight cs t).
  pose proof (H c (or_introl eq_refl)).
  pose proof (IH (fun c' Hc' => H c' (or_intror Hc'))). lra.
Qed.

End Top.

(** X25.  On a store built from a list of chunks, [getTopTerms] returns
    distinct terms of the vocabulary, each with the sum of its weights over
    all chunks as its score, which is not negative, in descending order of
    score, and at most [limit] of them (20 without a limit); with a limit
    of at least the size of the vocabulary every term of the vocabulary
    except [__proto__] is returned. *)
Theorem getTopTerms_scores (documentChunks : list DocumentChunk) (limit : option Z) :
  let this := VectorStore.constructor documentChunks in
  let top := TopTerms.getTopTerms this limit in
  let n := match limit with Some l => l | None => 20%Z end in
  NoDup (map TopTerms.term top)
  /\ Forall
       (fun e =>
          In (TopTerms.term e) (VectorStore.vocabulary this)
          /\ TopTerms.term e <> lit "__proto__"
          /\ TopTerms.score e = total_weight (VectorStore.chunks this) (TopTerms.term e)
          /\ (0 <= TopTerms.score e)%R)
       top
  /\ StronglySorted (fun a b => (TopTerms.score b <= TopTerms.score a)%R) top
  /\ ((0 <= n)%Z -> (Z.of_nat (length top) <= n)%Z)
  /\ ((Z.of_nat (length (VectorStore.vocabulary this)) <= n)%Z ->
      forall t, In t (VectorStore.vocabulary this) -> t <> lit "__proto__" ->
      In t (map TopTerms.term top)).
Proof.
  intros this top n.
  pose proof (constructor_vector_keys documentChunks) as Hv. fold this in Hv.
  destruct (termScores_fold (VectorStore.chunks this) (fun c Hc => proj1 (Hv c Hc)) [])
    as [Hscore [Hkeys Hnd]].
  cbv zeta in Hscore, Hkeys, Hnd. fold (TopTerms.termScores this) in Hscore, Hkeys, Hnd.
  specialize (Hnd (NoDup_nil _)).
  set (ts := TopTerms.termScores this) in *.
  set (objs := map (fun e : str * R =>
                      let '(term, score) := e in
                      {| TopTerms.term := term; TopTerms.score := score |}) ts).
  set (sorted := sort TopTerms.by_score objs).
  assert (Etop : top = slice0 sorted n) by reflexivity.
  assert (Hterms : map TopTerms.term objs = keys ts).
  { unfold objs, keys. rewrite map_map. apply map_ext. now intros [t v]. }
  assert (Hperm : Permutation sorted objs) by apply sort_perm.
  assert (Hnds : NoDup (map TopTerms.term sorted)).
  { eapply Permutation_NoDup;
      [apply Permutation_map, Permutation_sym, Hperm | now rewrite Hterms]. }
  assert (Hobj : forall e, In e sorted ->
            In (TopTerms.term e, TopTerms.score e) ts).
  { intros e He. apply (Permutation_in _ Hperm) in He.
    unfold objs in He. apply in_map_iff in He. destruct He as [[t v] [<- He]].
    exact He. }
  split; [|split; [|split; [|split]]].
  - rewrite Etop. unfold slice0. rewrite <- firstn_map. now apply NoDup_firstn.
  - apply Forall_forall. intros e He. rewrite Etop in He. apply slice0_In in He.
    apply Hobj in He.
    assert (Hk : In (TopTerms.term e) (keys ts))
      by (unfold keys; apply in_map_iff; now exists (TopTerms.term e, TopTerms.score e)).
    apply (Map_get_In _ ts _ _ Hnd) in He.
    apply Hkeys in Hk. destruct Hk as [[]|[c [Hc Hk]]].
    destruct (Hv c Hc) as [_ [_ Hin]]. destruct (Hin _ Hk) as [H1 H2].
    split; [exact H1|]. split; [exact H2|].
    assert (Es : TopTerms.score e
                 = total_weight (VectorStore.chunks this) (TopTerms.term e)).
    { specialize (Hscore (TopTerms.term e)). unfold TopTerms.score_or_0 in Hscore.
      rewrite He in Hscore. cbn [Map_get] in Hscore. lra. }
    split; [exact Es|]. rewrite Es. apply total_weight_nonneg.
    intros c' Hc'. apply (Hv c' Hc').
  - rewrite Etop. apply slice0_StronglySorted.
    apply (StronglySorted_weaken _ (may_precede TopTerms.termScore TopTerms.by_score)).
    + apply (sort_sorted _ TopTerms.by_score (fun _ => True)).
      * intros x y _ _. apply by_score_later_asym.
      * intros x y z _ _ _. apply by_score_later_trans.
      * apply Forall_forall. auto.
    + intros x y _ _. unfold may_precede, TopTerms.by_score.
      destruct (Rlt_dec 0 (TopTerms.score y - TopTerms.score x)); [discriminate|].
      intros _. lra.
  - intros Hn. rewrite Etop, slice0_length by exact Hn. lia.
  - intros Hn t Ht Hp.
    assert (Hlen : (length sorted <= length (VectorStore.vocabulary this))%nat).
    { unfold sorted. rewrite sort_length. unfold objs. rewrite length_map.
      rewrite <- (length_map fst ts). fold (keys ts).
      apply NoDup_incl_length; [exact Hnd|]. intros k Hk.
      apply Hkeys in Hk. destruct Hk as [[]|[c [Hc Hk]]].
      now apply (Hv c Hc). }
    assert (Eall : top = sorted).
    { rewrite Etop. unfold slice0.
      destruct (Z.ltb_spec n 0) as [Hneg|_]; [lia|].
      apply firstn_all2. lia. }
    rewrite Eall. apply (Permutation_in _ (Permutation_map _ (Permutation_sym Hperm))).
    rewrite Hterms. apply Hkeys. right.
    apply constructor_vocabulary_In in Ht. destruct Ht as [d [Hd Ht]].
    exists (process (VectorStore.idfScores this) d). split.
    + unfold this. rewrite constructor_chunks. now apply in_map.
    + cbn [VectorStore.tfidfVector process].
      apply calculateTFIDF_owns; [apply extractTerms_NoDup | exact Ht |].
      destruct (is_proto t) eqn:E; [|reflexivity]. apply is_proto_eq in E. contradiction.
Qed.

(* ================================================================== *)
(** * Further properties: documents of one paragraph *)
(* ================================================================== *)

Section OneParagraph.
Local Open Scope Z_scope.

Lemma split_paragraphs_none (s : str) :
  (forall c, In c s -> is_newline c = false) ->
  forall cur, split_by match_paragraph 0 cur s = [rev cur ++ s].
Proof.
  induction s as [|c s IH]; intros Hs cur; cbn [split_by].
  - now rewrite app_nil_r.
  - unfold match_paragraph at 1. rewrite (Hs c (or_introl eq_refl)).
    rewrite IH by (intros d Hd; apply Hs; now right).
    cbn [rev]. now rewrite <- app_assoc.
Qed.

(** A text without line feed whose trimmed length is at least [minSize] and
    below [targetSize] becomes one chunk, which holds the trimmed text. *)
Lemma chunkText_one (text : str) (pageBreaks : list Z) :
  (forall c, In c text -> is_newline c = false) ->
  CHUNK_CONFIG.minSize <= len (trim text) < CHUNK_CONFIG.targetSize ->
  chunkText text pageBreaks
  = [createChunk (trim text) 0 0 (len (trim text) + 1) pageBreaks].
Proof.
  intros Hn [Hmin Hmax]. unfold chunkText, CHUNK_CONFIG.paragraphPattern, split.
  rewrite (split_paragraphs_none text Hn []). cbn [rev app fold_left].
  assert (Ht : truthy (trim text) = true).
  { destruct (trim text); [|reflexivity].
    unfold CHUNK_CONFIG.minSize in Hmin. cbn in Hmin. lia. }
  unfold chunk_step. rewrite Ht. cbn [negb].
  unfold add_paragraph, chunker_init. cbn [currentChunk truthy andb chunks next_index
    currentPosition chunkStartPosition advance].
  unfold break_at_sentence. cbn [currentChunk advance].
  destruct (Z.leb_spec CHUNK_CONFIG.targetSize (len (trim text))); [lia|].
  unfold final_chunk, advance. cbn [currentChunk chunks next_index currentPosition
    chunkStartPosition].
  rewrite (trim_id (trim text)) by apply trim_trimmed. rewrite Ht.
  destruct (Z.leb_spec CHUNK_CONFIG.minSize (len (trim text))); [|lia].
  cbn [andb app]. do 2 f_equal. lia.
Qed.

End OneParagraph.

(** X26.  A text without line feed whose trimmed length is at least
    [minSize] and below [targetSize] becomes exactly one chunk: chunk 0,
    holding the trimmed text, starting at offset 0. *)
Theorem chunkText_single_paragraph (text : str) (pageBreaks : list Z) :
  (forall c, In c text -> is_newline c = false) ->
  (CHUNK_CONFIG.minSize <= len (trim text) < CHUNK_CONFIG.targetSize)%Z ->
  exists c,
    chunkText text pageBreaks = [c]
    /\ TextProcessing.text c = trim text
    /\ chunkIndex c = 0%Z
    /\ startOffset c = 0%Z
    /\ endOffset c = (len (trim text) + 1)%Z
    /\ pageNumber c = getPageNumber 0 pageBreaks.
Proof.
  intros Hn Hl. rewrite (chunkText_one text pageBreaks Hn Hl).
  eexists. split; [reflexivity|]. repeat split.
Qed.

Lemma chunkText_single_paragraph_witness :
  exists c,
    chunkText (repeat "a"%char 250 ++ lit " ") [] = [c]
    /\ TextProcessing.text c = trim (repeat "a"%char 250 ++ lit " ")
    /\ chunkIndex c = 0%Z
    /\ startOffset c = 0%Z
    /\ endOffset c = (len (trim (repeat "a"%char 250 ++ lit " ")) + 1)%Z
    /\ pageNumber c = getPageNumber 0 [].
Proof.
  apply (chunkText_single_paragraph (repeat "a"%char 250 ++ lit " ") []).
  - intros c Hc. apply in_app_or in Hc. destruct Hc as [Hc|[<-|[]]]; [|reflexivity].
    apply repeat_spec in Hc. now subst.
  - vm_compute. split; [discriminate | reflexivity].
Defined.

(** X27.  A document of one paragraph that makes a single chunk cannot be
    queried: for a text without line feed whose trimmed length is at least
    [minSize] and below [targetSize], and without a term that names a
    property of [Object.prototype] in the text or in the question, the chat
    over the store built from the chunks of the text answers every question
    with the message that it could not find information. *)
Theorem single_paragraph_document_not_found
    (text : str) (pageBreaks : list Z) (inputValue : str) :
  (forall c, In c text -> is_newline c = false) ->
  (CHUNK_CONFIG.minSize <= len (trim text) < CHUNK_CONFIG.targetSize)%Z ->
  truthy (trim inputValue) = true ->
  plain (extractTerms (trim inputValue)) ->
  plain (extractTerms (trim text)) ->
  ChatInterface.handleSubmit (VectorStore.constructor (chunkText text pageBreaks))
    inputValue
  = Some {| ChatInterface.content := ChatInterface.notFound;
            ChatInterface.sources := None |}.
Proof.
  intros Hn Hl Ht Hq Hp. rewrite (chunkText_one text pageBreaks Hn Hl).
  now apply handleSubmit_one.
Qed.

Lemma single_paragraph_document_not_found_witness :
  ChatInterface.handleSubmit
    (VectorStore.constructor (chunkText (repeat "a"%char 250 ++ lit " cats purr") []))
    (lit "Do cats purr?")
  = Some {| ChatInterface.content := ChatInterface.notFound;
            ChatInterface.sources := None |}.
Proof.
  apply (single_paragraph_document_not_found
           (repeat "a"%char 250 ++ lit " cats purr") [] (lit "Do cats purr?")).
  - intros c Hc. apply in_app_or in Hc. destruct Hc as [Hc|Hc].
    + apply repeat_spec in Hc. now subst.
    + vm_compute in Hc. repeat (destruct Hc as [<-|Hc]; [reflexivity|]). contradiction.
  - vm_compute. split; [discriminate | reflexivity].
  - reflexivity.
  - apply plain_forallb. vm_compute. reflexivity.
  - apply plain_forallb. vm_compute. reflexivity.
Defined.

Section TwoParagraphs.
Local Open Scope Z_scope.

Lemma last_newline_none (w : str) :
  (forall c, In c w -> is_newline c = false) -> last_newline w = None.
Proof.
  induction w as [|c w IH]; intros H; [reflexivity|]. cbn [last_newline].
  rewrite IH by (intros d Hd; apply H; now right).
  now rewrite (H c (or_introl eq_refl)).
Qed.

Lemma split_two_paragraphs (p1 p2 : str) :
  (forall c, In c p1 -> is_newline c = false) ->
  (forall c, In c p2 -> is_newline c = false) ->
  forall cur,
  split_by match_paragraph 0 cur (p1 ++ two_newlines ++ p2) = [rev cur ++ p1; p2].
Proof.
  intros H1 H2. induction p1 as [|c p1 IH]; intros cur.
  - cbn [app two_newlines]. rewrite app_nil_r.
    change (split_by match_paragraph 0 cur ("010"%char :: "010"%char :: p2))
      with (match match_paragraph ("010"%char :: "010"%char :: p2) with
            | Some (S k) => rev cur :: split_by match_paragraph k [] ("010"%char :: p2)
            | _ => split_by match_paragraph 0 ("010"%char :: cur) ("010"%char :: p2)
            end).
    assert (E : match_paragraph ("010"%char :: "010"%char :: p2) = Some 2%nat).
    { unfold match_paragraph.
      change (is_newline "010"%char) with true. cbv iota.
      change (run_length is_space ("010"%char :: p2))
        with (S (run_length is_space p2)).
      cbn [firstn last_newline].
      rewrite last_newline_none; [reflexivity|].
      intros d Hd. apply H2. now apply firstn_In in Hd. }
    rewrite E. cbn [split_by]. now rewrite (split_paragraphs_none p2 H2 []).
  - cbn [app split_by]. unfold match_paragraph at 1.
    rewrite (H1 c (or_introl eq_refl)).
    rewrite IH by (intros d Hd; apply H1; now right).
    cbn [rev]. now rewrite <- app_assoc.
Qed.

(** The paragraph that makes the buffer exceed [maxSize] is not added to the
    buffer that is started after the chunk. *)
Lemma chunkText_two (p1 p2 : str) (pageBreaks : list Z) :
  (forall c, In c p1 -> is_newline c = false) ->
  (forall c, In c p2 -> is_newline c = false) ->
  CHUNK_CONFIG.minSize <= len (trim p1) < CHUNK_CONFIG.targetSize ->
  CHUNK_CONFIG.maxSize < len (trim p1) + len (trim p2) ->
  chunkText (p1 ++ two_newlines ++ p2) pageBreaks
  = [createChunk (trim p1) 0 0 (len (trim p1) + 1) pageBreaks].
Proof.
  intros H1 H2 [Hmin Hmax] Hbig.
  unfold chunkText, CHUNK_CONFIG.paragraphPattern, split.
  rewrite (split_two_paragraphs p1 p2 H1 H2 []). cbn [rev app fold_left].
  assert (Ht1 : truthy (trim p1) = true).
  { destruct (trim p1); [|reflexivity].
    unfold CHUNK_CONFIG.minSize in Hmin. cbn in Hmin. lia. }
  assert (Ht2 : truthy (trim p2) = true).
  { destruct (trim p2); [|reflexivity].
    unfold CHUNK_CONFIG.maxSize, CHUNK_CONFIG.targetSize in *. cbn in Hbig. lia. }
  assert (Hov : len (getOverlapText (trim p1) CHUNK_CONFIG.overlapSize)
                <= CHUNK_CONFIG.overlapSize).
  { apply getOverlapText_spec. unfold CHUNK_CONFIG.overlapSize. lia. }
  (* first paragraph *)
  assert (E1 : chunk_step pageBreaks chunker_init p1
               = {| chunks := []; next_index := 0;
                    currentPosition := 0 + (len (trim p1) + 2);
                    currentChunk := trim p1; chunkStartPosition := 0 |}).
  { unfold chunk_step. rewrite Ht1. cbn [negb].
    unfold add_paragraph, chunker_init. cbn [currentChunk truthy andb chunks next_index
      currentPosition chunkStartPosition].
    unfold break_at_sentence, advance. cbn [currentChunk chunks next_index
      currentPosition chunkStartPosition].
    destruct (Z.leb_spec CHUNK_CONFIG.targetSize (len (trim p1))); [lia | reflexivity]. }
  rewrite E1.
  (* second paragraph *)
  unfold chunk_step. rewrite Ht2. cbn [negb].
  unfold add_paragraph. cbn [currentChunk chunks next_index currentPosition
    chunkStartPosition].
  rewrite Ht1. cbn [andb].
  destruct (Z.ltb_spec CHUNK_CONFIG.maxSize (len (trim p1) + len (trim p2))); [|lia].
  destruct (Z.leb_spec CHUNK_CONFIG.minSize (len (trim p1))); [|lia].
  unfold break_at_sentence, advance. cbn [currentChunk chunks next_index
    currentPosition chunkStartPosition].
  destruct (Z.leb_spec CHUNK_CONFIG.targetSize
              (len (getOverlapText (trim p1) CHUNK_CONFIG.overlapSize)));
    [unfold CHUNK_CONFIG.targetSize, CHUNK_CONFIG.overlapSize in *; lia|].
  unfold final_chunk. cbn [currentChunk chunks next_index currentPosition
    chunkStartPosition].
  destruct (Z.leb_spec CHUNK_CONFIG.minSize
              (len (getOverlapText (trim p1) CHUNK_CONFIG.overlapSize)));
    [unfold CHUNK_CONFIG.minSize, CHUNK_CONFIG.overlapSize in *; lia|].
  rewrite andb_false_r. cbn [app].
  rewrite (trim_id (trim p1)) by apply trim_trimmed. do 2 f_equal. lia.
Qed.

End TwoParagraphs.

(** X28.  The paragraph that makes the buffer exceed [maxSize] is lost when
    the buffer is emitted: for a text of two paragraphs without other line
    feeds, the first of a trimmed length of at least [minSize] and below
    [targetSize], and the two together longer than [maxSize], [chunkText]
    returns one chunk only, and its text is the first paragraph. *)
Theorem chunkText_drops_paragraph (p1 p2 : str) (pageBreaks : list Z) :
  (forall c, In c p1 -> is_newline c = false) ->
  (forall c, In c p2 -> is_newline c = false) ->
  (CHUNK_CONFIG.minSize <= len (trim p1) < CHUNK_CONFIG.targetSize)%Z ->
  (CHUNK_CONFIG.maxSize < len (trim p1) + len (trim p2))%Z ->
  exists c,
    chunkText (p1 ++ two_newlines ++ p2) pageBreaks = [c]
    /\ TextProcessing.text c = trim p1
    /\ chunkIndex c = 0%Z
    /\ startOffset c = 0%Z
    /\ endOffset c = (len (trim p1) + 1)%Z.
Proof.
  intros H1 H2 Hl Hbig. rewrite (chunkText_two p1 p2 pageBreaks H1 H2 Hl Hbig).
  eexists. split; [reflexivity|]. repeat split.
Qed.

Lemma chunkText_drops_paragraph_witness :
  exists c,
    chunkText (repeat "a"%char 300 ++ two_newlines ++ repeat "b"%char 1000) [] = [c]
    /\ TextProcessing.text c = trim (repeat "a"%char 300)
    /\ chunkIndex c = 0%Z
    /\ startOffset c = 0%Z
    /\ endOffset c = (len (trim (repeat "a"%char 300)) + 1)%Z.
Proof.
  apply (chunkText_drops_paragraph (repeat "a"%char 300) (repeat "b"%char 1000) []).
  - intros c Hc. apply repeat_spec in Hc. now subst.
  - intros c Hc. apply repeat_spec in Hc. now subst.
  - vm_compute. split; [discriminate | reflexivity].
  - vm_compute. reflexivity.
Defined.

(* ================================================================== *)
(** * Further properties: what the size tests of [chunkText] guarantee *)
(* ================================================================== *)

Section Spans.
Local Open Scope Z_scope.

Lemma trimStart_keeps (s : str) (c : ascii) :
  In c s -> is_space c = false -> In c (trimStart s).
Proof.
  intros Hin Hc. induction s as [|x s IH]; [contradiction|]. simpl.
  destruct (is_space x) eqn:E; [|exact Hin].
  destruct Hin as [->|Hin]; [congruence | now apply IH].
Qed.

Lemma trim_keeps (s : str) (c : ascii) :
  In c s -> is_space c = false -> In c (trim s).
Proof.
  intros Hin Hc. unfold trim, trimEnd. apply in_rev. rewrite rev_involutive.
  apply trimStart_keeps; [|exact Hc]. apply in_rev. rewrite rev_involutive.
  now apply trimStart_keeps.
Qed.

Lemma inked_trim (n : Z) (s : str) : inked n s -> trim s <> [].
Proof.
  intros [pre [c [post [-> [Hc _]]]]] E.
  assert (H : In c (trim (pre ++ c :: post))).
  { apply trim_keeps; [|exact Hc]. apply in_or_app. right. now left. }
  rewrite E in H. contradiction.
Qed.

Lemma inked_first (n : Z) (s : str) :
  0 <= n -> trimmed s -> s <> [] -> inked n s.
Proof.
  intros Hn [Hh _] Hs. destruct s as [|c r]; [congruence|].
  exists [], c, r. repeat split; [exact Hh | exact Hn].
Qed.

Lemma inked_app (n : Z) (s t : str) : inked n s -> inked n (s ++ t).
Proof.
  intros [pre [c [post [-> [Hc Hl]]]]]. exists pre, c, (post ++ t).
  split; [now rewrite <- app_assoc | now split].
Qed.

Lemma inked_after (n : Z) (s t : str) :
  trimmed t -> t <> [] -> len s <= n -> inked n (s ++ t).
Proof.
  intros [Hh _] Ht Hl. destruct t as [|c r]; [congruence|].
  exists s, c, r. repeat split; assumption.
Qed.

Lemma inked_substring (n b : Z) (s : str) :
  inked n s -> n < b -> inked n (substring s 0 b).
Proof.
  intros [pre [c [post [-> [Hc Hl]]]]] Hb.
  unfold substring, clamp.
  replace (Z.to_nat (Z.min (Z.max 0 0) (len (pre ++ c :: post)))) with 0%nat
    by (unfold len; lia).
  rewrite Nat.min_0_l, Nat.max_0_l, Nat.sub_0_r. cbn [skipn].
  set (k := Z.to_nat (Z.min (Z.max b 0) (len (pre ++ c :: post)))).
  assert (Hk : (length pre + 1 <= k)%nat).
  { unfold k, len in *. rewrite length_app. simpl length. lia. }
  rewrite firstn_app.
  rewrite (firstn_all2 pre) by lia.
  replace (k - length pre)%nat with (S (k - length pre - 1)) by lia.
  cbn [firstn]. exists pre, c, (firstn (k - length pre - 1) post).
  repeat split; assumption.
Qed.

Lemma truthy_nonempty (s : str) : truthy s = true <-> s <> [].
Proof. destruct s; simpl; split; congruence. Qed.

Variable pageBreaks : list Z.

Lemma add_paragraph_kept (st : chunker) (paragraph : str) :
  kept st -> trimmed paragraph -> paragraph <> [] ->
  kept (advance (add_paragraph pageBreaks st paragraph) (len paragraph + 2)).
Proof.
  intros [Hm [Ha Hc]] Hp Hne.
  assert (Hlp : 0 <= len paragraph) by (unfold len; lia).
  assert (Happend :
    currentChunk st <> [] ->
    kept (advance
            {| chunks := chunks st;
               next_index := next_index st;
               currentPosition := currentPosition st;
               currentChunk := currentChunk st ++ two_newlines ++ paragraph;
               chunkStartPosition := chunkStartPosition st |}
            (len paragraph + 2))).
  { intros Hcur. unfold kept, measured, anchored, advance.
    cbn [chunks currentChunk currentPosition chunkStartPosition].
    split; [|split; [|exact Hc]].
    - right. destruct Hm as [Hm|Hm]; [contradiction|].
      rewrite !len_app. change (len two_newlines) with 2. lia.
    - right. destruct Ha as [Ha|Ha].
      + rewrite app_assoc. apply inked_after; [exact Hp | exact Hne |].
        rewrite len_app. change (len two_newlines) with 2. lia.
      + now apply inked_app. }
  unfold add_paragraph. destruct (truthy (currentChunk st)) eqn:Et.
  - assert (Hcur : currentChunk st <> []) by now apply truthy_nonempty.
    cbn [andb].
    destruct (Z.ltb_spec CHUNK_CONFIG.maxSize (len (currentChunk st) + len paragraph));
      [|now apply Happend].
    destruct (Z.leb_spec CHUNK_CONFIG.minSize (len (currentChunk st))) as [Hmin|];
      [|now apply Happend].
    pose proof (getOverlapText_spec (currentChunk st) CHUNK_CONFIG.overlapSize
                  ltac:(unfold CHUNK_CONFIG.overlapSize; lia)) as [_ Ho].
    unfold kept, measured, anchored, advance.
    cbn [chunks currentChunk currentPosition chunkStartPosition].
    split; [right; lia|]. split; [now left|].
    apply Forall_snoc; [exact Hc|].
    unfold sound, spanned. cbn [text startOffset endOffset createChunk].
    pose proof (trim_length (currentChunk st)) as Ht.
    destruct Hm as [Hm|Hm]; [contradiction|].
    split; [apply trim_trimmed|]. split; [|lia].
    destruct Ha as [Ha|Ha];
      [unfold CHUNK_CONFIG.overlapSize, CHUNK_CONFIG.minSize in *; lia|].
    now apply (inked_trim _ _ Ha).
  - cbn [andb]. unfold kept, measured, anchored, advance.
    cbn [chunks currentChunk currentPosition chunkStartPosition].
    split; [right; lia|]. split; [|exact Hc].
    right. apply inked_first; [unfold CHUNK_CONFIG.overlapSize; lia | exact Hp | exact Hne].
Qed.

Lemma findGoodBreakPoint_le (s : str) :
  CHUNK_CONFIG.targetSize <= len s -> findGoodBreakPoint s <= len s.
Proof.
  intros H. unfold findGoodBreakPoint.
  destruct (findGoodBreakPoint_loop_range
              (split CHUNK_CONFIG.sentenceEndPattern s) 0 (len s)) as [E|E];
    cbv zeta in E; lia.
Qed.

Lemma break_at_sentence_kept (st : chunker) :
  kept st -> kept (break_at_sentence pageBreaks st).
Proof.
  intros [Hm [Ha Hc]]. unfold break_at_sentence.
  destruct (Z.leb_spec CHUNK_CONFIG.targetSize (len (currentChunk st))) as [Ht|];
    [|now repeat split].
  set (b := findGoodBreakPoint (currentChunk st)).
  destruct (Z.ltb_spec CHUNK_CONFIG.minSize b) as [Hb|]; [|now repeat split].
  pose proof (findGoodBreakPoint_le (currentChunk st) Ht) as Hle. fold b in Hle.
  assert (Hcur : currentChunk st <> []).
  { intros E. rewrite E in Ht. unfold CHUNK_CONFIG.targetSize in Ht. cbn in Ht. lia. }
  destruct Hm as [Hm|Hm]; [contradiction|].
  destruct Ha as [Ha|Ha];
    [unfold CHUNK_CONFIG.overlapSize, CHUNK_CONFIG.targetSize in *; lia|].
  set (remainder := trim (substring_from (currentChunk st)
                            (b - CHUNK_CONFIG.overlapSize))).
  assert (Hr : len remainder <= len (currentChunk st) - (b - CHUNK_CONFIG.overlapSize)).
  { unfold remainder. eapply Z.le_trans; [apply trim_length|].
    rewrite substring_from_skipn
      by (unfold CHUNK_CONFIG.overlapSize, CHUNK_CONFIG.minSize in *; lia).
    unfold len. rewrite length_skipn.
    unfold CHUNK_CONFIG.overlapSize, CHUNK_CONFIG.minSize, len in *. lia. }
  unfold kept, measured, anchored.
  cbn [chunks currentChunk currentPosition chunkStartPosition].
  fold b remainder. split; [right; lia|]. split.
  - destruct remainder as [|c r] eqn:E.
    + left. unfold CHUNK_CONFIG.overlapSize. cbn. lia.
    + right. rewrite <- E.
      apply inked_first;
        [unfold CHUNK_CONFIG.overlapSize; lia | apply trim_trimmed | congruence].
  - apply Forall_snoc; [exact Hc|].
    unfold sound, spanned. cbn [text startOffset endOffset createChunk].
    split; [apply trim_trimmed|]. split.
    + apply (inked_trim (CHUNK_CONFIG.overlapSize + 2)).
      apply inked_substring; [exact Ha|].
      unfold CHUNK_CONFIG.overlapSize, CHUNK_CONFIG.minSize in *. lia.
    + pose proof (trim_length (substring (currentChunk st) 0 b)) as Hl.
      rewrite substring_0_length in Hl. unfold CHUNK_CONFIG.minSize in *. lia.
Qed.

Lemma chunk_step_kept (st : chunker) (raw : str) :
  kept st -> kept (chunk_step pageBreaks st raw).
Proof.
  intros H. unfold chunk_step. destruct (truthy (trim raw)) eqn:E; cbn [negb].
  - apply break_at_sentence_kept, add_paragraph_kept;
      [exact H | apply trim_trimmed | now apply truthy_nonempty].
  - destruct H as [Hm [Ha Hc]]. unfold kept, measured, anchored, advance.
    cbn [chunks currentChunk currentPosition chunkStartPosition].
    split; [|now split].
    destruct Hm as [Hm|Hm]; [now left | right].
    assert (0 <= len (trim raw)) by (unfold len; lia). lia.
Qed.

Lemma fold_chunk_step_kept (paragraphs : list str) (st : chunker) :
  kept st -> kept (fold_left (chunk_step pageBreaks) paragraphs st).
Proof.
  revert st. induction paragraphs as [|p ps IH]; intros st H; simpl; [exact H|].
  apply IH, chunk_step_kept, H.
Qed.

(** What the size tests do guarantee of every chunk: they bound the span of
    its offsets, not the length of its text. *)
Lemma chunkText_sound (text : str) : Forall sound (chunkText text pageBreaks).
Proof.
  unfold chunkText, final_chunk.
  set (st := fold_left _ _ _).
  assert (H : kept st).
  { apply fold_chunk_step_kept. unfold kept, measured, anchored, chunker_init.
    cbn [chunks currentChunk currentPosition chunkStartPosition].
    split; [now left|]. split; [|constructor].
    left. unfold CHUNK_CONFIG.overlapSize. cbn. lia. }
  destruct H as [Hm [_ Hc]].
  destruct (truthy (trim (currentChunk st))) eqn:Et; cbn [andb]; [|exact Hc].
  destruct (Z.leb_spec CHUNK_CONFIG.minSize (len (currentChunk st))) as [Hle|];
    [|exact Hc].
  apply Forall_snoc; [exact Hc|].
  unfold sound, spanned. cbn [TextProcessing.text startOffset endOffset createChunk].
  pose proof (trim_length (currentChunk st)) as Hl.
  split; [apply trim_trimmed|]. split; [now apply truthy_nonempty|].
  destruct Hm as [Hm|Hm]; [|lia].
  rewrite Hm in Hle. unfold CHUNK_CONFIG.minSize in Hle. cbn in Hle. lia.
Qed.

End Spans.

(** X7.  Every chunk [chunkText] returns holds a text that is not empty and
    has no white space at either end.  Its offsets span more than [minSize]
    characters, and at least as many characters as its text has: the size
    tests of [chunkText] bound the span, not the length of the text. *)
Theorem chunkText_texts (text : str) (pageBreaks : list Z) :
  Forall (fun c =>
            trimmed (TextProcessing.text c)
            /\ TextProcessing.text c <> []
            /\ (len (TextProcessing.text c) <= endOffset c - startOffset c)%Z
            /\ (CHUNK_CONFIG.minSize < endOffset c - startOffset c)%Z)
    (chunkText text pageBreaks).
Proof.
  eapply Forall_impl; [|apply (chunkText_sound pageBreaks text)].
  intros c [Ht [Hn [Hl Hs]]]. repeat split; assumption || apply Ht.
Qed.

(* ================================================================== *)
(** * Further properties: the order of the results *)
(* ================================================================== *)

Section Stability.
Import VectorStore.
Local Open Scope R_scope.

Lemma filter_map_comm (A B : Type) (f : B -> bool) (g : A -> B) (l : list A) :
  filter f (map g l) = map g (filter (fun x => f (g x)) l).
Proof.
  induction l as [|x l IH]; [reflexivity|]. cbn [map filter].
  destruct (f (g x)); cbn [map]; now rewrite IH.
Qed.

Lemma filter_firstn (A : Type) (f : A -> bool) (k : nat) (l : list A) :
  exists rest, filter f (firstn k l) ++ rest = filter f l.
Proof.
  exists (filter f (skipn k l)). now rewrite <- filter_app, firstn_skipn.
Qed.

Lemma filter_within (A : Type) (f g : A -> bool) (l : list A) :
  (forall x, In x l -> f x = true -> g x = true) ->
  filter f l = filter f (filter g l).
Proof.
  induction l as [|x l IH]; intros H; [reflexivity|]. cbn [filter].
  assert (Hl : forall y, In y l -> f y = true -> g y = true)
    by (intros y Hy; apply H; now right).
  destruct (f x) eqn:Ef.
  - rewrite (H x (or_introl eq_refl) Ef). cbn [filter]. rewrite Ef. f_equal. now apply IH.
  - destruct (g x); cbn [filter]; [rewrite Ef|]; now apply IH.
Qed.

Lemma tie_same (a b : scoredChunk) :
  sc_similarity a = sc_similarity b -> tie scoredChunk later_similarity a b = true.
Proof.
  intros E. unfold tie, later_similarity, by_similarity. rewrite E.
  destruct (sc_similarity b) as [x|]; cbn [sub positive]; [|reflexivity].
  destruct (Rlt_dec 0 (x - x)); [lra | reflexivity].
Qed.

(** Chunks with the same term list have the same vector, hence the same
    similarity: the sort leaves them in the order of the store. *)
Lemma sort_keeps_terms (documentChunks : list DocumentChunk) (query : str)
    (terms : list str) :
  plain (extractTerms query) ->
  (forall d, In d documentChunks -> plain (extractTerms (text d))) ->
  let this := constructor documentChunks in
  let chosen := fun s : scoredChunk => has_terms terms (chunk (sc_chunk s)) in
  filter chosen (sort later_similarity (similarities this query))
  = filter chosen (similarities this query).
Proof.
  intros Hq Hd this chosen.
  set (scored := similarities this query).
  set (sorted := sort later_similarity scored).
  pose proof (similarities_numeric documentChunks query Hq Hd) as Hnum.
  fold this scored in Hnum.
  assert (Hperm : Permutation sorted scored) by apply sort_perm.
  destruct (filter chosen scored) as [|z rest] eqn:E.
  - apply filter_all_false. apply Forall_forall. intros s Hs.
    apply (Permutation_in _ Hperm) in Hs.
    apply filter_nil_false in E. rewrite Forall_forall in E. now apply E.
  - rewrite <- E.
    assert (Hz : In z scored /\ chosen z = true)
      by (apply filter_In; rewrite E; now left).
    destruct Hz as [Hz Hcz].
    assert (Hsame : forall s, In s scored -> chosen s = true ->
              tie scoredChunk later_similarity z s = true).
    { intros s Hs Hcs. apply tie_same.
      unfold scored, this in Hs, Hz.
      apply in_similarities in Hs. destruct Hs as [d [_ ->]].
      apply in_similarities in Hz. destruct Hz as [d' [_ ->]].
      unfold chosen, has_terms in Hcs, Hcz.
      cbn [chunk sc_chunk score_chunk process] in Hcs, Hcz.
      destruct (list_eq_dec str_dec (extractTerms (text d)) terms) as [Ed|];
        [|discriminate].
      destruct (list_eq_dec str_dec (extractTerms (text d')) terms) as [Ed'|];
        [|discriminate].
      cbn [sc_similarity score_chunk tfidfVector process]. now rewrite Ed, Ed'. }
    rewrite (filter_within _ chosen (tie scoredChunk later_similarity z) sorted)
      by (intros s Hs; apply Hsame; now apply (Permutation_in _ Hperm)).
    rewrite (filter_within _ chosen (tie scoredChunk later_similarity z) scored)
      by exact Hsame.
    f_equal. unfold sorted.
    apply sort_stable with (P := numeric); [exact later_similarity_trans | | exact Hnum].
    rewrite Forall_forall in Hnum. now apply Hnum.
Qed.

End Stability.

(** X14.  When neither the query nor any chunk has a term that names a
    property of [Object.prototype], [search] on a store built from the
    chunks returns results whose similarities are numbers, not below 0, in
    descending order.  Chunks with the same term list, which have the same
    vector and so the same similarity, come in the order of the store: the
    results with a given term list are the first chunks of the store with
    that term list. *)
Theorem search_plain_ranking
    (documentChunks : list DocumentChunk) (query : str) (topK : option Z) :
  plain (extractTerms query) ->
  (forall d, In d documentChunks -> plain (extractTerms (text d))) ->
  exists results,
    VectorStore.search (VectorStore.constructor documentChunks) query topK
    = inr results
    /\ Forall (fun r => exists x, VectorStore.similarity r = Num x /\ (0 <= x)%R)
         results
    /\ StronglySorted
         (fun a b => geq (VectorStore.similarity a) (VectorStore.similarity b)) results
    /\ forall terms, exists rest,
         map (fun r => VectorStore.chunk (VectorStore.result_chunk r))
           (filter
              (fun r => has_terms terms (VectorStore.chunk (VectorStore.result_chunk r)))
              results)
         ++ rest
         = filter (has_terms terms) documentChunks.
Proof.
  intros Hq Hd.
  destruct (search_initialized (VectorStore.constructor documentChunks) query topK
              eq_refl) as [results [E _]].
  exists results. split; [exact E|].
  destruct (search_plain_sorted documentChunks query topK results Hq Hd E)
    as [H1 [H2 _]].
  cbv zeta in H1. split; [|split; [exact H2|]].
  - pose proof (search_plain_bounds documentChunks query topK results Hq Hd E) as Hb.
    eapply Forall_impl; [|exact Hb].
    intros r [x [Ex Hx]]. exists x. split; [exact Ex | apply Hx].
  - intros terms. rewrite H1.
    rewrite (filter_map_comm _ _
               (fun r => has_terms terms (VectorStore.chunk (VectorStore.result_chunk r)))
               (to_result (extractTerms query))).
    rewrite map_map. cbn [VectorStore.result_chunk to_result].
    unfold slice0.
    set (k := Z.to_nat _).
    set (chosen := fun s : VectorStore.scoredChunk =>
                     has_terms terms (VectorStore.chunk (VectorStore.sc_chunk s))).
    destruct (filter_firstn _ chosen k
                (sort later_similarity
                   (similarities (VectorStore.constructor documentChunks) query)))
      as [rest Hrest].
    exists (map (fun s => VectorStore.chunk (VectorStore.sc_chunk s)) rest).
    rewrite <- map_app, Hrest.
    unfold chosen. rewrite (sort_keeps_terms documentChunks query terms Hq Hd).
    unfold similarities. rewrite constructor_chunks, map_map.
    rewrite (filter_map_comm _ _
               (fun s => has_terms terms (VectorStore.chunk (VectorStore.sc_chunk s)))).
    rewrite map_map. cbn [VectorStore.chunk VectorStore.sc_chunk score_chunk process].
    apply map_id.
Qed.

Lemma search_plain_ranking_witness :
  plain (extractTerms (lit "cat"))
  /\ (forall d, In d pets -> plain (extractTerms (text d)))
  /\ exists results,
       VectorStore.search (VectorStore.constructor pets) (lit "cat") None = inr results
       /\ Forall (fun r => exists x, VectorStore.similarity r = Num x /\ (0 <= x)%R)
            results
       /\ StronglySorted
            (fun a b => geq (VectorStore.similarity a) (VectorStore.similarity b))
            results.
Proof.
  assert (Hq : plain (extractTerms (lit "cat")))
    by (apply plain_forallb; vm_compute; reflexivity).
  assert (Hd : forall d, In d pets -> plain (extractTerms (text d))).
  { intros d [<-|[<-|[<-|[]]]]; apply plain_forallb; vm_compute; reflexivity. }
  split; [exact Hq|]. split; [exact Hd|].
  destruct (search_plain_ranking pets (lit "cat") None Hq Hd)
    as [results [E [Hb [Hs _]]]].
  exists results. repeat split; assumption.
Defined.
